(** * DRF-CB: a discrete-event simulator of Dominant Resource Fairness
      with cost-based preemption

    Shallow embedding of [data_model.py], [event_types.py] and
    [drf_scheduler.py], followed by the properties of the scheduler.

    The program is embedded twice.  The first embedding reads the numbers
    of the program as the real numbers of its specification; the second,
    the module [F64], is the same code over binary64, the numbers with
    which the program computes.  General statements are proved over the
    first; what rounding does to them is shown by running the second.

    Modelling conventions.
    - Numbers.  In the first embedding Python floats (times, resource
      amounts, shares, costs) are exact rationals [Q]; equality of numbers
      is [Qeq].  Rounding, NaN and infinities are not modelled there: a
      division by zero is replaced by 0 where the source replaces the
      non-finite quotient by 0.  In [F64] they are [PrimFloat] numbers.
    - numpy vectors are [list Q]; binary operations work pointwise on
      vectors of the same length (numpy raises on other shapes, which the
      well-formedness predicate [wf_dims] excludes).
    - Python dicts keep insertion order.  The dicts [nodes], [apps] are the
      lists of their values (the key of a value is its [id] field); the
      dicts of tasks are lists of task references.
    - Task objects are shared between the global map, the pending lists
      and the running maps.  They live in one store, [task_objs], and all
      containers hold references (the task id, unique per object).
    - Exceptions are results [Raise e]; loops whose termination is not
      structural take fuel and return [OutOfFuel] when it runs out.
    - [heapq] is modelled by its contract: [heappop] removes the least
      element for [__lt__]. *)

From Stdlib Require Import List ZArith QArith Qminmax Bool Arith Lia Lqa Permutation Sorted.
From Stdlib Require Import Floats.PrimFloat.
Import ListNotations.

Set Implicit Arguments.

(** ** Results of fallible code *)

Inductive exn : Type :=
| ValueError
| KeyError
| IndexError
| BadRef.      (* model only: a task reference absent from the store *)

Inductive outcome (A : Type) : Type :=
| Ok (a : A)
| Raise (e : exn)
| OutOfFuel.

Arguments Ok {A} a.
Arguments Raise {A} e.
Arguments OutOfFuel {A}.

Definition bind {A B : Type} (m : outcome A) (k : A -> outcome B) : outcome B :=
  match m with
  | Ok a => k a
  | Raise e => Raise e
  | OutOfFuel => OutOfFuel
  end.

Declare Scope outcome_scope.
Delimit Scope outcome_scope with outcome.
Notation "x <- m ;; k" := (bind m (fun x => k))
  (at level 61, m at next level, right associativity) : outcome_scope.
Notation "' pat <- m ;; k" := (bind m (fun x => match x with pat => k end))
  (at level 61, pat pattern, m at next level, right associativity) : outcome_scope.
Open Scope outcome_scope.

Definition of_option {A : Type} (e : exn) (o : option A) : outcome A :=
  match o with
  | Some a => Ok a
  | None => Raise e
  end.

Fixpoint mapM {A B : Type} (f : A -> outcome B) (l : list A) : outcome (list B) :=
  match l with
  | [] => Ok []
  | a :: l' => b <- f a ;; bs <- mapM f l' ;; Ok (b :: bs)
  end.

(** ** Numbers and resource vectors *)

Definition Qlt_bool (a b : Q) : bool := negb (Qle_bool b a).

Definition ResourceVector : Type := list Q.

Fixpoint map2 {A B C : Type} (f : A -> B -> C) (u : list A) (v : list B) : list C :=
  match u, v with
  | a :: u', b :: v' => f a b :: map2 f u' v'
  | _, _ => []
  end.

Definition vadd (u v : ResourceVector) : ResourceVector := map2 Qplus u v.
Definition vsub (u v : ResourceVector) : ResourceVector := map2 Qminus u v.

(** [np.all(u <= v)] *)
Definition vle (u v : ResourceVector) : bool :=
  forallb (fun b : bool => b) (map2 Qle_bool u v).

(** [np.zeros_like(v)] *)
Definition zeros_like (v : ResourceVector) : ResourceVector := map (fun _ => 0%Q) v.

(** [np.sum(vs, axis=0)]; no row gives the scalar 0, here the empty vector. *)
Definition np_sum_axis0 (vs : list ResourceVector) : ResourceVector :=
  match vs with
  | [] => []
  | v :: vs' => fold_left vadd vs' v
  end.

Definition qmax (a b : Q) : Q := if Qle_bool a b then b else a.

(** [np.max(v)]; raises [ValueError] on a zero-size array. *)
Definition np_max (v : list Q) : outcome Q :=
  match v with
  | [] => Raise ValueError
  | x :: v' => Ok (fold_left qmax v' x)
  end.

(** [u / r] followed by [shares[~np.isfinite(shares)] = 0]. *)
Definition share (u r : Q) : Q := if Qeq_bool r 0 then 0 else u / r.

Definition shares (U R : ResourceVector) : list Q := map2 share U R.

(** [np.max(shares) if shares.size > 0 else 0.0], the body shared by
    [Application.update_dominant_share] and [Simulation._calculate_s_i]. *)
Definition dominant_share (U R : ResourceVector) : Q :=
  match shares U R with
  | [] => 0
  | x :: l => fold_left qmax l x
  end.

(** ** Python containers *)

(** Stable sort by a key, as [sorted(l, key=...)] and [list.sort(key=...)]. *)
Section StableSort.
Variables (A K : Type) (leb : K -> K -> bool) (key : A -> K).

Fixpoint insert_by (x : A) (l : list A) : list A :=
  match l with
  | [] => [x]
  | y :: l' => if leb (key x) (key y) then x :: l else y :: insert_by x l'
  end.

Definition sorted_by (l : list A) : list A := fold_right insert_by [] l.
End StableSort.

(** [max(l, key=...)]: the first element with the greatest key. *)
Section MaxBy.
Variables (A : Type) (key : A -> Q).

Definition max_step (best x : A) : A :=
  if Qlt_bool (key best) (key x) then x else best.

Definition max_by (l : list A) : option A :=
  match l with
  | [] => None
  | x :: l' => Some (fold_left max_step l' x)
  end.
End MaxBy.

(** A dict of task objects keyed by their ids: the list of keys in
    insertion order. *)
Definition dict_mem (k : nat) (d : list nat) : bool := existsb (Nat.eqb k) d.

(** [d[k] = v] *)
Definition dict_set (k : nat) (d : list nat) : list nat :=
  if dict_mem k d then d else d ++ [k].

(** [del d[k]], after the membership test. *)
Definition dict_del (k : nat) (d : list nat) : list nat :=
  filter (fun j => negb (Nat.eqb k j)) d.

(** ** data_model.py *)

Inductive TaskStatus : Type := PENDING | RUNNING | FINISHED.

Definition TaskStatus_eqb (a b : TaskStatus) : bool :=
  match a, b with
  | PENDING, PENDING | RUNNING, RUNNING | FINISHED, FINISHED => true
  | _, _ => false
  end.

Module Task.
Record t : Type := mk {
  id : nat;
  app_id : Z;
  requirements : ResourceVector;
  duration : Q;
  status : TaskStatus;
  start_time : Q;
  node_id : Z
}.

(** The dataclass constructor with its defaults. *)
Definition new (id : nat) (app_id : Z) (requirements : ResourceVector) (duration : Q) : t :=
  mk id app_id requirements duration PENDING (-1) (-1).

Definition set_run (st : TaskStatus) (start : Q) (node : Z) (x : t) : t :=
  mk (id x) (app_id x) (requirements x) (duration x) st start node.

Definition set_status (st : TaskStatus) (x : t) : t :=
  mk (id x) (app_id x) (requirements x) (duration x) st (start_time x) (node_id x).

Definition elapsed_time (x : t) (current_time : Q) : Q :=
  if TaskStatus_eqb (status x) RUNNING && Qle_bool 0 (start_time x)
  then current_time - start_time x
  else 0.
End Task.

Module Application.
Record t : Type := mk {
  id : Z;
  proto_requirements : ResourceVector;   (* task_prototype['requirements'] *)
  proto_duration : Q;                    (* task_prototype['duration'] *)
  pending_tasks : list nat;
  running_tasks : list nat;
  U_i : ResourceVector;
  s_i : Q
}.

(** The dataclass constructor followed by [__post_init__]. *)
Definition new (id : Z) (req : ResourceVector) (dur : Q) : t :=
  mk id req dur [] [] (zeros_like req) 0.

Definition set_pending (p : list nat) (a : t) : t :=
  mk (id a) (proto_requirements a) (proto_duration a) p (running_tasks a) (U_i a) (s_i a).
Definition set_running (r : list nat) (a : t) : t :=
  mk (id a) (proto_requirements a) (proto_duration a) (pending_tasks a) r (U_i a) (s_i a).
Definition set_U_i (u : ResourceVector) (a : t) : t :=
  mk (id a) (proto_requirements a) (proto_duration a) (pending_tasks a) (running_tasks a) u (s_i a).
Definition set_s_i (s : Q) (a : t) : t :=
  mk (id a) (proto_requirements a) (proto_duration a) (pending_tasks a) (running_tasks a) (U_i a) s.

Definition update_dominant_share (total_cluster_resources : ResourceVector) (a : t) : t :=
  set_s_i (dominant_share (U_i a) total_cluster_resources) a.
End Application.

Module Node.
Record t : Type := mk {
  id : Z;
  R_k : ResourceVector;
  C_k : ResourceVector;
  running_tasks : list nat
}.

Definition new (id : Z) (R_k : ResourceVector) : t := mk id R_k (zeros_like R_k) [].

Definition can_fit (n : t) (task_req : ResourceVector) : bool :=
  vle (vadd (C_k n) task_req) (R_k n).

Definition add_task (n : t) (task : Task.t) : outcome t :=
  if negb (can_fit n (Task.requirements task)) then Raise ValueError
  else Ok (mk (id n) (R_k n) (vadd (C_k n) (Task.requirements task))
              (dict_set (Task.id task) (running_tasks n))).

Definition remove_task (n : t) (task : Task.t) : outcome t :=
  if negb (dict_mem (Task.id task) (running_tasks n)) then Raise ValueError
  else Ok (mk (id n) (R_k n) (vsub (C_k n) (Task.requirements task))
              (dict_del (Task.id task) (running_tasks n))).
End Node.

(** ** event_types.py *)

Inductive Payload : Type :=
| SubmitEvent (app_id : Z) (num_tasks : Z)
| TaskFinishEvent (task_id : nat) (app_id : Z) (node_id : Z)
| SchedulerRunEvent (allocation_made : bool).

Module SimEvent.
Record t : Type := mk {
  time : Q;
  counter : nat;
  payload : Payload
}.

(** The class default of the [priority] field; no constructor call of
    the program passes another value. *)
Definition priority (e : t) : nat :=
  match payload e with
  | SubmitEvent _ _ => 1
  | TaskFinishEvent _ _ _ => 1
  | SchedulerRunEvent _ => 2
  end.

(** [__lt__] *)
Definition lt (self other : t) : bool :=
  if negb (Qeq_bool (time self) (time other)) then Qlt_bool (time self) (time other)
  else if negb (Nat.eqb (priority self) (priority other))
       then Nat.ltb (priority self) (priority other)
       else Nat.ltb (counter self) (counter other).

Definition is_scheduler_run (e : t) : bool :=
  match payload e with
  | SchedulerRunEvent _ => true
  | _ => false
  end.
End SimEvent.

(** [heapq.heappush] and [heapq.heappop] by their contract: the queue is
    the list of its elements in insertion order, and popping removes the
    least element for [SimEvent.lt] (the earliest one among equals). *)
Definition heappush (q : list SimEvent.t) (e : SimEvent.t) : list SimEvent.t := q ++ [e].

Fixpoint heappop (q : list SimEvent.t) : option (SimEvent.t * list SimEvent.t) :=
  match q with
  | [] => None
  | e :: q' =>
      match heappop q' with
      | None => Some (e, [])
      | Some (m, r) => if SimEvent.lt m e then Some (m, e :: r) else Some (e, q')
      end
  end.

(** ** drf_scheduler.py: the simulator state *)

Record Simulation : Type := mkSimulation {
  current_time : Q;
  event_queue : list SimEvent.t;
  nodes : list Node.t;
  apps : list Application.t;
  R_total : ResourceVector;
  task_id_counter : nat;
  all_tasks : list nat;
  ALPHA : Q;
  BETA : Q;
  EPSILON : Q;
  event_counter : nat;          (* the module-level [event_counter] of event_types.py *)
  task_objs : list Task.t       (* the store of task objects *)
}.

Definition set_current_time (t : Q) (s : Simulation) : Simulation :=
  mkSimulation t (event_queue s) (nodes s) (apps s) (R_total s) (task_id_counter s)
    (all_tasks s) (ALPHA s) (BETA s) (EPSILON s) (event_counter s) (task_objs s).
Definition set_event_queue (q : list SimEvent.t) (s : Simulation) : Simulation :=
  mkSimulation (current_time s) q (nodes s) (apps s) (R_total s) (task_id_counter s)
    (all_tasks s) (ALPHA s) (BETA s) (EPSILON s) (event_counter s) (task_objs s).
Definition set_nodes (n : list Node.t) (s : Simulation) : Simulation :=
  mkSimulation (current_time s) (event_queue s) n (apps s) (R_total s) (task_id_counter s)
    (all_tasks s) (ALPHA s) (BETA s) (EPSILON s) (event_counter s) (task_objs s).
Definition set_apps (a : list Application.t) (s : Simulation) : Simulation :=
  mkSimulation (current_time s) (event_queue s) (nodes s) a (R_total s) (task_id_counter s)
    (all_tasks s) (ALPHA s) (BETA s) (EPSILON s) (event_counter s) (task_objs s).
Definition set_task_id_counter (c : nat) (s : Simulation) : Simulation :=
  mkSimulation (current_time s) (event_queue s) (nodes s) (apps s) (R_total s) c
    (all_tasks s) (ALPHA s) (BETA s) (EPSILON s) (event_counter s) (task_objs s).
Definition set_all_tasks (m : list nat) (s : Simulation) : Simulation :=
  mkSimulation (current_time s) (event_queue s) (nodes s) (apps s) (R_total s) (task_id_counter s)
    m (ALPHA s) (BETA s) (EPSILON s) (event_counter s) (task_objs s).
Definition set_event_counter (c : nat) (s : Simulation) : Simulation :=
  mkSimulation (current_time s) (event_queue s) (nodes s) (apps s) (R_total s) (task_id_counter s)
    (all_tasks s) (ALPHA s) (BETA s) (EPSILON s) c (task_objs s).
Definition set_task_objs (o : list Task.t) (s : Simulation) : Simulation :=
  mkSimulation (current_time s) (event_queue s) (nodes s) (apps s) (R_total s) (task_id_counter s)
    (all_tasks s) (ALPHA s) (BETA s) (EPSILON s) (event_counter s) o.

(** Reading and mutating the objects held by the state. *)
Definition get_node (s : Simulation) (k : Z) : option Node.t :=
  find (fun n => Z.eqb (Node.id n) k) (nodes s).
Definition get_app (s : Simulation) (k : Z) : option Application.t :=
  find (fun a => Z.eqb (Application.id a) k) (apps s).
Definition get_task (s : Simulation) (k : nat) : option Task.t :=
  find (fun x => Nat.eqb (Task.id x) k) (task_objs s).

Definition update_node (k : Z) (f : Node.t -> Node.t) (s : Simulation) : Simulation :=
  set_nodes (map (fun n => if Z.eqb (Node.id n) k then f n else n) (nodes s)) s.
Definition update_app (k : Z) (f : Application.t -> Application.t) (s : Simulation) : Simulation :=
  set_apps (map (fun a => if Z.eqb (Application.id a) k then f a else a) (apps s)) s.
Definition update_task (k : nat) (f : Task.t -> Task.t) (s : Simulation) : Simulation :=
  set_task_objs (map (fun x => if Nat.eqb (Task.id x) k then f x else x) (task_objs s)) s.

(** An event constructor call ([__post_init__] draws the counter) followed
    by [heapq.heappush(self.event_queue, evt)]. *)
Definition push_event (time : Q) (p : Payload) (s : Simulation) : Simulation :=
  set_event_counter (S (event_counter s))
    (set_event_queue (heappush (event_queue s) (SimEvent.mk time (event_counter s) p)) s).

(** [{x.id: x for x in l}]: a later value with the same id takes the
    place of the earlier one. *)
Section DictOfValues.
Variables (A : Type) (key : A -> Z).

Fixpoint dict_put (x : A) (d : list A) : list A :=
  match d with
  | [] => [x]
  | y :: d' => if Z.eqb (key y) (key x) then x :: d' else y :: dict_put x d'
  end.

Definition dict_of_values (l : list A) : list A :=
  fold_left (fun d x => dict_put x d) l [].
End DictOfValues.

(** [Simulation.__init__]; [counter0] is the value of the global event
    counter when the constructor is called. *)
Definition init (nodes0 : list Node.t) (apps0 : list Application.t)
    (submission_queue : list (Q * Z * Z))
    (preemption_alpha preemption_beta preemption_epsilon : Q) (counter0 : nat) : Simulation :=
  let s0 := mkSimulation 0 []
              (dict_of_values Node.id nodes0)
              (dict_of_values Application.id apps0)
              (np_sum_axis0 (map Node.R_k nodes0))
              0 [] preemption_alpha preemption_beta preemption_epsilon counter0 [] in
  fold_left (fun s '(time, app_id, num_tasks) => push_event time (SubmitEvent app_id num_tasks) s)
            submission_queue s0.

Definition _calculate_s_i (s : Simulation) (U_vector : ResourceVector) : Q :=
  dominant_share U_vector (R_total s).

Definition _calculate_task_cost (s : Simulation) (task : Task.t) : outcome Q :=
  let t_p := Task.elapsed_time task (current_time s) in
  if Qle_bool t_p 0 then Ok 0
  else
    max_share <- np_max (shares (Task.requirements task) (R_total s)) ;;
    if Qeq_bool max_share 0 then Ok 0 else Ok (t_p * max_share).

Definition trigger_scheduler_run (allocation_made : bool) (s : Simulation) : Simulation :=
  if negb (existsb (fun e => SimEvent.is_scheduler_run e
                             && Qeq_bool (SimEvent.time e) (current_time s))
                   (event_queue s))
  then push_event (current_time s) (SchedulerRunEvent allocation_made) s
  else s.

(** One iteration of the loop of [handle_submit_event]. *)
Definition submit_one (app_id : Z) (s : Simulation) : outcome Simulation :=
  app <- of_option KeyError (get_app s app_id) ;;
  let task_id := task_id_counter s in
  let new_task := Task.new task_id app_id (Application.proto_requirements app)
                           (Application.proto_duration app) in
  Ok (set_all_tasks (dict_set task_id (all_tasks s))
       (update_app app_id
          (fun a => Application.set_pending (Application.pending_tasks a ++ [task_id]) a)
          (set_task_objs (task_objs s ++ [new_task])
             (set_task_id_counter (S task_id) s)))).

Fixpoint repeatM (n : nat) (f : Simulation -> outcome Simulation) (s : Simulation)
  : outcome Simulation :=
  match n with
  | O => Ok s
  | S n' => s' <- f s ;; repeatM n' f s'
  end.

Definition handle_submit_event (s : Simulation) (app_id num_tasks : Z) : outcome Simulation :=
  _ <- of_option KeyError (get_app s app_id) ;;
  repeatM (Z.to_nat num_tasks) (submit_one app_id) s.

Definition handle_task_finish_event (s : Simulation) (task_id : nat) (app_id node_id : Z)
  : outcome Simulation :=
  if negb (dict_mem task_id (all_tasks s)) then Ok s
  else
    task <- of_option BadRef (get_task s task_id) ;;
    node <- of_option KeyError (get_node s node_id) ;;
    app <- of_option KeyError (get_app s app_id) ;;
    match Node.remove_task node task with
    | Raise ValueError => Ok s                      (* except ValueError *)
    | Raise e => Raise e
    | OutOfFuel => OutOfFuel
    | Ok node' =>
        if negb (dict_mem task_id (Application.running_tasks app)) then Raise KeyError
        else
          Ok (set_all_tasks (dict_del task_id (all_tasks s))
               (update_task task_id (Task.set_status FINISHED)
                  (update_app app_id
                     (fun a => Application.update_dominant_share (R_total s)
                                 (Application.set_running
                                    (dict_del task_id (Application.running_tasks a))
                                    (Application.set_U_i
                                       (vsub (Application.U_i a) (Task.requirements task)) a)))
                     (update_node node_id (fun _ => node') s))))
    end.

Definition find_best_node (s : Simulation) (task_requirements : ResourceVector)
  : option Node.t :=
  find (fun n => Node.can_fit n task_requirements)
       (sorted_by Z.leb Node.id (nodes s)).

(** ** The preemption evaluator, [find_preemption_candidate] *)

(** Steps 5 and 6: the loop that grows [tau_Pk] over the cost-ordered
    tasks until the winner's task fits.  The result is the victim list,
    the freed resources and the total cost at the [break]; [None] stands
    for [found_sufficient_set = False]. *)
Fixpoint build_tau (node : Node.t) (D_W : ResourceVector) (l : list (Q * Task.t))
    (tau_Pk : list Task.t) (freed_resources : ResourceVector) (current_total_cost : Q)
  : option (list Task.t * ResourceVector * Q) :=
  match l with
  | [] => None
  | (cost, task) :: l' =>
      let tau := tau_Pk ++ [task] in
      let freed := vadd freed_resources (Task.requirements task) in
      let total := current_total_cost + cost in
      if vle (vadd (vsub (Node.C_k node) freed) D_W) (Node.R_k node)
      then Some (tau, freed, total)
      else build_tau node D_W l' tau freed total
  end.

(** Steps 3 and 4: the victim application's tasks on the node, with their
    costs, in ascending order of cost. *)
Definition tasks_with_cost (s : Simulation) (victim_app : Application.t) (node : Node.t)
  : outcome (list (Q * Task.t)) :=
  on_node <- mapM (fun k => of_option BadRef (get_task s k)) (Node.running_tasks node) ;;
  let victim_tasks_on_node :=
    filter (fun task => Z.eqb (Task.app_id task) (Application.id victim_app)) on_node in
  costed <- mapM (fun task => c <- _calculate_task_cost s task ;; Ok (c, task))
                 victim_tasks_on_node ;;
  Ok (sorted_by Qle_bool fst costed).

(** A candidate is [(total_cost, victim_set, node)]. *)
Definition Candidate : Type := (Q * list Task.t * Node.t)%type.

(** The body of the loop over the nodes, steps 3 to 11: the candidate of
    one node, if it has one. *)
Definition node_candidate (s : Simulation) (winner_app : Application.t)
    (D_W : ResourceVector) (victim_app : Application.t) (node : Node.t)
  : outcome (option Candidate) :=
  l <- tasks_with_cost s victim_app node ;;
  match build_tau node D_W l [] (zeros_like (R_total s)) 0 with
  | None => Ok None
  | Some (tau_Pk, freed_resources, current_total_cost) =>
      let U_W_prime := vadd (Application.U_i winner_app) D_W in
      let U_P_prime := vsub (Application.U_i victim_app) freed_resources in
      let s_W_prime := _calculate_s_i s U_W_prime in
      let s_P_prime := _calculate_s_i s U_P_prime in
      if negb (Qlt_bool s_W_prime s_P_prime) then Ok None
      else
        let zysk := Application.s_i victim_app - s_P_prime in
        if negb (Qlt_bool (EPSILON s) zysk) then Ok None
        else
          let koszt := current_total_cost in
          if Qlt_bool (koszt * BETA s) (zysk * ALPHA s)
          then Ok (Some (koszt, tau_Pk, node))
          else Ok None
  end.

(** [if best_candidate is None or candidate[0] < best_candidate[0]] *)
Definition better (best : option Candidate) (candidate : Candidate) : option Candidate :=
  match best with
  | None => Some candidate
  | Some b => if Qlt_bool (fst (fst candidate)) (fst (fst b)) then Some candidate else best
  end.

Fixpoint scan_nodes (s : Simulation) (winner_app : Application.t) (D_W : ResourceVector)
    (victim_app : Application.t) (l : list Node.t) (best_candidate : option Candidate)
  : outcome (option Candidate) :=
  match l with
  | [] => Ok best_candidate
  | node :: l' =>
      c <- node_candidate s winner_app D_W victim_app node ;;
      scan_nodes s winner_app D_W victim_app l'
        (match c with
         | None => best_candidate
         | Some candidate => better best_candidate candidate
         end)
  end.

(** Step 1: the application with the greatest [s_i] among those with a
    running task. *)
Definition select_victim_app (s : Simulation) : option Application.t :=
  max_by Application.s_i
         (filter (fun a => negb (Nat.eqb (length (Application.running_tasks a)) 0)) (apps s)).

Definition find_preemption_candidate (s : Simulation) (winner_app : Application.t)
    (winner_task : Task.t) : outcome (option (list nat * Node.t)) :=
  let s_W := Application.s_i winner_app in
  let D_W := Task.requirements winner_task in
  match select_victim_app s with
  | None => Ok None
  | Some victim_app =>
      let s_P := Application.s_i victim_app in
      if negb (Qlt_bool s_W s_P) then Ok None
      else
        best <- scan_nodes s winner_app D_W victim_app (nodes s) None ;;
        match best with
        | Some (_, victim_set, node) => Ok (Some (map Task.id victim_set, node))
        | None => Ok None
        end
  end.

(** ** The scheduling cycle, [run_scheduler_cycle] *)

(** The lines printed by a round that name a decision. *)
Inductive LogEntry : Type :=
| LogAllocation (task_id : nat) (app_id node_id : Z)       (* "ALOKACJA: ..." *)
| LogNoRoom (task_id : nat) (app_id : Z)                   (* "Brak miejsca ... Szukam kandydata" *)
| LogPreemption (victims : list nat) (victim_app_id node_id : Z)
                (task_id : nat) (app_id : Z)               (* "WYWLASZCZANIE: ..." *)
| LogNoPreemption (app_id : Z).                            (* "Brak oplacalnego wywlaszczenia" *)

(** Starting the head pending task of an application on a node: the lines
    from [task = app.pending_tasks.pop(0)] to the push of the finish
    event, which the direct placement and the placement after a
    preemption have in common. *)
Definition start_head_task (app_id node_id : Z) (s : Simulation) : outcome Simulation :=
  app <- of_option KeyError (get_app s app_id) ;;
  match Application.pending_tasks app with
  | [] => Raise IndexError
  | task_id :: rest =>
      task0 <- of_option BadRef (get_task s task_id) ;;
      let task := Task.set_run RUNNING (current_time s) node_id task0 in
      node <- of_option KeyError (get_node s node_id) ;;
      node' <- Node.add_task node task ;;
      Ok (push_event (current_time s + Task.duration task)
                     (TaskFinishEvent task_id app_id node_id)
           (update_app app_id
              (fun a => Application.update_dominant_share (R_total s)
                          (Application.set_running
                             (dict_set task_id (Application.running_tasks a))
                             (Application.set_U_i
                                (vadd (Application.U_i a) (Task.requirements task))
                                (Application.set_pending rest a))))
              (update_node node_id (fun _ => node')
                 (update_task task_id (fun _ => task) s))))
  end.

(** One iteration of [for ofiara_task in zestaw_ofiar]. *)
Definition preempt_one (victim_app_id node_id : Z) (acc : Simulation * ResourceVector)
    (ofiara : nat) : outcome (Simulation * ResourceVector) :=
  let '(s, zasoby_zwolnione) := acc in
  ofiara_task <- of_option BadRef (get_task s ofiara) ;;
  node <- of_option KeyError (get_node s node_id) ;;
  node' <- Node.remove_task node ofiara_task ;;
  aplikacja_ofiary <- of_option KeyError (get_app s victim_app_id) ;;
  if negb (dict_mem ofiara (Application.running_tasks aplikacja_ofiary)) then Raise KeyError
  else
    Ok (update_app victim_app_id
          (fun a => Application.set_pending (ofiara :: Application.pending_tasks a)
                      (Application.set_running
                         (dict_del ofiara (Application.running_tasks a)) a))
          (update_task ofiara (Task.set_run PENDING (-1) (-1))
             (update_node node_id (fun _ => node') s)),
        vadd zasoby_zwolnione (Task.requirements ofiara_task)).

Fixpoint preempt_all (victim_app_id node_id : Z) (zestaw_ofiar : list nat)
    (acc : Simulation * ResourceVector) : outcome (Simulation * ResourceVector) :=
  match zestaw_ofiar with
  | [] => Ok acc
  | ofiara :: rest =>
      acc' <- preempt_one victim_app_id node_id acc ofiara ;;
      preempt_all victim_app_id node_id rest acc'
  end.

(** The block under [if zestaw_ofiar:], for a victim set with first
    element [first]. *)
Definition apply_preemption (s : Simulation) (app_id : Z) (first : nat)
    (zestaw_ofiar : list nat) (wezel_ofiary : Node.t) : outcome (Z * Simulation) :=
  first_task <- of_option BadRef (get_task s first) ;;
  let victim_app_id := Task.app_id first_task in
  _ <- of_option KeyError (get_app s victim_app_id) ;;
  '(s1, zasoby_zwolnione) <-
     preempt_all victim_app_id (Node.id wezel_ofiary) zestaw_ofiar
                 (s, zeros_like (R_total s)) ;;
  let s2 := update_app victim_app_id
              (fun a => Application.update_dominant_share (R_total s)
                          (Application.set_U_i
                             (vsub (Application.U_i a) zasoby_zwolnione) a)) s1 in
  s3 <- start_head_task app_id (Node.id wezel_ofiary) s2 ;;
  Ok (victim_app_id, s3).

(** The [for app in posortowane_aplikacje] loop of one round.  The state
    does not change before the [break], so the loop variable is read from
    the list; [Some s'] is the state after the allocation that ended the
    loop, [None] means [alokacja_w_rundzie = False]. *)
Fixpoint visit_apps (s : Simulation) (l : list Application.t)
  : outcome (list LogEntry * option Simulation) :=
  match l with
  | [] => Ok ([], None)
  | app :: l' =>
      match Application.pending_tasks app with
      | [] => visit_apps s l'
      | head :: _ =>
          zadanie_do_uruchomienia <- of_option BadRef (get_task s head) ;;
          let D_i := Task.requirements zadanie_do_uruchomienia in
          match find_best_node s D_i with
          | Some wezel_cel =>
              s' <- start_head_task (Application.id app) (Node.id wezel_cel) s ;;
              Ok ([LogAllocation head (Application.id app) (Node.id wezel_cel)], Some s')
          | None =>
              r <- find_preemption_candidate s app zadanie_do_uruchomienia ;;
              match r with
              | Some ((first :: _) as zestaw_ofiar, wezel_ofiary) =>
                  '(victim_app_id, s') <-
                     apply_preemption s (Application.id app) first zestaw_ofiar wezel_ofiary ;;
                  Ok ([LogNoRoom head (Application.id app);
                       LogPreemption zestaw_ofiar victim_app_id (Node.id wezel_ofiary)
                                     head (Application.id app)],
                      Some s')
              | _ =>
                  '(log, r') <- visit_apps s l' ;;
                  Ok (LogNoRoom head (Application.id app)
                        :: LogNoPreemption (Application.id app) :: log, r')
              end
          end
      end
  end.

(** How one pass through the body of [while True] ends. *)
Inductive RoundResult : Type :=
| BreakNoPending                                      (* [if not pending_apps: break] *)
| BreakNoAllocation (log : list LogEntry)             (* [if not alokacja_w_rundzie: break] *)
| NextRound (log : list LogEntry) (s' : Simulation).  (* an allocation was made *)

Definition has_pending (a : Application.t) : bool :=
  negb (Nat.eqb (length (Application.pending_tasks a)) 0).

Definition scheduling_round (s : Simulation) : outcome RoundResult :=
  let pending_apps := filter has_pending (apps s) in
  match pending_apps with
  | [] => Ok BreakNoPending
  | _ =>
      let posortowane_aplikacje := sorted_by Qle_bool Application.s_i pending_apps in
      '(log, r) <- visit_apps s posortowane_aplikacje ;;
      match r with
      | Some s' => Ok (NextRound log s')
      | None => Ok (BreakNoAllocation log)
      end
  end.

(** [run_scheduler_cycle]: the final state and the log of every round, in
    order (the last one is the round that broke out of the loop). *)
Fixpoint run_scheduler_cycle (fuel : nat) (s : Simulation)
  : outcome (Simulation * list (list LogEntry)) :=
  match fuel with
  | O => OutOfFuel
  | S fuel' =>
      r <- scheduling_round s ;;
      match r with
      | BreakNoPending => Ok (s, [[]])
      | BreakNoAllocation log => Ok (s, [log])
      | NextRound log s' =>
          '(s'', logs) <- run_scheduler_cycle fuel' s' ;;
          Ok (s'', log :: logs)
      end
  end.

(** ** The event loop, [run] *)

Definition dispatch (fuel : nat) (event : SimEvent.t) (s : Simulation)
  : outcome (Simulation * list (list LogEntry)) :=
  match SimEvent.payload event with
  | SubmitEvent app_id num_tasks =>
      s' <- handle_submit_event s app_id num_tasks ;; Ok (s', [])
  | TaskFinishEvent task_id app_id node_id =>
      s' <- handle_task_finish_event s task_id app_id node_id ;; Ok (s', [])
  | SchedulerRunEvent _ => run_scheduler_cycle fuel s
  end.

(** The two branches that close the body of the loop of [run]. *)
Definition after_dispatch (event : SimEvent.t) (s : Simulation) : Simulation :=
  match SimEvent.payload event with
  | SchedulerRunEvent false => s
  | _ =>
      if negb (existsb SimEvent.is_scheduler_run (event_queue s))
      then trigger_scheduler_run false s
      else s
  end.

(** One pass through the body of [while self.event_queue]: the event
    popped and the result of handling it; [None] when the queue is empty. *)
Definition step (fuel : nat) (s : Simulation)
  : option (SimEvent.t * outcome (list (list LogEntry) * Simulation)) :=
  match heappop (event_queue s) with
  | None => None
  | Some (event, q) =>
      let s1 := set_current_time (SimEvent.time event) (set_event_queue q s) in
      Some (event,
            '(s2, logs) <- dispatch fuel event s1 ;;
            Ok (logs, after_dispatch event s2))
  end.

(** The loop of [run], for at most [fuel] events: every dispatched event
    with the logs of the cycle it ran and the state it left, in order.
    The trace ends at an empty queue, at an exception, or with the fuel. *)
Fixpoint run_loop (fuel cycle_fuel : nat) (s : Simulation)
  : list (SimEvent.t * outcome (list (list LogEntry) * Simulation)) :=
  match fuel with
  | O => []
  | S fuel' =>
      match step cycle_fuel s with
      | None => []
      | Some (event, r) =>
          (event, r) :: match r with
                        | Ok (_, s') => run_loop fuel' cycle_fuel s'
                        | _ => []
                        end
      end
  end.

Definition run (fuel : nat) (s : Simulation)
  : list (SimEvent.t * outcome (list (list LogEntry) * Simulation)) :=
  run_loop fuel fuel (trigger_scheduler_run false s).

(** ** Specification-side definitions *)

(** The share of component [r] as the specification words it: the
    quotient, and 0 when the divisor is zero. *)
Definition spec_share (U R : ResourceVector) (r : nat) : Q :=
  if Qeq_dec (nth r R 0) 0 then 0 else nth r U 0 / nth r R 0.

(** [m] is the dominant share of [U] against [R]: 0 in dimension 0,
    otherwise the greatest component share. *)
Definition is_dominant_share (U R : ResourceVector) (m : Q) : Prop :=
  (length U = 0%nat -> m = 0) /\
  ((0 < length U)%nat ->
     (exists r, (r < length U)%nat /\ m = spec_share U R r) /\
     (forall r, (r < length U)%nat -> spec_share U R r <= m)).

(** The strict lexicographic order on the triple
    [(time, priority, counter)]. *)
Definition triple_lt (a b : SimEvent.t) : Prop :=
  SimEvent.time a < SimEvent.time b \/
  (SimEvent.time a == SimEvent.time b /\
   ((SimEvent.priority a < SimEvent.priority b)%nat \/
    (SimEvent.priority a = SimEvent.priority b /\
     (SimEvent.counter a < SimEvent.counter b)%nat))).

(** ** Invariants of the simulator state *)

(** Counters in the queue are distinct and were drawn from the global
    counter. *)
Definition queue_ok (s : Simulation) : Prop :=
  (forall e, In e (event_queue s) -> (SimEvent.counter e < event_counter s)%nat) /\
  NoDup (map SimEvent.counter (event_queue s)).

(** Durations are positive, as the data model of the specification
    requires. *)
Definition durations_ok (s : Simulation) : Prop :=
  (forall x, In x (task_objs s) -> 0 < Task.duration x) /\
  (forall a, In a (apps s) -> 0 < Application.proto_duration a).

(** The state while the event [m] is handled, and after it: the clock
    shows the time of [m] and everything in the queue comes after [m]. *)
Definition later_than (m : SimEvent.t) (s : Simulation) : Prop :=
  current_time s == SimEvent.time m /\
  (SimEvent.counter m < event_counter s)%nat /\
  (forall e, In e (event_queue s) -> triple_lt m e).

Definition ordered_inv (m : SimEvent.t) (s : Simulation) : Prop :=
  queue_ok s /\ durations_ok s /\ later_than m s.

(** ** Concrete clusters used as examples

    One node of capacity [8, 16]; application 1 with tasks [1, 8] of
    duration 16, two of them submitted at time 0; application 2 with
    tasks [2, 2] of duration 5, one submitted at time 1; alpha = 2,
    beta = 1, epsilon = 1/1000. *)
Definition example_nodes : list Node.t := [Node.new 1 [8; 16]].
Definition example_apps : list Application.t :=
  [Application.new 1 [1; 8] 16; Application.new 2 [2; 2] 5].
Definition example_submissions : list (Q * Z * Z) := [(0, 1%Z, 2%Z); (1, 2%Z, 1%Z)].
Definition example_sim : Simulation :=
  init example_nodes example_apps example_submissions 2 1 (1 # 1000) 0.


(** Order of two elements by their sort keys. *)
Definition key_le (A K : Type) (leb : K -> K -> bool) (key : A -> K) (x y : A) : Prop :=
  leb (key x) (key y) = true.

(** All resource vectors of the state have one dimension [D], which is
    the dimension of [R_total] when the cluster has a node. *)
Definition dims_ok (D : nat) (s : Simulation) : Prop :=
  (nodes s <> [] -> length (R_total s) = D) /\
  (forall n, In n (nodes s) -> length (Node.R_k n) = D /\ length (Node.C_k n) = D) /\
  (forall a, In a (apps s) ->
     length (Application.U_i a) = D /\ length (Application.proto_requirements a) = D) /\
  (forall x, In x (task_objs s) -> length (Task.requirements x) = D).

Definition wf_dims (s : Simulation) : Prop := exists D, dims_ok D s.

(** The keys of the dicts [apps] and [nodes] are distinct. *)
Definition keys_ok (s : Simulation) : Prop :=
  NoDup (map Application.id (apps s)) /\ NoDup (map Node.id (nodes s)).

(** Executable versions of the two predicates. *)
Definition wf_dims_b (s : Simulation) : bool :=
  let D := length (R_total s) in
  forallb (fun n => Nat.eqb (length (Node.R_k n)) D && Nat.eqb (length (Node.C_k n)) D)
          (nodes s)
  && forallb (fun a => Nat.eqb (length (Application.U_i a)) D
                       && Nat.eqb (length (Application.proto_requirements a)) D)
             (apps s)
  && forallb (fun x => Nat.eqb (length (Task.requirements x)) D) (task_objs s).

Fixpoint distinct_b (l : list Z) : bool :=
  match l with
  | [] => true
  | x :: l' => negb (existsb (Z.eqb x) l') && distinct_b l'
  end.

Definition keys_ok_b (s : Simulation) : bool :=
  distinct_b (map Application.id (apps s)) && distinct_b (map Node.id (nodes s)).

(** The running maps of the nodes are dicts: no key occurs twice. *)
Definition running_ok (s : Simulation) : Prop :=
  forall n, In n (nodes s) -> NoDup (Node.running_tasks n).

Definition running_ok_b (s : Simulation) : bool :=
  forallb (fun n => distinct_b (map Z.of_nat (Node.running_tasks n))) (nodes s).

(** The sum of component [r] over a list of vectors. *)
Definition sum_comp (r : nat) (vs : list ResourceVector) : Q :=
  fold_right (fun v acc => nth r v 0 + acc) 0 vs.

(** ** Conservation of resources *)

Definition sum_U (r : nat) (s : Simulation) : Q :=
  sum_comp r (map Application.U_i (apps s)).

Definition sum_C (r : nat) (s : Simulation) : Q :=
  sum_comp r (map Node.C_k (nodes s)).

(** In every component, what the applications hold is what the nodes
    have in use. *)
Definition conservation (s : Simulation) : Prop :=
  forall r, sum_U r s == sum_C r s.

(** Inside the loop over the victims: [z] has been released on the node
    and is still counted in the victim application's [U_i]. *)
Definition owed (z : ResourceVector) (s : Simulation) : Prop :=
  forall r, sum_U r s == sum_C r s + nth r z 0.

Definition accounting_inv (D : nat) (s : Simulation) : Prop :=
  keys_ok s /\ dims_ok D s /\ conservation s.

Definition owed_inv (D : nat) (z : ResourceVector) (s : Simulation) : Prop :=
  keys_ok s /\ dims_ok D s /\ owed z s.

(** The constructor arguments of the specification: nodes as
    [(id, capacity)], applications as [(id, requirements, duration)]. *)
Definition fresh_nodes (l : list (Z * ResourceVector)) : list Node.t :=
  map (fun '(i, r) => Node.new i r) l.

Definition fresh_apps (l : list (Z * ResourceVector * Q)) : list Application.t :=
  map (fun '(i, r, d) => Application.new i r d) l.

(** ** Statements about one round *)

Definition no_node_fits (s : Simulation) (req : ResourceVector) : Prop :=
  forall n, In n (nodes s) -> Node.can_fit n req = false.

(** [n] is the node with the smallest id among those that fit [req]. *)
Definition least_fitting_node (s : Simulation) (req : ResourceVector) (n : Node.t) : Prop :=
  In n (nodes s) /\ Node.can_fit n req = true /\
  forall n', In n' (nodes s) -> Node.can_fit n' req = true -> (Node.id n <= Node.id n')%Z.

(** [task] is the task object at the head of the pending list of the
    application [a]. *)
Definition head_task (s : Simulation) (a : Z) (t : nat) (task : Task.t) : Prop :=
  exists app, In app (apps s) /\ Application.id app = a /\
              hd_error (Application.pending_tasks app) = Some t /\
              get_task s t = Some task.

(** What a line of the log of a round says about the state [s] in which
    the round started.  [LogNoRoom] is printed immediately before the call
    of the preemption evaluator. *)
Definition entry_justified (s : Simulation) (e : LogEntry) : Prop :=
  match e with
  | LogAllocation t a n =>
      exists task node, head_task s a t task /\
                        least_fitting_node s (Task.requirements task) node /\
                        Node.id node = n
  | LogNoRoom t a =>
      exists task, head_task s a t task /\ no_node_fits s (Task.requirements task)
  | LogPreemption _ _ _ t a =>
      exists task, head_task s a t task /\ no_node_fits s (Task.requirements task)
  | LogNoPreemption _ => True
  end.

Definition round_log (r : RoundResult) : list LogEntry :=
  match r with
  | BreakNoPending => []
  | BreakNoAllocation log => log
  | NextRound log _ => log
  end.

Definition round_state (r : RoundResult) : option Simulation :=
  match r with
  | NextRound _ s' => Some s'
  | _ => None
  end.

(** Some node fits [req]. *)
Definition fits_somewhere (s : Simulation) (req : ResourceVector) : Prop :=
  exists n, In n (nodes s) /\ Node.can_fit n req = true.

(** What a round that started in [s], printed [log] and ended in
    [st] did for an application it visited: when some node fits the head
    pending task, the task was allocated to the node with the smallest id
    among those that fit and runs there in the state the round left, and
    the line that precedes a call of the evaluator was not printed for
    it; when no node fits it, that line was printed. *)
Definition visit_outcome (s : Simulation) (log : list LogEntry) (st : option Simulation)
    (app : Application.t) : Prop :=
  exists head rest task,
    Application.pending_tasks app = head :: rest /\ get_task s head = Some task /\
    (fits_somewhere s (Task.requirements task) ->
       exists node s' node',
         least_fitting_node s (Task.requirements task) node /\
         In (LogAllocation head (Application.id app) (Node.id node)) log /\
         st = Some s' /\ get_node s' (Node.id node) = Some node' /\
         In head (Node.running_tasks node') /\
         ~ In (LogNoRoom head (Application.id app)) log) /\
    (no_node_fits s (Task.requirements task) ->
       In (LogNoRoom head (Application.id app)) log).

(** The application named by a line of the log that records an
    allocation. *)
Definition served_app (e : LogEntry) : option Z :=
  match e with
  | LogAllocation _ a _ => Some a
  | LogPreemption _ _ _ _ a => Some a
  | _ => None
  end.

(** The visited applications of a round that ended in [st]: all of them
    when the round made no allocation, and otherwise the applications up
    to the one that [log] names as served. *)
Definition visit_ends (log : list LogEntry) (st : option Simulation)
    (visited unvisited : list Application.t) : Prop :=
  match st with
  | None => unvisited = []
  | Some _ => exists before app e,
                visited = before ++ [app] /\ In e log /\
                served_app e = Some (Application.id app)
  end.

(** The state in which the handler of the next event starts: the event
    is popped and the clock set to its time. *)
Definition next_event_state (s : Simulation) : Simulation :=
  match heappop (event_queue s) with
  | Some (e, q) => set_current_time (SimEvent.time e) (set_event_queue q s)
  | None => s
  end.

(** The state left by the [k]-th dispatched event of a run ([k] from 0). *)
Definition state_after (k : nat) (s : Simulation) : Simulation :=
  match nth_error (run (S k) s) k with
  | Some (_, Ok (_, s')) => s'
  | _ => s
  end.

(** The first scheduling cycle of [example_sim] starts in this state. *)
Definition example_round_state : Simulation := next_event_state (state_after 0 example_sim).

Definition example_round_result : RoundResult :=
  match scheduling_round example_round_state with
  | Ok r => r
  | _ => BreakNoPending
  end.

(** ** Statements about the preemption evaluator *)

(** The resources freed by a set of victims, summed in order from [F0]. *)
Definition freed_from (F0 : ResourceVector) (tau : list Task.t) : ResourceVector :=
  fold_left (fun F task => vadd F (Task.requirements task)) tau F0.

Definition freed_by (s : Simulation) (tau : list Task.t) : ResourceVector :=
  freed_from (zeros_like (R_total s)) tau.

(** The placement inequality [(C_k - F) + D_W <= R_k]. *)
Definition fits_after (n : Node.t) (D_W F : ResourceVector) : bool :=
  vle (vadd (vsub (Node.C_k n) F) D_W) (Node.R_k n).

Definition total_cost (costs : list Q) : Q := fold_left Qplus costs 0.

(** The tasks of the application [P] that run on the node [n], in the
    order of the running map of [n]. *)
Definition victim_tasks_on_node (s : Simulation) (P : Application.t) (n : Node.t)
  : list Task.t :=
  filter (fun task => Z.eqb (Task.app_id task) (Application.id P))
         (flat_map (fun k => match get_task s k with Some x => [x] | None => [] end)
                   (Node.running_tasks n)).

(** The three predicates on a victim set [tau] of total cost [cost]. *)
Definition passes_checks (s : Simulation) (W : Application.t) (D_W : ResourceVector)
    (P : Application.t) (tau : list Task.t) (cost : Q) : Prop :=
  let s_W' := _calculate_s_i s (vadd (Application.U_i W) D_W) in
  let s_P' := _calculate_s_i s (vsub (Application.U_i P) (freed_by s tau)) in
  let gain := Application.s_i P - s_P' in
  s_W' < s_P' /\ EPSILON s < gain /\ cost * BETA s < gain * ALPHA s.

(** [tau], of total cost [cost], is the candidate of the node [n]: the
    first [k >= 1] tasks of the cost-ordered list [l] of the victim
    application's tasks on [n], where [k] is the least length that makes
    the winner's task fit, and the three checks pass. *)
Definition is_node_candidate (s : Simulation) (W : Application.t) (D_W : ResourceVector)
    (P : Application.t) (n : Node.t) (l : list (Q * Task.t)) (k : nat)
    (cost : Q) (tau : list Task.t) : Prop :=
  tasks_with_cost s P n = Ok l /\
  (1 <= k <= length l)%nat /\
  tau = map snd (firstn k l) /\
  cost = total_cost (map fst (firstn k l)) /\
  fits_after n D_W (freed_by s tau) = true /\
  (forall j, (1 <= j < k)%nat ->
             fits_after n D_W (freed_by s (map snd (firstn j l))) = false) /\
  passes_checks s W D_W P tau cost.

(** The list [l] holds the victim application's tasks on [n] with their
    costs, in ascending order of cost. *)
Definition is_cost_ordered (s : Simulation) (P : Application.t) (n : Node.t)
    (l : list (Q * Task.t)) : Prop :=
  StronglySorted (fun x y => fst x <= fst y) l /\
  Permutation (map snd l) (victim_tasks_on_node s P n) /\
  Forall (fun x => _calculate_task_cost s (snd x) = Ok (fst x)) l.

(** [P] has the greatest dominant share among the applications with a
    running task. *)
Definition is_max_share_app (s : Simulation) (P : Application.t) : Prop :=
  In P (apps s) /\ Application.running_tasks P <> [] /\
  forall a, In a (apps s) -> Application.running_tasks a <> [] ->
            Application.s_i a <= Application.s_i P.

(** The cycle of [example_sim] at time 1 starts in this state:
    application 2 has one pending task, which fits nowhere, and
    application 1 runs two tasks on node 1. *)
Definition example_preempt_state : Simulation := next_event_state (state_after 2 example_sim).

Definition example_winner_app : Application.t :=
  match get_app example_preempt_state 2 with
  | Some a => a
  | None => Application.new 2 [] 0
  end.

Definition example_winner_task : Task.t :=
  match get_task example_preempt_state 2 with
  | Some x => x
  | None => Task.new 2 2 [] 0
  end.

Definition example_victim_node : Node.t :=
  match get_node example_preempt_state 1 with
  | Some n => n
  | None => Node.new 1 []
  end.

(** ** A finish event that outlives a preemption

    In [example_sim] task 0 is started at time 0 (its finish event is
    enqueued for time 16), preempted at time 1 and started again on the
    same node at time 6, when the task of application 2 has finished.
    [stale_state] is the state in which the handler of the old finish
    event starts, at time 16. *)
Definition stale_state : Simulation := next_event_state (state_after 5 example_sim).

(** The time of the [k]-th dispatched event and the logs of its cycle. *)
Definition decisions_at (k : nat) (s : Simulation) : option (Q * list (list LogEntry)) :=
  match nth_error (run (S k) s) k with
  | Some (e, Ok (logs, _)) => Some (SimEvent.time e, logs)
  | _ => None
  end.

(** ** Counting rounds and pending tasks *)










(** ** Two runs that differ in the global event counter *)

(** The state, or the event, that arises when the global counter starts
    [d] higher. *)
Definition shift_event (d : nat) (e : SimEvent.t) : SimEvent.t :=
  SimEvent.mk (SimEvent.time e) (SimEvent.counter e + d) (SimEvent.payload e).

Definition shift (d : nat) (s : Simulation) : Simulation :=
  set_event_counter (event_counter s + d)
    (set_event_queue (map (shift_event d) (event_queue s)) s).

Definition outcome_map (A B : Type) (f : A -> B) (o : outcome A) : outcome B :=
  match o with
  | Ok a => Ok (f a)
  | Raise e => Raise e
  | OutOfFuel => OutOfFuel
  end.

(** The shift, on the results of the functions of the simulator. *)
Definition shift_fst (A : Type) (d : nat) (x : Simulation * A) : Simulation * A :=
  (shift d (fst x), snd x).

Definition shift_visit (d : nat) (x : list LogEntry * option Simulation)
  : list LogEntry * option Simulation :=
  (fst x, option_map (shift d) (snd x)).

Definition shift_round (d : nat) (r : RoundResult) : RoundResult :=
  match r with
  | NextRound log s' => NextRound log (shift d s')
  | _ => r
  end.

Definition shift_entry (d : nat)
    (x : SimEvent.t * outcome (list (list LogEntry) * Simulation))
  : SimEvent.t * outcome (list (list LogEntry) * Simulation) :=
  (shift_event d (fst x),
   outcome_map (fun r : list (list LogEntry) * Simulation => (fst r, shift d (snd r)))
               (snd x)).

(** What can be observed of an event and of a state: everything but the
    values of the counters. *)
Definition observe_event (e : SimEvent.t) : Q * Payload :=
  (SimEvent.time e, SimEvent.payload e).

Definition observe_state (s : Simulation)
  : Q * list (Q * Payload) * list Node.t * list Application.t * ResourceVector
    * nat * list nat * list Task.t :=
  (current_time s, map observe_event (event_queue s), nodes s, apps s, R_total s,
   task_id_counter s, all_tasks s, task_objs s).

Definition observe_entry
    (x : SimEvent.t * outcome (list (list LogEntry) * Simulation)) :=
  (observe_event (fst x),
   outcome_map (fun r : list (list LogEntry) * Simulation => (fst r, observe_state (snd r)))
               (snd x)).

Set Warnings "-inexact-float".

(** * The same program over binary64

    The program computes with [float] and numpy [float64].  [F64] is the
    embedding of the same three files with Rocq's primitive binary64
    numbers ([PrimFloat], IEEE 754 round to nearest even): every sum,
    difference, product, quotient and comparison is the one the program
    performs, in the order in which it performs it.  Containers, task
    references, exceptions, fuel and the queue are modelled as above.
    The module is used to run the program on concrete inputs. *)
Module F64.
Local Open Scope float_scope.

(** ** Numbers and resource vectors in binary64 *)

Definition ResourceVector : Type := list float.

Definition vadd (u v : ResourceVector) : ResourceVector := map2 PrimFloat.add u v.
Definition vsub (u v : ResourceVector) : ResourceVector := map2 PrimFloat.sub u v.

(** [np.all(u <= v)] *)
Definition vle (u v : ResourceVector) : bool :=
  forallb (fun b : bool => b) (map2 PrimFloat.leb u v).

(** [np.zeros_like(v)] *)
Definition zeros_like (v : ResourceVector) : ResourceVector := map (fun _ => 0) v.

(** [np.sum(vs, axis=0)]: the rows are added one after the other. *)
Definition np_sum_axis0 (vs : list ResourceVector) : ResourceVector :=
  match vs with
  | [] => []
  | v :: vs' => fold_left vadd vs' v
  end.

Definition fmax (a b : float) : float := if PrimFloat.leb a b then b else a.

(** [np.max(v)]; raises [ValueError] on a zero-size array. *)
Definition np_max (v : list float) : outcome float :=
  match v with
  | [] => Raise ValueError
  | x :: v' => Ok (fold_left fmax v' x)
  end.

(** [u / r] followed by [shares[~np.isfinite(shares)] = 0]: the quotient
    of binary64, replaced by 0 when it is NaN or infinite. *)
Definition share (u r : float) : float :=
  let q := u / r in if PrimFloat.is_finite q then q else 0.

Definition shares (U R : ResourceVector) : list float := map2 share U R.

(** [np.max(shares) if shares.size > 0 else 0.0], the body shared by
    [Application.update_dominant_share] and [Simulation._calculate_s_i]. *)
Definition dominant_share (U R : ResourceVector) : float :=
  match shares U R with
  | [] => 0
  | x :: l => fold_left fmax l x
  end.

(** [max(l, key=...)]: the first element with the greatest key. *)
Section MaxBy.
Variables (A : Type) (key : A -> float).

Definition max_step (best x : A) : A :=
  if PrimFloat.ltb (key best) (key x) then x else best.

Definition max_by (l : list A) : option A :=
  match l with
  | [] => None
  | x :: l' => Some (fold_left max_step l' x)
  end.
End MaxBy.

(** ** data_model.py *)

Module Task.
Record t : Type := mk {
  id : nat;
  app_id : Z;
  requirements : ResourceVector;
  duration : float;
  status : TaskStatus;
  start_time : float;
  node_id : Z
}.

(** The dataclass constructor with its defaults. *)
Definition new (id : nat) (app_id : Z) (requirements : ResourceVector) (duration : float) : t :=
  mk id app_id requirements duration PENDING (-1) (-1).

Definition set_run (st : TaskStatus) (start : float) (node : Z) (x : t) : t :=
  mk (id x) (app_id x) (requirements x) (duration x) st start node.

Definition set_status (st : TaskStatus) (x : t) : t :=
  mk (id x) (app_id x) (requirements x) (duration x) st (start_time x) (node_id x).

Definition elapsed_time (x : t) (current_time : float) : float :=
  if TaskStatus_eqb (status x) RUNNING && PrimFloat.leb 0 (start_time x)
  then current_time - start_time x
  else 0.
End Task.

Module Application.
Record t : Type := mk {
  id : Z;
  proto_requirements : ResourceVector;   (* task_prototype['requirements'] *)
  proto_duration : float;                    (* task_prototype['duration'] *)
  pending_tasks : list nat;
  running_tasks : list nat;
  U_i : ResourceVector;
  s_i : float
}.

(** The dataclass constructor followed by [__post_init__]. *)
Definition new (id : Z) (req : ResourceVector) (dur : float) : t :=
  mk id req dur [] [] (zeros_like req) 0.

Definition set_pending (p : list nat) (a : t) : t :=
  mk (id a) (proto_requirements a) (proto_duration a) p (running_tasks a) (U_i a) (s_i a).
Definition set_running (r : list nat) (a : t) : t :=
  mk (id a) (proto_requirements a) (proto_duration a) (pending_tasks a) r (U_i a) (s_i a).
Definition set_U_i (u : ResourceVector) (a : t) : t :=
  mk (id a) (proto_requirements a) (proto_duration a) (pending_tasks a) (running_tasks a) u (s_i a).
Definition set_s_i (s : float) (a : t) : t :=
  mk (id a) (proto_requirements a) (proto_duration a) (pending_tasks a) (running_tasks a) (U_i a) s.

Definition update_dominant_share (total_cluster_resources : ResourceVector) (a : t) : t :=
  set_s_i (dominant_share (U_i a) total_cluster_resources) a.
End Application.

Module Node.
Record t : Type := mk {
  id : Z;
  R_k : ResourceVector;
  C_k : ResourceVector;
  running_tasks : list nat
}.

Definition new (id : Z) (R_k : ResourceVector) : t := mk id R_k (zeros_like R_k) [].

Definition can_fit (n : t) (task_req : ResourceVector) : bool :=
  vle (vadd (C_k n) task_req) (R_k n).

Definition add_task (n : t) (task : Task.t) : outcome t :=
  if negb (can_fit n (Task.requirements task)) then Raise ValueError
  else Ok (mk (id n) (R_k n) (vadd (C_k n) (Task.requirements task))
              (dict_set (Task.id task) (running_tasks n))).

Definition remove_task (n : t) (task : Task.t) : outcome t :=
  if negb (dict_mem (Task.id task) (running_tasks n)) then Raise ValueError
  else Ok (mk (id n) (R_k n) (vsub (C_k n) (Task.requirements task))
              (dict_del (Task.id task) (running_tasks n))).
End Node.

(** ** event_types.py *)

Module SimEvent.
Record t : Type := mk {
  time : float;
  counter : nat;
  payload : Payload
}.

(** The class default of the [priority] field; no constructor call of
    the program passes another value. *)
Definition priority (e : t) : nat :=
  match payload e with
  | SubmitEvent _ _ => 1
  | TaskFinishEvent _ _ _ => 1
  | SchedulerRunEvent _ => 2
  end.

(** [__lt__] *)
Definition lt (self other : t) : bool :=
  if negb (PrimFloat.eqb (time self) (time other)) then PrimFloat.ltb (time self) (time other)
  else if negb (Nat.eqb (priority self) (priority other))
       then Nat.ltb (priority self) (priority other)
       else Nat.ltb (counter self) (counter other).

Definition is_scheduler_run (e : t) : bool :=
  match payload e with
  | SchedulerRunEvent _ => true
  | _ => false
  end.
End SimEvent.

(** [heapq.heappush] and [heapq.heappop] by their contract: the queue is
    the list of its elements in insertion order, and popping removes the
    least element for [SimEvent.lt] (the earliest one among equals). *)
Definition heappush (q : list SimEvent.t) (e : SimEvent.t) : list SimEvent.t := q ++ [e].

Fixpoint heappop (q : list SimEvent.t) : option (SimEvent.t * list SimEvent.t) :=
  match q with
  | [] => None
  | e :: q' =>
      match heappop q' with
      | None => Some (e, [])
      | Some (m, r) => if SimEvent.lt m e then Some (m, e :: r) else Some (e, q')
      end
  end.

(** ** drf_scheduler.py: the simulator state *)

Record Simulation : Type := mkSimulation {
  current_time : float;
  event_queue : list SimEvent.t;
  nodes : list Node.t;
  apps : list Application.t;
  R_total : ResourceVector;
  task_id_counter : nat;
  all_tasks : list nat;
  ALPHA : float;
  BETA : float;
  EPSILON : float;
  event_counter : nat;          (* the module-level [event_counter] of event_types.py *)
  task_objs : list Task.t       (* the store of task objects *)
}.

Definition set_current_time (t : float) (s : Simulation) : Simulation :=
  mkSimulation t (event_queue s) (nodes s) (apps s) (R_total s) (task_id_counter s)
    (all_tasks s) (ALPHA s) (BETA s) (EPSILON s) (event_counter s) (task_objs s).
Definition set_event_queue (q : list SimEvent.t) (s : Simulation) : Simulation :=
  mkSimulation (current_time s) q (nodes s) (apps s) (R_total s) (task_id_counter s)
    (all_tasks s) (ALPHA s) (BETA s) (EPSILON s) (event_counter s) (task_objs s).
Definition set_nodes (n : list Node.t) (s : Simulation) : Simulation :=
  mkSimulation (current_time s) (event_queue s) n (apps s) (R_total s) (task_id_counter s)
    (all_tasks s) (ALPHA s) (BETA s) (EPSILON s) (event_counter s) (task_objs s).
Definition set_apps (a : list Application.t) (s : Simulation) : Simulation :=
  mkSimulation (current_time s) (event_queue s) (nodes s) a (R_total s) (task_id_counter s)
    (all_tasks s) (ALPHA s) (BETA s) (EPSILON s) (event_counter s) (task_objs s).
Definition set_task_id_counter (c : nat) (s : Simulation) : Simulation :=
  mkSimulation (current_time s) (event_queue s) (nodes s) (apps s) (R_total s) c
    (all_tasks s) (ALPHA s) (BETA s) (EPSILON s) (event_counter s) (task_objs s).
Definition set_all_tasks (m : list nat) (s : Simulation) : Simulation :=
  mkSimulation (current_time s) (event_queue s) (nodes s) (apps s) (R_total s) (task_id_counter s)
    m (ALPHA s) (BETA s) (EPSILON s) (event_counter s) (task_objs s).
Definition set_event_counter (c : nat) (s : Simulation) : Simulation :=
  mkSimulation (current_time s) (event_queue s) (nodes s) (apps s) (R_total s) (task_id_counter s)
    (all_tasks s) (ALPHA s) (BETA s) (EPSILON s) c (task_objs s).
Definition set_task_objs (o : list Task.t) (s : Simulation) : Simulation :=
  mkSimulation (current_time s) (event_queue s) (nodes s) (apps s) (R_total s) (task_id_counter s)
    (all_tasks s) (ALPHA s) (BETA s) (EPSILON s) (event_counter s) o.

(** Reading and mutating the objects held by the state. *)
Definition get_node (s : Simulation) (k : Z) : option Node.t :=
  find (fun n => Z.eqb (Node.id n) k) (nodes s).
Definition get_app (s : Simulation) (k : Z) : option Application.t :=
  find (fun a => Z.eqb (Application.id a) k) (apps s).
Definition get_task (s : Simulation) (k : nat) : option Task.t :=
  find (fun x => Nat.eqb (Task.id x) k) (task_objs s).

Definition update_node (k : Z) (f : Node.t -> Node.t) (s : Simulation) : Simulation :=
  set_nodes (map (fun n => if Z.eqb (Node.id n) k then f n else n) (nodes s)) s.
Definition update_app (k : Z) (f : Application.t -> Application.t) (s : Simulation) : Simulation :=
  set_apps (map (fun a => if Z.eqb (Application.id a) k then f a else a) (apps s)) s.
Definition update_task (k : nat) (f : Task.t -> Task.t) (s : Simulation) : Simulation :=
  set_task_objs (map (fun x => if Nat.eqb (Task.id x) k then f x else x) (task_objs s)) s.

(** An event constructor call ([__post_init__] draws the counter) followed
    by [heapq.heappush(self.event_queue, evt)]. *)
Definition push_event (time : float) (p : Payload) (s : Simulation) : Simulation :=
  set_event_counter (S (event_counter s))
    (set_event_queue (heappush (event_queue s) (SimEvent.mk time (event_counter s) p)) s).

(** [Simulation.__init__]; [counter0] is the value of the global event
    counter when the constructor is called. *)
Definition init (nodes0 : list Node.t) (apps0 : list Application.t)
    (submission_queue : list (float * Z * Z))
    (preemption_alpha preemption_beta preemption_epsilon : float) (counter0 : nat) : Simulation :=
  let s0 := mkSimulation 0 []
              (dict_of_values Node.id nodes0)
              (dict_of_values Application.id apps0)
              (np_sum_axis0 (map Node.R_k nodes0))
              0 [] preemption_alpha preemption_beta preemption_epsilon counter0 [] in
  fold_left (fun s '(time, app_id, num_tasks) => push_event time (SubmitEvent app_id num_tasks) s)
            submission_queue s0.

Definition _calculate_s_i (s : Simulation) (U_vector : ResourceVector) : float :=
  dominant_share U_vector (R_total s).

Definition _calculate_task_cost (s : Simulation) (task : Task.t) : outcome float :=
  let t_p := Task.elapsed_time task (current_time s) in
  if PrimFloat.leb t_p 0 then Ok 0
  else
    max_share <- np_max (shares (Task.requirements task) (R_total s)) ;;
    if PrimFloat.eqb max_share 0 then Ok 0 else Ok (t_p * max_share).

Definition trigger_scheduler_run (allocation_made : bool) (s : Simulation) : Simulation :=
  if negb (existsb (fun e => SimEvent.is_scheduler_run e
                             && PrimFloat.eqb (SimEvent.time e) (current_time s))
                   (event_queue s))
  then push_event (current_time s) (SchedulerRunEvent allocation_made) s
  else s.

(** One iteration of the loop of [handle_submit_event]. *)
Definition submit_one (app_id : Z) (s : Simulation) : outcome Simulation :=
  app <- of_option KeyError (get_app s app_id) ;;
  let task_id := task_id_counter s in
  let new_task := Task.new task_id app_id (Application.proto_requirements app)
                           (Application.proto_duration app) in
  Ok (set_all_tasks (dict_set task_id (all_tasks s))
       (update_app app_id
          (fun a => Application.set_pending (Application.pending_tasks a ++ [task_id]) a)
          (set_task_objs (task_objs s ++ [new_task])
             (set_task_id_counter (S task_id) s)))).

Fixpoint repeatM (n : nat) (f : Simulation -> outcome Simulation) (s : Simulation)
  : outcome Simulation :=
  match n with
  | O => Ok s
  | S n' => s' <- f s ;; repeatM n' f s'
  end.

Definition handle_submit_event (s : Simulation) (app_id num_tasks : Z) : outcome Simulation :=
  _ <- of_option KeyError (get_app s app_id) ;;
  repeatM (Z.to_nat num_tasks) (submit_one app_id) s.

Definition handle_task_finish_event (s : Simulation) (task_id : nat) (app_id node_id : Z)
  : outcome Simulation :=
  if negb (dict_mem task_id (all_tasks s)) then Ok s
  else
    task <- of_option BadRef (get_task s task_id) ;;
    node <- of_option KeyError (get_node s node_id) ;;
    app <- of_option KeyError (get_app s app_id) ;;
    match Node.remove_task node task with
    | Raise ValueError => Ok s                      (* except ValueError *)
    | Raise e => Raise e
    | OutOfFuel => OutOfFuel
    | Ok node' =>
        if negb (dict_mem task_id (Application.running_tasks app)) then Raise KeyError
        else
          Ok (set_all_tasks (dict_del task_id (all_tasks s))
               (update_task task_id (Task.set_status FINISHED)
                  (update_app app_id
                     (fun a => Application.update_dominant_share (R_total s)
                                 (Application.set_running
                                    (dict_del task_id (Application.running_tasks a))
                                    (Application.set_U_i
                                       (vsub (Application.U_i a) (Task.requirements task)) a)))
                     (update_node node_id (fun _ => node') s))))
    end.

Definition find_best_node (s : Simulation) (task_requirements : ResourceVector)
  : option Node.t :=
  find (fun n => Node.can_fit n task_requirements)
       (sorted_by Z.leb Node.id (nodes s)).

(** ** The preemption evaluator, [find_preemption_candidate] *)

(** Steps 5 and 6: the loop that grows [tau_Pk] over the cost-ordered
    tasks until the winner's task fits.  The result is the victim list,
    the freed resources and the total cost at the [break]; [None] stands
    for [found_sufficient_set = False]. *)
Fixpoint build_tau (node : Node.t) (D_W : ResourceVector) (l : list (float * Task.t))
    (tau_Pk : list Task.t) (freed_resources : ResourceVector) (current_total_cost : float)
  : option (list Task.t * ResourceVector * float) :=
  match l with
  | [] => None
  | (cost, task) :: l' =>
      let tau := tau_Pk ++ [task] in
      let freed := vadd freed_resources (Task.requirements task) in
      let total := current_total_cost + cost in
      if vle (vadd (vsub (Node.C_k node) freed) D_W) (Node.R_k node)
      then Some (tau, freed, total)
      else build_tau node D_W l' tau freed total
  end.

(** Steps 3 and 4: the victim application's tasks on the node, with their
    costs, in ascending order of cost. *)
Definition tasks_with_cost (s : Simulation) (victim_app : Application.t) (node : Node.t)
  : outcome (list (float * Task.t)) :=
  on_node <- mapM (fun k => of_option BadRef (get_task s k)) (Node.running_tasks node) ;;
  let victim_tasks_on_node :=
    filter (fun task => Z.eqb (Task.app_id task) (Application.id victim_app)) on_node in
  costed <- mapM (fun task => c <- _calculate_task_cost s task ;; Ok (c, task))
                 victim_tasks_on_node ;;
  Ok (sorted_by PrimFloat.leb fst costed).

(** A candidate is [(total_cost, victim_set, node)]. *)
Definition Candidate : Type := (float * list Task.t * Node.t)%type.

(** The body of the loop over the nodes, steps 3 to 11: the candidate of
    one node, if it has one. *)
Definition node_candidate (s : Simulation) (winner_app : Application.t)
    (D_W : ResourceVector) (victim_app : Application.t) (node : Node.t)
  : outcome (option Candidate) :=
  l <- tasks_with_cost s victim_app node ;;
  match build_tau node D_W l [] (zeros_like (R_total s)) 0 with
  | None => Ok None
  | Some (tau_Pk, freed_resources, current_total_cost) =>
      let U_W_prime := vadd (Application.U_i winner_app) D_W in
      let U_P_prime := vsub (Application.U_i victim_app) freed_resources in
      let s_W_prime := _calculate_s_i s U_W_prime in
      let s_P_prime := _calculate_s_i s U_P_prime in
      if negb (PrimFloat.ltb s_W_prime s_P_prime) then Ok None
      else
        let zysk := Application.s_i victim_app - s_P_prime in
        if negb (PrimFloat.ltb (EPSILON s) zysk) then Ok None
        else
          let koszt := current_total_cost in
          if PrimFloat.ltb (koszt * BETA s) (zysk * ALPHA s)
          then Ok (Some (koszt, tau_Pk, node))
          else Ok None
  end.

(** [if best_candidate is None or candidate[0] < best_candidate[0]] *)
Definition better (best : option Candidate) (candidate : Candidate) : option Candidate :=
  match best with
  | None => Some candidate
  | Some b => if PrimFloat.ltb (fst (fst candidate)) (fst (fst b)) then Some candidate else best
  end.

Fixpoint scan_nodes (s : Simulation) (winner_app : Application.t) (D_W : ResourceVector)
    (victim_app : Application.t) (l : list Node.t) (best_candidate : option Candidate)
  : outcome (option Candidate) :=
  match l with
  | [] => Ok best_candidate
  | node :: l' =>
      c <- node_candidate s winner_app D_W victim_app node ;;
      scan_nodes s winner_app D_W victim_app l'
        (match c with
         | None => best_candidate
         | Some candidate => better best_candidate candidate
         end)
  end.

(** Step 1: the application with the greatest [s_i] among those with a
    running task. *)
Definition select_victim_app (s : Simulation) : option Application.t :=
  max_by Application.s_i
         (filter (fun a => negb (Nat.eqb (length (Application.running_tasks a)) 0)) (apps s)).

Definition find_preemption_candidate (s : Simulation) (winner_app : Application.t)
    (winner_task : Task.t) : outcome (option (list nat * Node.t)) :=
  let s_W := Application.s_i winner_app in
  let D_W := Task.requirements winner_task in
  match select_victim_app s with
  | None => Ok None
  | Some victim_app =>
      let s_P := Application.s_i victim_app in
      if negb (PrimFloat.ltb s_W s_P) then Ok None
      else
        best <- scan_nodes s winner_app D_W victim_app (nodes s) None ;;
        match best with
        | Some (_, victim_set, node) => Ok (Some (map Task.id victim_set, node))
        | None => Ok None
        end
  end.

(** ** The scheduling cycle, [run_scheduler_cycle] *)

(** Starting the head pending task of an application on a node: the lines
    from [task = app.pending_tasks.pop(0)] to the push of the finish
    event, which the direct placement and the placement after a
    preemption have in common. *)
Definition start_head_task (app_id node_id : Z) (s : Simulation) : outcome Simulation :=
  app <- of_option KeyError (get_app s app_id) ;;
  match Application.pending_tasks app with
  | [] => Raise IndexError
  | task_id :: rest =>
      task0 <- of_option BadRef (get_task s task_id) ;;
      let task := Task.set_run RUNNING (current_time s) node_id task0 in
      node <- of_option KeyError (get_node s node_id) ;;
      node' <- Node.add_task node task ;;
      Ok (push_event (current_time s + Task.duration task)
                     (TaskFinishEvent task_id app_id node_id)
           (update_app app_id
              (fun a => Application.update_dominant_share (R_total s)
                          (Application.set_running
                             (dict_set task_id (Application.running_tasks a))
                             (Application.set_U_i
                                (vadd (Application.U_i a) (Task.requirements task))
                                (Application.set_pending rest a))))
              (update_node node_id (fun _ => node')
                 (update_task task_id (fun _ => task) s))))
  end.

(** One iteration of [for ofiara_task in zestaw_ofiar]. *)
Definition preempt_one (victim_app_id node_id : Z) (acc : Simulation * ResourceVector)
    (ofiara : nat) : outcome (Simulation * ResourceVector) :=
  let '(s, zasoby_zwolnione) := acc in
  ofiara_task <- of_option BadRef (get_task s ofiara) ;;
  node <- of_option KeyError (get_node s node_id) ;;
  node' <- Node.remove_task node ofiara_task ;;
  aplikacja_ofiary <- of_option KeyError (get_app s victim_app_id) ;;
  if negb (dict_mem ofiara (Application.running_tasks aplikacja_ofiary)) then Raise KeyError
  else
    Ok (update_app victim_app_id
          (fun a => Application.set_pending (ofiara :: Application.pending_tasks a)
                      (Application.set_running
                         (dict_del ofiara (Application.running_tasks a)) a))
          (update_task ofiara (Task.set_run PENDING (-1) (-1))
             (update_node node_id (fun _ => node') s)),
        vadd zasoby_zwolnione (Task.requirements ofiara_task)).

Fixpoint preempt_all (victim_app_id node_id : Z) (zestaw_ofiar : list nat)
    (acc : Simulation * ResourceVector) : outcome (Simulation * ResourceVector) :=
  match zestaw_ofiar with
  | [] => Ok acc
  | ofiara :: rest =>
      acc' <- preempt_one victim_app_id node_id acc ofiara ;;
      preempt_all victim_app_id node_id rest acc'
  end.

(** The block under [if zestaw_ofiar:], for a victim set with first
    element [first]. *)
Definition apply_preemption (s : Simulation) (app_id : Z) (first : nat)
    (zestaw_ofiar : list nat) (wezel_ofiary : Node.t) : outcome (Z * Simulation) :=
  first_task <- of_option BadRef (get_task s first) ;;
  let victim_app_id := Task.app_id first_task in
  _ <- of_option KeyError (get_app s victim_app_id) ;;
  '(s1, zasoby_zwolnione) <-
     preempt_all victim_app_id (Node.id wezel_ofiary) zestaw_ofiar
                 (s, zeros_like (R_total s)) ;;
  let s2 := update_app victim_app_id
              (fun a => Application.update_dominant_share (R_total s)
                          (Application.set_U_i
                             (vsub (Application.U_i a) zasoby_zwolnione) a)) s1 in
  s3 <- start_head_task app_id (Node.id wezel_ofiary) s2 ;;
  Ok (victim_app_id, s3).

(** The [for app in posortowane_aplikacje] loop of one round.  The state
    does not change before the [break], so the loop variable is read from
    the list; [Some s'] is the state after the allocation that ended the
    loop, [None] means [alokacja_w_rundzie = False]. *)
Fixpoint visit_apps (s : Simulation) (l : list Application.t)
  : outcome (list LogEntry * option Simulation) :=
  match l with
  | [] => Ok ([], None)
  | app :: l' =>
      match Application.pending_tasks app with
      | [] => visit_apps s l'
      | head :: _ =>
          zadanie_do_uruchomienia <- of_option BadRef (get_task s head) ;;
          let D_i := Task.requirements zadanie_do_uruchomienia in
          match find_best_node s D_i with
          | Some wezel_cel =>
              s' <- start_head_task (Application.id app) (Node.id wezel_cel) s ;;
              Ok ([LogAllocation head (Application.id app) (Node.id wezel_cel)], Some s')
          | None =>
              r <- find_preemption_candidate s app zadanie_do_uruchomienia ;;
              match r with
              | Some ((first :: _) as zestaw_ofiar, wezel_ofiary) =>
                  '(victim_app_id, s') <-
                     apply_preemption s (Application.id app) first zestaw_ofiar wezel_ofiary ;;
                  Ok ([LogNoRoom head (Application.id app);
                       LogPreemption zestaw_ofiar victim_app_id (Node.id wezel_ofiary)
                                     head (Application.id app)],
                      Some s')
              | _ =>
                  '(log, r') <- visit_apps s l' ;;
                  Ok (LogNoRoom head (Application.id app)
                        :: LogNoPreemption (Application.id app) :: log, r')
              end
          end
      end
  end.

(** How one pass through the body of [while True] ends. *)
Inductive RoundResult : Type :=
| BreakNoPending                                      (* [if not pending_apps: break] *)
| BreakNoAllocation (log : list LogEntry)             (* [if not alokacja_w_rundzie: break] *)
| NextRound (log : list LogEntry) (s' : Simulation).  (* an allocation was made *)

Definition has_pending (a : Application.t) : bool :=
  negb (Nat.eqb (length (Application.pending_tasks a)) 0).

Definition scheduling_round (s : Simulation) : outcome RoundResult :=
  let pending_apps := filter has_pending (apps s) in
  match pending_apps with
  | [] => Ok BreakNoPending
  | _ =>
      let posortowane_aplikacje := sorted_by PrimFloat.leb Application.s_i pending_apps in
      '(log, r) <- visit_apps s posortowane_aplikacje ;;
      match r with
      | Some s' => Ok (NextRound log s')
      | None => Ok (BreakNoAllocation log)
      end
  end.

(** [run_scheduler_cycle]: the final state and the log of every round, in
    order (the last one is the round that broke out of the loop). *)
Fixpoint run_scheduler_cycle (fuel : nat) (s : Simulation)
  : outcome (Simulation * list (list LogEntry)) :=
  match fuel with
  | O => OutOfFuel
  | S fuel' =>
      r <- scheduling_round s ;;
      match r with
      | BreakNoPending => Ok (s, [[]])
      | BreakNoAllocation log => Ok (s, [log])
      | NextRound log s' =>
          '(s'', logs) <- run_scheduler_cycle fuel' s' ;;
          Ok (s'', log :: logs)
      end
  end.

(** ** The event loop, [run] *)

Definition dispatch (fuel : nat) (event : SimEvent.t) (s : Simulation)
  : outcome (Simulation * list (list LogEntry)) :=
  match SimEvent.payload event with
  | SubmitEvent app_id num_tasks =>
      s' <- handle_submit_event s app_id num_tasks ;; Ok (s', [])
  | TaskFinishEvent task_id app_id node_id =>
      s' <- handle_task_finish_event s task_id app_id node_id ;; Ok (s', [])
  | SchedulerRunEvent _ => run_scheduler_cycle fuel s
  end.

(** The two branches that close the body of the loop of [run]. *)
Definition after_dispatch (event : SimEvent.t) (s : Simulation) : Simulation :=
  match SimEvent.payload event with
  | SchedulerRunEvent false => s
  | _ =>
      if negb (existsb SimEvent.is_scheduler_run (event_queue s))
      then trigger_scheduler_run false s
      else s
  end.

(** One pass through the body of [while self.event_queue]: the event
    popped and the result of handling it; [None] when the queue is empty. *)
Definition step (fuel : nat) (s : Simulation)
  : option (SimEvent.t * outcome (list (list LogEntry) * Simulation)) :=
  match heappop (event_queue s) with
  | None => None
  | Some (event, q) =>
      let s1 := set_current_time (SimEvent.time event) (set_event_queue q s) in
      Some (event,
            '(s2, logs) <- dispatch fuel event s1 ;;
            Ok (logs, after_dispatch event s2))
  end.

(** The loop of [run], for at most [fuel] events: every dispatched event
    with the logs of the cycle it ran and the state it left, in order.
    The trace ends at an empty queue, at an exception, or with the fuel. *)
Fixpoint run_loop (fuel cycle_fuel : nat) (s : Simulation)
  : list (SimEvent.t * outcome (list (list LogEntry) * Simulation)) :=
  match fuel with
  | O => []
  | S fuel' =>
      match step cycle_fuel s with
      | None => []
      | Some (event, r) =>
          (event, r) :: match r with
                        | Ok (_, s') => run_loop fuel' cycle_fuel s'
                        | _ => []
                        end
      end
  end.

Definition run (fuel : nat) (s : Simulation)
  : list (SimEvent.t * outcome (list (list LogEntry) * Simulation)) :=
  run_loop fuel fuel (trigger_scheduler_run false s).

(** ** Runs on concrete inputs *)

(** The state in which the handler of the next event starts, and the
    state left by the [k]-th dispatched event of a run with fuel
    [fuel]. *)
Definition next_event_state (s : Simulation) : Simulation :=
  match heappop (event_queue s) with
  | Some (e, q) => set_current_time (SimEvent.time e) (set_event_queue q s)
  | None => s
  end.

Definition state_after (fuel k : nat) (s : Simulation) : Simulation :=
  match nth_error (run fuel s) k with
  | Some (_, Ok (_, s')) => s'
  | _ => s
  end.

(** The sum of component [r] over a list of vectors, added from the
    left. *)
Definition sum_comp (r : nat) (vs : list ResourceVector) : float :=
  fold_left (fun acc v => acc + nth r v 0) vs 0.

(** In every component the sum of [U_i] over the applications is equal,
    as a binary64 number, to the sum of [C_k] over the nodes. *)
Definition conservation_b (s : Simulation) : bool :=
  forallb (fun r => PrimFloat.eqb (sum_comp r (map Application.U_i (apps s)))
                                  (sum_comp r (map Node.C_k (nodes s))))
          (seq 0 (length (R_total s))).

Definition conserved_after_every_dispatch
    (trace : list (SimEvent.t * outcome (list (list LogEntry) * Simulation))) : Prop :=
  Forall (fun entry => match snd entry with
                       | Ok (_, s') => conservation_b s' = true
                       | _ => True
                       end) trace.

(** The dispatched events of a trace are strictly increasing for
    [__lt__]. *)
Definition dispatched_in_order
    (trace : list (SimEvent.t * outcome (list (list LogEntry) * Simulation))) : Prop :=
  StronglySorted (fun a b => SimEvent.lt a b = true) (map fst trace).

(** One node of capacity 1; application 1 with tasks [0.1] of duration 1
    and application 2 with tasks [0.2] of duration 5, one task each
    submitted at time 0; alpha = 50, beta = 10, epsilon = 0.001. *)
Definition drift_sim : Simulation :=
  init [Node.new 1 [1]]
       [Application.new 1 [0.1] 1; Application.new 2 [0.2] 5]
       [(0, 1%Z, 1%Z); (0, 2%Z, 1%Z)] 50 10 0.001 0.

(** One node of capacity 8; one application with tasks [1] of duration 1,
    one of them submitted at time 1e16. *)
Definition absorb_sim : Simulation :=
  init [Node.new 1 [8]] [Application.new 1 [1] 1] [(1e16, 1%Z, 1%Z)] 50 10 0.001 0.

(** Node 1 of capacity [0.7, 100] and node 2 of capacity [10, 0.5];
    application 1 with tasks [0.1, 10], five of them submitted at time 0;
    application 2 with tasks [0.4, 1], one submitted at time 1; all
    durations 100; alpha = 50, beta = 10, epsilon = 0.001. *)
Definition rounding_nodes : list Node.t := [Node.new 1 [0.7; 100]; Node.new 2 [10; 0.5]].
Definition rounding_apps : list Application.t :=
  [Application.new 1 [0.1; 10] 100; Application.new 2 [0.4; 1] 100].
Definition rounding_sim : Simulation :=
  init rounding_nodes rounding_apps [(0, 1%Z, 5%Z); (1, 2%Z, 1%Z)] 50 10 0.001 0.

(** The cycle at time 1 starts in this state: application 2 has one
    pending task, task 5, and application 1 runs five tasks on node 1. *)
Definition rounding_state : Simulation := next_event_state (state_after 30 2 rounding_sim).

Definition rounding_winner_app : Application.t :=
  match get_app rounding_state 2 with
  | Some a => a
  | None => Application.new 2 [] 0
  end.

Definition rounding_winner_task : Task.t :=
  match get_task rounding_state 5 with
  | Some x => x
  | None => Task.new 5 2 [] 0
  end.

Definition rounding_victim_node : Node.t :=
  match get_node rounding_state 1 with
  | Some n => n
  | None => Node.new 1 []
  end.

End F64.

(** * Properties *)

Unset Implicit Arguments.

(** ** The executable checks are sound *)

Lemma wf_dims_b_ok (s : Simulation) : wf_dims_b s = true -> wf_dims s.
Proof.
  unfold wf_dims_b, wf_dims, dims_ok. rewrite !andb_true_iff, !forallb_forall.
  intros [[H1 H2] H3]. exists (length (R_total s)). split; [reflexivity|]. split; [|split].
  - intros n Hn. specialize (H1 n Hn). rewrite andb_true_iff, !Nat.eqb_eq in H1. exact H1.
  - intros a Ha. specialize (H2 a Ha). rewrite andb_true_iff, !Nat.eqb_eq in H2. exact H2.
  - intros x Hx. specialize (H3 x Hx). now apply Nat.eqb_eq.
Qed.

Lemma distinct_b_ok (l : list Z) : distinct_b l = true -> NoDup l.
Proof.
  induction l as [|x l IH]; simpl; [constructor|].
  rewrite andb_true_iff, negb_true_iff. intros [H1 H2]. constructor; auto.
  intros Hin. assert (E : existsb (Z.eqb x) l = true).
  { apply existsb_exists. exists x. split; auto. apply Z.eqb_refl. }
  congruence.
Qed.

Lemma keys_ok_b_ok (s : Simulation) : keys_ok_b s = true -> keys_ok s.
Proof.
  unfold keys_ok_b, keys_ok. rewrite andb_true_iff. intros [H1 H2].
  split; now apply distinct_b_ok.
Qed.

(** ** Vectors and maxima *)

Lemma length_map2 (A B C : Type) (f : A -> B -> C) (u : list A) (v : list B) :
  length (map2 f u v) = Nat.min (length u) (length v).
Proof.
  revert v; induction u as [|a u IH]; intros [|b v]; simpl; auto.
Qed.

Lemma nth_map2 (A B C : Type) (f : A -> B -> C) (u : list A) (v : list B)
    (r : nat) (da : A) (db : B) (dc : C) :
  (r < length u)%nat -> (r < length v)%nat ->
  nth r (map2 f u v) dc = f (nth r u da) (nth r v db).
Proof.
  revert v r; induction u as [|a u IH]; intros [|b v] [|r]; simpl; intros; try lia; auto.
  apply IH; lia.
Qed.

Lemma qmax_cases (a b : Q) : qmax a b = a \/ qmax a b = b.
Proof. unfold qmax; destruct (Qle_bool a b); auto. Qed.

Lemma qmax_ge_l (a b : Q) : a <= qmax a b.
Proof.
  unfold qmax; destruct (Qle_bool a b) eqn:E.
  - now apply Qle_bool_iff.
  - apply Qle_refl.
Qed.

Lemma qmax_ge_r (a b : Q) : b <= qmax a b.
Proof.
  unfold qmax; destruct (Qle_bool a b) eqn:E.
  - apply Qle_refl.
  - destruct (Qlt_le_dec b a) as [H|H].
    + now apply Qlt_le_weak.
    + apply Qle_bool_iff in H. congruence.
Qed.

Lemma fold_qmax_in (l : list Q) (x : Q) : In (fold_left qmax l x) (x :: l).
Proof.
  revert x; induction l as [|y l IH]; intros x; simpl; auto.
  destruct (IH (qmax x y)) as [H|H]; auto.
  destruct (qmax_cases x y) as [E|E]; rewrite E in *; auto.
Qed.

Lemma fold_qmax_ge_init (l : list Q) (x : Q) : x <= fold_left qmax l x.
Proof.
  revert x; induction l as [|y l IH]; intros x; simpl.
  - apply Qle_refl.
  - eapply Qle_trans; [apply (qmax_ge_l x y) | apply IH].
Qed.

Lemma fold_qmax_ge (l : list Q) (x y : Q) : In y (x :: l) -> y <= fold_left qmax l x.
Proof.
  revert x; induction l as [|z l IH]; intros x [H|H]; simpl in *; subst.
  - apply Qle_refl.
  - contradiction.
  - eapply Qle_trans; [apply (qmax_ge_l y z) | apply fold_qmax_ge_init].
  - destruct H as [H|H].
    + subst. eapply Qle_trans; [apply (qmax_ge_r x y) | apply fold_qmax_ge_init].
    + apply IH. now right.
Qed.

Lemma share_spec (U R : ResourceVector) (r : nat) :
  share (nth r U 0) (nth r R 0) = spec_share U R r.
Proof.
  unfold share, spec_share.
  destruct (Qeq_dec (nth r R 0) 0) as [E|E].
  - apply Qeq_bool_iff in E. now rewrite E.
  - destruct (Qeq_bool (nth r R 0) 0) eqn:B; auto.
    apply Qeq_bool_iff in B. contradiction.
Qed.

Lemma dominant_share_spec (U R : ResourceVector) :
  length U = length R -> is_dominant_share U R (dominant_share U R).
Proof.
  intros HL. unfold is_dominant_share, dominant_share.
  assert (HS : length (shares U R) = length U).
  { unfold shares. rewrite length_map2. lia. }
  assert (HN : forall r, (r < length U)%nat -> nth r (shares U R) 0 = spec_share U R r).
  { intros r Hr. unfold shares. rewrite (@nth_map2 _ _ _ share U R r 0 0 0) by lia.
    apply share_spec. }
  destruct (shares U R) as [|x l] eqn:E; simpl in HS.
  - split; [reflexivity | lia].
  - split; [intros H0; rewrite H0 in HS; discriminate|]. intros _. split.
    + destruct (In_nth (x :: l) (fold_left qmax l x) 0 (fold_qmax_in l x)) as (r & Hr & Hn).
      exists r. simpl in Hr. split; [lia|].
      rewrite <- HN by lia. now rewrite Hn.
    + intros r Hr. rewrite <- HN by lia. apply fold_qmax_ge.
      apply nth_In. simpl. lia.
Qed.

(** C8.  For every usage vector [U] of the cluster's dimension, the
    dominant-share computation [_calculate_s_i] returns 0 in dimension 0
    and otherwise the greatest component of [U / R_total], where a
    component whose divisor is zero (0/0 included) counts as 0; the update
    of an application's [s_i] stores the same value for its [U_i] and
    changes nothing else. *)
Theorem dominant_share_is_max_component (s : Simulation) (U : ResourceVector)
    (a : Application.t) :
  length U = length (R_total s) ->
  length (Application.U_i a) = length (R_total s) ->
  is_dominant_share U (R_total s) (_calculate_s_i s U) /\
  is_dominant_share (Application.U_i a) (R_total s)
    (Application.s_i (Application.update_dominant_share (R_total s) a)) /\
  Application.s_i (Application.update_dominant_share (R_total s) a)
    = _calculate_s_i s (Application.U_i a) /\
  Application.U_i (Application.update_dominant_share (R_total s) a) = Application.U_i a.
Proof.
  intros HU Ha. split; [|split; [|split]].
  - exact (dominant_share_spec _ _ HU).
  - exact (dominant_share_spec _ _ Ha).
  - reflexivity.
  - reflexivity.
Qed.

(** ** The order of events *)

Lemma Qlt_bool_iff (a b : Q) : Qlt_bool a b = true <-> a < b.
Proof.
  unfold Qlt_bool. rewrite negb_true_iff. split.
  - intros H. destruct (Qlt_le_dec a b) as [L|L]; auto.
    apply Qle_bool_iff in L. congruence.
  - intros H. destruct (Qle_bool b a) eqn:E; auto.
    apply Qle_bool_iff in E. exfalso. apply (Qlt_not_le _ _ H E).
Qed.

Lemma Qlt_bool_false (a b : Q) : Qlt_bool a b = false <-> b <= a.
Proof.
  unfold Qlt_bool. rewrite negb_false_iff. apply Qle_bool_iff.
Qed.

Lemma lt_iff_triple_lt (a b : SimEvent.t) : SimEvent.lt a b = true <-> triple_lt a b.
Proof.
  unfold SimEvent.lt, triple_lt.
  destruct (Qeq_bool (SimEvent.time a) (SimEvent.time b)) eqn:Et; simpl.
  - apply Qeq_bool_iff in Et.
    destruct (Nat.eqb (SimEvent.priority a) (SimEvent.priority b)) eqn:Ep; simpl.
    + apply Nat.eqb_eq in Ep. rewrite Nat.ltb_lt. split.
      * intros H. right. split; auto.
      * intros [H|[_ [H|[_ H]]]]; auto; try lia.
        rewrite Et in H. exfalso. apply (Qlt_irrefl _ H).
    + apply Nat.eqb_neq in Ep. rewrite Nat.ltb_lt. split.
      * intros H. right. split; auto.
      * intros [H|[_ [H|[H _]]]]; auto; try contradiction.
        rewrite Et in H. exfalso. apply (Qlt_irrefl _ H).
  - apply Qeq_bool_neq in Et. rewrite Qlt_bool_iff. split.
    + intros H. now left.
    + intros [H|[H _]]; auto. contradiction.
Qed.

Lemma triple_lt_irrefl (a : SimEvent.t) : ~ triple_lt a a.
Proof.
  intros [H|[_ [H|[_ H]]]]; try lia. apply (Qlt_irrefl _ H).
Qed.

Lemma triple_lt_trans (a b c : SimEvent.t) : triple_lt a b -> triple_lt b c -> triple_lt a c.
Proof.
  unfold triple_lt. intros [H1|[E1 H1]] [H2|[E2 H2]].
  - left. eapply Qlt_trans; eauto.
  - left. now rewrite <- E2.
  - left. now rewrite E1.
  - right. split; [now rewrite E1|]. lia.
Qed.

Lemma triple_lt_total (a b : SimEvent.t) :
  SimEvent.counter a <> SimEvent.counter b -> triple_lt a b \/ triple_lt b a.
Proof.
  intros Hc. unfold triple_lt.
  destruct (Q_dec (SimEvent.time a) (SimEvent.time b)) as [[H|H]|H]; auto.
  assert (H' : SimEvent.time b == SimEvent.time a) by (symmetry; exact H).
  destruct (Nat.lt_total (SimEvent.priority a) (SimEvent.priority b)) as [L|[L|L]].
  - left; right; split; auto.
  - destruct (Nat.lt_total (SimEvent.counter a) (SimEvent.counter b)) as [M|[M|M]].
    + left; right; split; auto.
    + contradiction.
    + right; right; split; auto.
  - right; right; split; auto.
Qed.

(** The order is a strict weak order: an element below [c] is below any
    [b] that is not itself below [c]. *)
Lemma triple_lt_cotrans (a b c : SimEvent.t) :
  triple_lt a c -> triple_lt a b \/ triple_lt b c.
Proof.
  unfold triple_lt. intros H.
  destruct (Q_dec (SimEvent.time a) (SimEvent.time b)) as [[Hab|Hab]|Hab]; auto.
  - destruct H as [H|[E H]].
    + right; left. eapply Qlt_trans; eauto.
    + right; left. now rewrite <- E.
  - destruct H as [H|[E H]].
    + right; left. now rewrite <- Hab.
    + assert (Ebc : SimEvent.time b == SimEvent.time c) by (rewrite <- Hab; exact E).
      destruct (Nat.lt_total (SimEvent.priority a) (SimEvent.priority b)) as [L|[L|L]].
      * left; right; split; auto.
      * destruct (Nat.lt_total (SimEvent.counter a) (SimEvent.counter b)) as [M|[M|M]].
        -- left; right; split; auto.
        -- right; right; split; auto. rewrite <- L, <- M. exact H.
        -- right; right; split; auto. lia.
      * right; right; split; auto. lia.
Qed.

(** What [heappop] returns: the least element and the other elements. *)
Lemma heappop_spec (q : list SimEvent.t) (m : SimEvent.t) (r : list SimEvent.t) :
  heappop q = Some (m, r) ->
  Permutation q (m :: r) /\ (forall e, In e r -> ~ triple_lt e m).
Proof.
  revert m r; induction q as [|e q IH]; intros m r H; simpl in H; [discriminate|].
  destruct (heappop q) as [[m' r']|] eqn:E.
  - destruct (IH m' r' eq_refl) as [HP HM].
    destruct (SimEvent.lt m' e) eqn:L; inversion H; subst; clear H.
    + split.
      * rewrite HP. apply perm_swap.
      * intros x [Hx|Hx].
        -- subst x. intros C. apply lt_iff_triple_lt in L.
           apply (triple_lt_irrefl _ (triple_lt_trans _ _ _ L C)).
        -- now apply HM.
    + split; [reflexivity|]. intros x Hx C.
      assert (Hin : In x (m' :: r')) by (eapply Permutation_in; eauto).
      assert (Hm' : ~ triple_lt m' m).
      { intros C'. apply lt_iff_triple_lt in C'. congruence. }
      destruct Hin as [Hx'|Hx'].
      * subst x. contradiction.
      * destruct (triple_lt_cotrans _ m' _ C) as [C'|C']; [|contradiction].
        apply (HM x Hx' C').
  - inversion H; subst; clear H. destruct q as [|e' q].
    + split; [reflexivity|]. intros x [].
    + simpl in E. destruct (heappop q) as [[m' r']|]; [|discriminate].
      destruct (SimEvent.lt m' e'); discriminate.
Qed.

Lemma heappop_none (q : list SimEvent.t) : heappop q = None -> q = [].
Proof.
  destruct q as [|e q]; simpl; auto.
  destruct (heappop q) as [[m r]|]; [|discriminate].
  destruct (SimEvent.lt m e); discriminate.
Qed.

(** ** The queue stays ordered while events are handled *)

Ltac inv_ok H :=
  repeat match type of H with
  | bind ?m _ = Ok _ =>
      let E := fresh "E" in destruct m eqn:E; simpl in H; try discriminate
  | match ?x with _ => _ end = Ok _ =>
      let E := fresh "E" in destruct x eqn:E; simpl in H; try discriminate
  | Ok _ = Ok _ => inversion H; subst; clear H
  end.

Lemma of_option_ok (A : Type) (e : exn) (o : option A) (a : A) :
  of_option e o = Ok a -> o = Some a.
Proof. destruct o; simpl; intros H; inversion H; auto. Qed.

Lemma get_task_in (s : Simulation) (k : nat) (x : Task.t) :
  get_task s k = Some x -> In x (task_objs s) /\ Task.id x = k.
Proof.
  unfold get_task. intros H. apply find_some in H. destruct H as [H1 H2].
  apply Nat.eqb_eq in H2. auto.
Qed.

Lemma get_app_in (s : Simulation) (k : Z) (a : Application.t) :
  get_app s k = Some a -> In a (apps s) /\ Application.id a = k.
Proof.
  unfold get_app. intros H. apply find_some in H. destruct H as [H1 H2].
  apply Z.eqb_eq in H2. auto.
Qed.

Lemma get_node_in (s : Simulation) (k : Z) (n : Node.t) :
  get_node s k = Some n -> In n (nodes s) /\ Node.id n = k.
Proof.
  unfold get_node. intros H. apply find_some in H. destruct H as [H1 H2].
  apply Z.eqb_eq in H2. auto.
Qed.

Lemma queue_ok_push_event (t : Q) (p : Payload) (s : Simulation) :
  queue_ok s -> queue_ok (push_event t p s).
Proof.
  intros (Hq1 & Hq2). unfold push_event, heappush. split; simpl.
  - intros e He. apply in_app_or in He. destruct He as [He|[He|[]]].
    + specialize (Hq1 e He). lia.
    + subst e. simpl. lia.
  - rewrite map_app. simpl.
    apply Permutation_NoDup with (l := event_counter s :: map SimEvent.counter (event_queue s)).
    + apply Permutation_cons_append.
    + constructor; auto. intros C. apply in_map_iff in C. destruct C as (e & E & He).
      specialize (Hq1 e He). lia.
Qed.

Lemma queue_ok_trigger_scheduler_run (b : bool) (s : Simulation) :
  queue_ok s -> queue_ok (trigger_scheduler_run b s).
Proof.
  intros H. unfold trigger_scheduler_run. destruct (negb _); auto.
  now apply queue_ok_push_event.
Qed.

Section OrderedInv.
Variable m : SimEvent.t.

Lemma ordered_update_node (k : Z) (f : Node.t -> Node.t) (s : Simulation) :
  ordered_inv m s -> ordered_inv m (update_node k f s).
Proof. intros H; exact H. Qed.

Lemma ordered_set_all_tasks (l : list nat) (s : Simulation) :
  ordered_inv m s -> ordered_inv m (set_all_tasks l s).
Proof. intros H; exact H. Qed.

Lemma ordered_set_task_id_counter (c : nat) (s : Simulation) :
  ordered_inv m s -> ordered_inv m (set_task_id_counter c s).
Proof. intros H; exact H. Qed.

Lemma ordered_update_app (k : Z) (f : Application.t -> Application.t) (s : Simulation) :
  (forall a, Application.proto_duration (f a) = Application.proto_duration a) ->
  ordered_inv m s -> ordered_inv m (update_app k f s).
Proof.
  intros Hf (Hq & (Hd1 & Hd2) & Hl).
  split; [exact Hq|]. split; [|exact Hl]. split; [exact Hd1|].
  simpl. intros a Ha. apply in_map_iff in Ha. destruct Ha as (a0 & E & Ha0).
  destruct (Z.eqb (Application.id a0) k); subst a; [rewrite Hf|]; auto.
Qed.

Lemma ordered_update_task (k : nat) (f : Task.t -> Task.t) (s : Simulation) :
  (forall x, Task.duration (f x) = Task.duration x) ->
  ordered_inv m s -> ordered_inv m (update_task k f s).
Proof.
  intros Hf (Hq & (Hd1 & Hd2) & Hl).
  split; [exact Hq|]. split; [|exact Hl]. split; [|exact Hd2].
  simpl. intros x Hx. apply in_map_iff in Hx. destruct Hx as (x0 & E & Hx0).
  destruct (Nat.eqb (Task.id x0) k); subst x; [rewrite Hf|]; auto.
Qed.

Lemma ordered_new_task (x : Task.t) (s : Simulation) :
  0 < Task.duration x ->
  ordered_inv m s -> ordered_inv m (set_task_objs (task_objs s ++ [x]) s).
Proof.
  intros Hx (Hq & (Hd1 & Hd2) & Hl).
  split; [exact Hq|]. split; [|exact Hl]. split; [|exact Hd2].
  simpl. intros y Hy. apply in_app_or in Hy. destruct Hy as [Hy|[Hy|[]]]; subst; auto.
Qed.

Lemma ordered_push_event (t : Q) (p : Payload) (s : Simulation) :
  triple_lt m (SimEvent.mk t (event_counter s) p) ->
  ordered_inv m s -> ordered_inv m (push_event t p s).
Proof.
  intros Hm (Hq & Hd & (Hl1 & Hl2 & Hl3)).
  split; [now apply queue_ok_push_event|]. split; [exact Hd|].
  unfold push_event, heappush; repeat split; simpl; auto.
  intros e He. apply in_app_or in He. destruct He as [He|[He|[]]]; subst; auto.
Qed.
End OrderedInv.

Section OrderedHandlers.
Variable m : SimEvent.t.

Lemma ordered_submit_one (app_id : Z) (s s' : Simulation) :
  ordered_inv m s -> submit_one app_id s = Ok s' -> ordered_inv m s'.
Proof.
  intros HI H. unfold submit_one in H. inv_ok H.
  apply of_option_ok, get_app_in in E. destruct E as [Ha _].
  apply ordered_set_all_tasks, ordered_update_app; [reflexivity|].
  apply (ordered_new_task m _ (set_task_id_counter _ s)).
  - simpl. now apply (proj2 (proj1 (proj2 HI))).
  - exact HI.
Qed.

Lemma ordered_repeatM (f : Simulation -> outcome Simulation) (n : nat) :
  (forall s s', ordered_inv m s -> f s = Ok s' -> ordered_inv m s') ->
  forall s s', ordered_inv m s -> repeatM n f s = Ok s' -> ordered_inv m s'.
Proof.
  intros Hf. induction n as [|n IH]; intros s s' HI H; simpl in H.
  - inversion H; subst; auto.
  - inv_ok H. apply (IH a s'); [eapply Hf; eauto | exact H].
Qed.

Lemma ordered_handle_submit_event (app_id num_tasks : Z) (s s' : Simulation) :
  ordered_inv m s -> handle_submit_event s app_id num_tasks = Ok s' -> ordered_inv m s'.
Proof.
  intros HI H. unfold handle_submit_event in H. inv_ok H.
  eapply ordered_repeatM; eauto. intros; eapply ordered_submit_one; eauto.
Qed.

Lemma ordered_handle_task_finish_event (task_id : nat) (app_id node_id : Z)
    (s s' : Simulation) :
  ordered_inv m s -> handle_task_finish_event s task_id app_id node_id = Ok s' ->
  ordered_inv m s'.
Proof.
  intros HI H. unfold handle_task_finish_event in H. inv_ok H; auto.
  apply ordered_set_all_tasks, ordered_update_task; [reflexivity|].
  apply ordered_update_app; [reflexivity|]. now apply ordered_update_node.
Qed.

Lemma ordered_start_head_task (app_id node_id : Z) (s s' : Simulation) :
  ordered_inv m s -> start_head_task app_id node_id s = Ok s' -> ordered_inv m s'.
Proof.
  intros HI H. unfold start_head_task in H. inv_ok H.
  apply of_option_ok, get_task_in in E1. destruct E1 as [Hx _].
  assert (Hd : 0 < Task.duration a0) by (apply (proj1 (proj1 (proj2 HI))); exact Hx).
  assert (HI' : ordered_inv m
            (update_app app_id
               (fun a3 => Application.update_dominant_share (R_total s)
                  (Application.set_running (dict_set n (Application.running_tasks a3))
                     (Application.set_U_i
                        (vadd (Application.U_i a3)
                           (Task.requirements (Task.set_run RUNNING (current_time s) node_id a0)))
                        (Application.set_pending l a3))))
               (update_node node_id (fun _ => a2)
                  (update_task n (fun _ => Task.set_run RUNNING (current_time s) node_id a0) s)))).
  { apply ordered_update_app; [reflexivity|]. apply ordered_update_node.
    destruct HI as (Hq & (Hd1 & Hd2) & Hl).
    split; [exact Hq|]. split; [|exact Hl]. split; [|exact Hd2].
    simpl. intros x Hx'. apply in_map_iff in Hx'. destruct Hx' as (x0 & Ex & Hx0).
    destruct (Nat.eqb (Task.id x0) n); subst x; auto. }
  apply ordered_push_event; [|exact HI'].
  left. simpl. destruct HI as (_ & _ & (Ht & _)). rewrite <- Ht. lra.
Qed.
End OrderedHandlers.

Section OrderedCycle.
Variable m : SimEvent.t.

Lemma ordered_preempt_one (victim_app_id node_id : Z) (s s' : Simulation)
    (z z' : ResourceVector) (ofiara : nat) :
  ordered_inv m s ->
  preempt_one victim_app_id node_id (s, z) ofiara = Ok (s', z') ->
  ordered_inv m s'.
Proof.
  intros HI H. unfold preempt_one in H. inv_ok H.
  apply ordered_update_app; [reflexivity|].
  apply ordered_update_task; [reflexivity|]. now apply ordered_update_node.
Qed.

Lemma ordered_preempt_all (victim_app_id node_id : Z) (l : list nat) :
  forall (s s' : Simulation) (z z' : ResourceVector),
  ordered_inv m s ->
  preempt_all victim_app_id node_id l (s, z) = Ok (s', z') ->
  ordered_inv m s'.
Proof.
  induction l as [|v l IH]; intros s s' z z' HI H; simpl in H.
  - inversion H; subst; auto.
  - inv_ok H. destruct a as [s1 z1].
    apply (IH s1 s' z1 z'); [|exact H].
    eapply ordered_preempt_one; eauto.
Qed.

Lemma ordered_apply_preemption (app_id : Z) (first : nat) (l : list nat)
    (node : Node.t) (s s' : Simulation) (v : Z) :
  ordered_inv m s ->
  apply_preemption s app_id first l node = Ok (v, s') ->
  ordered_inv m s'.
Proof.
  intros HI H. unfold apply_preemption in H. inv_ok H.
  match goal with
  | Hs : start_head_task _ _ _ = Ok _ |- _ => eapply ordered_start_head_task; [|exact Hs]
  end.
  apply ordered_update_app; [reflexivity|].
  eapply ordered_preempt_all; eauto.
Qed.

Lemma ordered_visit_apps (l : list Application.t) :
  forall (s s' : Simulation) (log : list LogEntry),
  ordered_inv m s -> visit_apps s l = Ok (log, Some s') -> ordered_inv m s'.
Proof.
  induction l as [|a l IH]; intros s s' log HI H; simpl in H.
  - inversion H.
  - destruct (Application.pending_tasks a) as [|head rest]; [eapply IH; eauto|].
    destruct (of_option BadRef (get_task s head)) as [task| |]; simpl in H; try discriminate.
    destruct (find_best_node s (Task.requirements task)) as [node|].
    + inv_ok H. eapply ordered_start_head_task; eauto.
    + destruct (find_preemption_candidate s a task) as [r| |]; simpl in H; try discriminate.
      destruct r as [[[|first vs] node]|].
      * inv_ok H. eapply IH; eauto.
      * inv_ok H. eapply ordered_apply_preemption; eauto.
      * inv_ok H. eapply IH; eauto.
Qed.

Lemma ordered_scheduling_round (s s' : Simulation) (log : list LogEntry) :
  ordered_inv m s -> scheduling_round s = Ok (NextRound log s') -> ordered_inv m s'.
Proof.
  intros HI H. unfold scheduling_round in H.
  destruct (filter has_pending (apps s)) as [|a l]; [discriminate|].
  inv_ok H. eapply ordered_visit_apps; eauto.
Qed.

Lemma ordered_run_scheduler_cycle (fuel : nat) :
  forall (s s' : Simulation) (logs : list (list LogEntry)),
  ordered_inv m s -> run_scheduler_cycle fuel s = Ok (s', logs) -> ordered_inv m s'.
Proof.
  induction fuel as [|fuel IH]; intros s s' logs HI H; simpl in H; [discriminate|].
  destruct (scheduling_round s) as [r| |] eqn:E; simpl in H; try discriminate.
  destruct r as [|log|log s1].
  - inversion H; subst; auto.
  - inversion H; subst; auto.
  - inv_ok H. eapply IH; [|exact E0]. eapply ordered_scheduling_round; eauto.
Qed.

Lemma ordered_dispatch (fuel : nat) (e : SimEvent.t) (s s' : Simulation)
    (logs : list (list LogEntry)) :
  ordered_inv m s -> dispatch fuel e s = Ok (s', logs) -> ordered_inv m s'.
Proof.
  intros HI H. unfold dispatch in H. destruct (SimEvent.payload e).
  - inv_ok H. eapply ordered_handle_submit_event; eauto.
  - inv_ok H. eapply ordered_handle_task_finish_event; eauto.
  - eapply ordered_run_scheduler_cycle; eauto.
Qed.

Lemma ordered_trigger_scheduler_run (b : bool) (s : Simulation) :
  ordered_inv m s -> ordered_inv m (trigger_scheduler_run b s).
Proof.
  intros HI. unfold trigger_scheduler_run.
  destruct (negb _); [|exact HI].
  apply ordered_push_event; [|exact HI].
  destruct HI as (_ & _ & (Ht & Hc & _)).
  right. simpl. split; [symmetry; exact Ht|].
  unfold SimEvent.priority at 2. simpl.
  unfold SimEvent.priority. destruct (SimEvent.payload m); simpl; auto.
Qed.

Lemma ordered_after_dispatch (e : SimEvent.t) (s : Simulation) :
  ordered_inv m s -> ordered_inv m (after_dispatch e s).
Proof.
  intros HI. unfold after_dispatch.
  destruct (SimEvent.payload e) as [| |[|]]; auto;
    destruct (negb _); auto; now apply ordered_trigger_scheduler_run.
Qed.
End OrderedCycle.

(** ** The dispatched events come in increasing order *)

Lemma pop_ordered (s : Simulation) (m : SimEvent.t) (r : list SimEvent.t) :
  queue_ok s -> durations_ok s -> heappop (event_queue s) = Some (m, r) ->
  In m (event_queue s) /\
  ordered_inv m (set_current_time (SimEvent.time m) (set_event_queue r s)).
Proof.
  intros (Hq1 & Hq2) Hd H. destruct (heappop_spec _ _ _ H) as [HP HM].
  assert (Hm : In m (event_queue s)).
  { eapply Permutation_in; [symmetry; exact HP | now left]. }
  assert (HN : NoDup (map SimEvent.counter (m :: r))).
  { eapply Permutation_NoDup; [apply Permutation_map; exact HP | exact Hq2]. }
  assert (Hr : forall e, In e r -> In e (event_queue s)).
  { intros e He. eapply Permutation_in; [symmetry; exact HP | now right]. }
  split; [exact Hm|]. split; [|split; [exact Hd|]].
  - split; simpl; auto. now inversion HN.
  - split; [simpl; reflexivity|]. split; [simpl; now apply Hq1|].
    simpl. intros e He. inversion HN as [|? ? Hnin _]; subst.
    destruct (triple_lt_total m e) as [L|L]; auto.
    + intros C. apply Hnin. rewrite C. now apply in_map.
    + exfalso. apply (HM e He L).
Qed.

Lemma step_ordered (cf : nat) (s s' : Simulation) (e : SimEvent.t)
    (logs : list (list LogEntry)) :
  queue_ok s -> durations_ok s -> step cf s = Some (e, Ok (logs, s')) ->
  In e (event_queue s) /\ ordered_inv e s'.
Proof.
  intros Hq Hd H. unfold step in H.
  destruct (heappop (event_queue s)) as [[m r]|] eqn:E; [|discriminate].
  inversion H; subst; clear H.
  destruct (pop_ordered _ _ _ Hq Hd E) as [Hin HI]. split; [exact Hin|].
  match goal with
  | H : bind ?d _ = Ok _ |- _ => destruct d as [[s2 logs2]| |] eqn:Ed; simpl in H;
                                 try discriminate; inversion H; subst; clear H
  end.
  apply ordered_after_dispatch. eapply ordered_dispatch; eauto.
Qed.

Lemma step_event_in_queue (cf : nat) (s : Simulation) (e : SimEvent.t)
    (r : outcome (list (list LogEntry) * Simulation)) :
  step cf s = Some (e, r) -> In e (event_queue s).
Proof.
  unfold step. destruct (heappop (event_queue s)) as [[m q]|] eqn:E; [|discriminate].
  intros H; inversion H; subst.
  destruct (heappop_spec _ _ _ E) as [HP _].
  eapply Permutation_in; [symmetry; exact HP | now left].
Qed.

Lemma run_loop_sorted_from (cf fuel : nat) :
  forall (s : Simulation) (m : SimEvent.t),
  ordered_inv m s ->
  StronglySorted triple_lt (map fst (run_loop fuel cf s)) /\
  Forall (triple_lt m) (map fst (run_loop fuel cf s)).
Proof.
  induction fuel as [|fuel IH]; intros s m HI; simpl; [split; constructor|].
  destruct (step cf s) as [[e r]|] eqn:E; [|split; constructor].
  assert (Hme : triple_lt m e).
  { destruct HI as (_ & _ & (_ & _ & Hl)). apply Hl. eapply step_event_in_queue; eauto. }
  destruct r as [[logs s']| |]; simpl.
  - destruct HI as (Hq & Hd & _).
    destruct (step_ordered _ _ _ _ _ Hq Hd E) as [_ HI'].
    destruct (IH s' e HI') as [HS HF]. split.
    + constructor; auto.
    + constructor; auto. eapply Forall_impl; [|exact HF].
      intros x Hx. eapply triple_lt_trans; eauto.
  - split; [repeat constructor | constructor; [exact Hme | constructor]].
  - split; [repeat constructor | constructor; [exact Hme | constructor]].
Qed.

Lemma run_loop_sorted (cf fuel : nat) (s : Simulation) :
  queue_ok s -> durations_ok s ->
  StronglySorted triple_lt (map fst (run_loop fuel cf s)).
Proof.
  intros Hq Hd. destruct fuel as [|fuel]; simpl; [constructor|].
  destruct (step cf s) as [[e r]|] eqn:E; [|constructor].
  destruct r as [[logs s']| |]; simpl.
  - destruct (step_ordered _ _ _ _ _ Hq Hd E) as [_ HI'].
    destruct (run_loop_sorted_from cf fuel _ _ HI') as [HS HF]. constructor; auto.
  - repeat constructor.
  - repeat constructor.
Qed.

Lemma dict_put_incl (A : Type) (key : A -> Z) (x y : A) (d : list A) :
  In y (dict_put key x d) -> y = x \/ In y d.
Proof.
  induction d as [|z d IH]; simpl.
  - intros [H|[]]; auto.
  - destruct (Z.eqb (key z) (key x)); simpl; intros [H|H]; auto.
    destruct (IH H); auto.
Qed.

Lemma dict_of_values_incl (A : Type) (key : A -> Z) (l : list A) (y : A) :
  In y (dict_of_values key l) -> In y l.
Proof.
  unfold dict_of_values.
  assert (G : forall d, In y (fold_left (fun d x => dict_put key x d) l d) -> In y d \/ In y l).
  { induction l as [|x l IH]; simpl; intros d H; auto.
    destruct (IH _ H) as [H'|H']; auto.
    destruct (dict_put_incl _ _ _ _ _ H'); auto. }
  intros H. destruct (G [] H) as [[]|]; auto.
Qed.

Lemma init_queue_ok (nodes0 : list Node.t) (apps0 : list Application.t)
    (subs : list (Q * Z * Z)) (al be ep : Q) (c0 : nat) :
  queue_ok (init nodes0 apps0 subs al be ep c0).
Proof.
  unfold init.
  match goal with |- queue_ok (fold_left _ _ ?s0) => generalize s0 (conj (fun e (H : In e []) => match H with end) (NoDup_nil nat) : queue_ok s0) end.
  induction subs as [|[[t a] n] subs IH]; simpl; intros s0 H0; auto.
  apply IH. now apply queue_ok_push_event.
Qed.

Lemma init_apps (nodes0 : list Node.t) (apps0 : list Application.t)
    (subs : list (Q * Z * Z)) (al be ep : Q) (c0 : nat) :
  apps (init nodes0 apps0 subs al be ep c0) = dict_of_values Application.id apps0 /\
  task_objs (init nodes0 apps0 subs al be ep c0) = [].
Proof.
  unfold init.
  match goal with |- apps (fold_left ?f _ ?s0) = _ /\ _ =>
    assert (G : forall l s, apps (fold_left f l s) = apps s /\
                            task_objs (fold_left f l s) = task_objs s)
  end.
  { induction l as [|[[t a] n] l IH]; simpl; intros s; auto.
    destruct (IH (push_event t (SubmitEvent a n) s)) as [H1 H2]. rewrite H1, H2. auto. }
  apply G.
Qed.

Lemma StronglySorted_nth_error (A : Type) (R : A -> A -> Prop) (l : list A) :
  StronglySorted R l ->
  forall i j a b, (i < j)%nat -> nth_error l i = Some a -> nth_error l j = Some b -> R a b.
Proof.
  induction 1 as [|x l HS IH HF]; intros i j a b Hij Hi Hj.
  - destruct i; discriminate.
  - destruct j as [|j]; [lia|]. simpl in Hj. destruct i as [|i]; simpl in Hi.
    + inversion Hi; subst. rewrite Forall_forall in HF. apply HF.
      eapply nth_error_In; eauto.
    + eapply IH; [|eauto|eauto]. lia.
Qed.

Lemma init_ordered (nodes0 : list Node.t) (apps0 : list Application.t)
    (subs : list (Q * Z * Z)) (al be ep : Q) (c0 : nat) :
  (forall a, In a apps0 -> 0 < Application.proto_duration a) ->
  queue_ok (trigger_scheduler_run false (init nodes0 apps0 subs al be ep c0)) /\
  durations_ok (trigger_scheduler_run false (init nodes0 apps0 subs al be ep c0)).
Proof.
  intros Hd. split.
  - apply queue_ok_trigger_scheduler_run, init_queue_ok.
  - destruct (init_apps nodes0 apps0 subs al be ep c0) as [Ha Ht].
    assert (G : durations_ok (init nodes0 apps0 subs al be ep c0)).
    { split.
      - rewrite Ht. intros x [].
      - rewrite Ha. intros a Hin. apply Hd. eapply dict_of_values_incl; eauto. }
    unfold trigger_scheduler_run. destruct (negb _); auto.
Qed.

(** C7, amended.  [__lt__] is the strict lexicographic order on
    [(time, priority, counter)] and [heappop] returns an element that
    nothing left in the queue precedes.  When every finish time
    [current_time + duration] is later than [current_time] (durations are
    positive and the sum is exact), the events dispatched by [run] come
    in strictly increasing order of the triple; in particular, of two
    dispatched events with the same time, a [SubmitEvent] or
    [TaskFinishEvent] (priority 1) comes before a [SchedulerRunEvent]
    (priority 2). *)
Theorem events_dispatched_in_triple_order (nodes0 : list Node.t)
    (apps0 : list Application.t) (subs : list (Q * Z * Z)) (al be ep : Q)
    (c0 fuel : nat) :
  (forall a, In a apps0 -> 0 < Application.proto_duration a) ->
  (forall a b, SimEvent.lt a b = true <-> triple_lt a b) /\
  (forall q m r, heappop q = Some (m, r) -> forall e, In e r -> ~ triple_lt e m) /\
  StronglySorted triple_lt (map fst (run fuel (init nodes0 apps0 subs al be ep c0))) /\
  (forall i j ei ej,
      nth_error (map fst (run fuel (init nodes0 apps0 subs al be ep c0))) i = Some ei ->
      nth_error (map fst (run fuel (init nodes0 apps0 subs al be ep c0))) j = Some ej ->
      SimEvent.time ei == SimEvent.time ej ->
      SimEvent.is_scheduler_run ei = false -> SimEvent.is_scheduler_run ej = true ->
      SimEvent.priority ei = 1%nat /\ SimEvent.priority ej = 2%nat /\ (i < j)%nat).
Proof.
  intros Hd.
  assert (HS : StronglySorted triple_lt
                 (map fst (run fuel (init nodes0 apps0 subs al be ep c0)))).
  { destruct (init_ordered nodes0 apps0 subs al be ep c0 Hd) as [Hq Hdur].
    unfold run. now apply run_loop_sorted. }
  split; [exact lt_iff_triple_lt|]. split; [|split; [exact HS|]].
  - intros q m r H. apply (heappop_spec q m r H).
  - intros i j ei ej Hi Hj Ht Hei Hej.
    assert (P1 : SimEvent.priority ei = 1%nat).
    { unfold SimEvent.priority, SimEvent.is_scheduler_run in *.
      destruct (SimEvent.payload ei); auto; discriminate. }
    assert (P2 : SimEvent.priority ej = 2%nat).
    { unfold SimEvent.priority, SimEvent.is_scheduler_run in *.
      destruct (SimEvent.payload ej); auto; discriminate. }
    split; [exact P1|]. split; [exact P2|].
    destruct (Nat.lt_total i j) as [L|[L|L]]; auto.
    + subst j. rewrite Hi in Hj. inversion Hj; subst. congruence.
    + pose proof (StronglySorted_nth_error _ _ _ HS j i ej ei L Hj Hi) as C.
      destruct C as [C|[_ [C|[C _]]]]; try lia.
      rewrite Ht in C. exfalso. apply (Qlt_irrefl _ C).
Qed.

Lemma events_dispatched_in_triple_order_witness :
  StronglySorted triple_lt (map fst (run 40 example_sim)).
Proof.
  refine (proj1 (proj2 (proj2
    (events_dispatched_in_triple_order example_nodes example_apps example_submissions
       2 1 (1 # 1000) 0 40 _)))).
  intros a [H|[H|[]]]; subst a; reflexivity.
Defined.

(** ** Sorting and selecting *)

Section SortedBy.
Variables (A K : Type) (leb : K -> K -> bool) (key : A -> K).
Hypothesis leb_total : forall a b, leb a b = true \/ leb b a = true.
Hypothesis leb_trans : forall a b c, leb a b = true -> leb b c = true -> leb a c = true.

Lemma insert_by_perm (x : A) (l : list A) : Permutation (insert_by leb key x l) (x :: l).
Proof.
  induction l as [|y l IH]; simpl; auto.
  destruct (leb (key x) (key y)); auto.
  rewrite IH. apply perm_swap.
Qed.

Lemma sorted_by_perm (l : list A) : Permutation (sorted_by leb key l) l.
Proof.
  induction l as [|x l IH]; simpl; auto.
  rewrite insert_by_perm. now constructor.
Qed.

Lemma insert_by_sorted (x : A) (l : list A) :
  StronglySorted (key_le leb key) l -> StronglySorted (key_le leb key) (insert_by leb key x l).
Proof.
  induction 1 as [|y l HS IH HF]; simpl.
  - repeat constructor.
  - destruct (leb (key x) (key y)) eqn:E.
    + constructor; [constructor; auto|]. constructor; auto.
      eapply Forall_impl; [|exact HF]. intros z Hz. unfold key_le in *. eauto.
    + constructor; auto.
      eapply Permutation_Forall; [symmetry; apply insert_by_perm|].
      constructor; auto. unfold key_le.
      destruct (leb_total (key x) (key y)); congruence.
Qed.

Lemma sorted_by_sorted (l : list A) : StronglySorted (key_le leb key) (sorted_by leb key l).
Proof.
  induction l as [|x l IH]; simpl; [constructor|]. now apply insert_by_sorted.
Qed.

(** The first element with a property in a sorted list has the least
    key among the elements with the property. *)
Lemma find_sorted_least (f : A -> bool) (l : list A) (x : A) :
  StronglySorted (key_le leb key) l -> (forall a, key_le leb key a a) -> find f l = Some x ->
  In x l /\ f x = true /\ forall y, In y l -> f y = true -> key_le leb key x y.
Proof.
  intros HS Hrefl. induction HS as [|z l HS IH HF]; simpl; [discriminate|].
  destruct (f z) eqn:E.
  - intros H; inversion H; subst. split; [now left|]. split; auto.
    intros y [Hy|Hy] _; [subst; apply Hrefl|].
    rewrite Forall_forall in HF. now apply HF.
  - intros H. destruct (IH H) as (H1 & H2 & H3). split; [now right|]. split; auto.
    intros y [Hy|Hy] Hfy; [subst; congruence|]. now apply H3.
Qed.
End SortedBy.

Lemma find_best_node_some (s : Simulation) (req : ResourceVector) (n : Node.t) :
  find_best_node s req = Some n ->
  In n (nodes s) /\ Node.can_fit n req = true /\
  forall n', In n' (nodes s) -> Node.can_fit n' req = true -> (Node.id n <= Node.id n')%Z.
Proof.
  unfold find_best_node. intros H.
  destruct (find_sorted_least _ _ Z.leb Node.id (fun n => Node.can_fit n req)
              (sorted_by Z.leb Node.id (nodes s)) n) as (H1 & H2 & H3); auto.
  - apply sorted_by_sorted.
    + intros a b. rewrite !Z.leb_le. lia.
    + intros a b c. rewrite !Z.leb_le. lia.
  - intros a. unfold key_le. apply Z.leb_refl.
  - split; [|split; auto].
    + eapply Permutation_in; [apply sorted_by_perm | exact H1].
    + intros n' Hn' Hf. apply Z.leb_le. apply H3; auto.
      eapply Permutation_in; [symmetry; apply sorted_by_perm | exact Hn'].
Qed.

Lemma find_best_node_none (s : Simulation) (req : ResourceVector) :
  find_best_node s req = None ->
  forall n', In n' (nodes s) -> Node.can_fit n' req = false.
Proof.
  unfold find_best_node. intros H n' Hn'.
  apply (find_none _ _ H).
  eapply Permutation_in; [symmetry; apply sorted_by_perm | exact Hn'].
Qed.

(** ** First fit before preemption *)

Lemma find_update_same (A : Type) (key : A -> Z) (k : Z) (y : A) (l : list A) (x : A) :
  find (fun a => Z.eqb (key a) k) l = Some x -> key y = k ->
  find (fun a => Z.eqb (key a) k) (map (fun a => if Z.eqb (key a) k then y else a) l) = Some y.
Proof.
  intros H Hy. induction l as [|z l IH]; simpl in *; [discriminate|].
  destruct (Z.eqb (key z) k) eqn:E.
  - rewrite Hy, Z.eqb_refl. reflexivity.
  - rewrite E. auto.
Qed.

Lemma find_update_fun (A : Type) (key : A -> Z) (k : Z) (f : A -> A) (l : list A) (x : A) :
  find (fun a => Z.eqb (key a) k) l = Some x -> key (f x) = k ->
  find (fun a => Z.eqb (key a) k) (map (fun a => if Z.eqb (key a) k then f a else a) l)
  = Some (f x).
Proof.
  intros H Hy. induction l as [|z l IH]; simpl in *; [discriminate|].
  destruct (Z.eqb (key z) k) eqn:E.
  - inversion H; subst z. rewrite Hy, Z.eqb_refl. reflexivity.
  - rewrite E. auto.
Qed.

Lemma dict_mem_in (k : nat) (d : list nat) : dict_mem k d = true <-> In k d.
Proof.
  unfold dict_mem. rewrite existsb_exists. split.
  - intros (x & Hx & E). apply Nat.eqb_eq in E. now subst.
  - intros H. exists k. split; auto. apply Nat.eqb_refl.
Qed.

Lemma dict_set_in (k : nat) (d : list nat) : In k (dict_set k d).
Proof.
  unfold dict_set. destruct (dict_mem k d) eqn:E.
  - now apply dict_mem_in.
  - apply in_or_app. right. now left.
Qed.

Lemma start_head_task_places (a n : Z) (s s' : Simulation) (t : nat) (app : Application.t) :
  get_app s a = Some app -> hd_error (Application.pending_tasks app) = Some t ->
  start_head_task a n s = Ok s' ->
  exists node', get_node s' n = Some node' /\ In t (Node.running_tasks node').
Proof.
  intros Ha Ht H. unfold start_head_task in H. rewrite Ha in H. simpl in H.
  destruct (Application.pending_tasks app) as [|t0 rest]; [discriminate|].
  simpl in Ht. inversion Ht; subst t0; clear Ht.
  destruct (get_task s t) as [task0|] eqn:Et; simpl in H; [|discriminate].
  destruct (get_node s n) as [node|] eqn:En; simpl in H; [|discriminate].
  unfold Node.add_task in H. destruct (negb _); simpl in H; [discriminate|].
  inversion H; subst; clear H.
  eexists. split.
  - unfold get_node. simpl. apply find_update_same with (x := node); [exact En|].
    simpl. apply (get_node_in s n node En).
  - simpl. rewrite (proj2 (get_task_in s t task0 Et)). apply dict_set_in.
Qed.

Lemma visit_apps_justified (s : Simulation) (l : list Application.t) :
  (forall app, In app l -> In app (apps s) /\ get_app s (Application.id app) = Some app) ->
  forall log r, visit_apps s l = Ok (log, r) ->
  Forall (entry_justified s) log /\
  (forall t a n, In (LogAllocation t a n) log ->
     exists s' node', r = Some s' /\ get_node s' n = Some node' /\
                      In t (Node.running_tasks node')).
Proof.
  induction l as [|app l IH]; intros Hl log r H; simpl in H.
  - inversion H; subst. split; [constructor | intros t a n []].
  - assert (Hl' : forall app0, In app0 l ->
                    In app0 (apps s) /\ get_app s (Application.id app0) = Some app0).
    { intros app0 H0. apply Hl. now right. }
    destruct (Hl app (or_introl eq_refl)) as [Happ Hget].
    destruct (Application.pending_tasks app) as [|head rest] eqn:Ep; [now apply IH|].
    destruct (get_task s head) as [task|] eqn:Et; simpl in H; [|discriminate].
    assert (Hhead : head_task s (Application.id app) head task).
    { exists app. rewrite Ep. auto. }
    destruct (find_best_node s (Task.requirements task)) as [node|] eqn:Ef.
    + destruct (start_head_task (Application.id app) (Node.id node) s) as [s'| |] eqn:Es;
        simpl in H; try discriminate.
      inversion H; subst; clear H. split.
      * constructor; [|constructor]. exists task, node. split; [exact Hhead|].
        split; [|reflexivity]. apply find_best_node_some. exact Ef.
      * intros t a n [Hin|[]]. inversion Hin; subst.
        destruct (start_head_task_places (Application.id app) (Node.id node) s s' t app Hget)
          as (node' & H1 & H2); auto.
        { rewrite Ep. reflexivity. }
        exists s', node'. auto.
    + pose proof (find_best_node_none s _ Ef) as Hnone.
      assert (Hnr : entry_justified s (LogNoRoom head (Application.id app))).
      { exists task. split; auto. }
      destruct (find_preemption_candidate s app task) as [c| |]; simpl in H; try discriminate.
      assert (Hrest : forall log' r', visit_apps s l = Ok (log', r') ->
                Forall (entry_justified s)
                  (LogNoRoom head (Application.id app)
                     :: LogNoPreemption (Application.id app) :: log') /\
                (forall t a n,
                   In (LogAllocation t a n)
                      (LogNoRoom head (Application.id app)
                         :: LogNoPreemption (Application.id app) :: log') ->
                   exists s' node', r' = Some s' /\ get_node s' n = Some node' /\
                                    In t (Node.running_tasks node'))).
      { intros log' r' Hv. destruct (IH Hl' log' r' Hv) as [F1 F2]. split.
        - constructor; [exact Hnr|]. constructor; [exact I|]. exact F1.
        - intros t a n [Hin|[Hin|Hin]]; try discriminate. apply (F2 t a n Hin). }
      destruct c as [[[|first vs] node]|].
      * destruct (visit_apps s l) as [[log' r']| |]; simpl in H; try discriminate.
        inversion H; subst; clear H. apply Hrest. reflexivity.
      * destruct (apply_preemption s (Application.id app) first (first :: vs) node)
          as [[v s']| |]; simpl in H; try discriminate.
        inversion H; subst; clear H. split.
        -- constructor; [exact Hnr|]. constructor; [|constructor].
           exists task. split; auto.
        -- intros t a n [Hin|[Hin|[]]]; discriminate.
      * destruct (visit_apps s l) as [[log' r']| |]; simpl in H; try discriminate.
        inversion H; subst; clear H. apply Hrest. reflexivity.
Qed.

Lemma find_unique_key (A : Type) (key : A -> Z) (l : list A) (x : A) :
  NoDup (map key l) -> In x l -> find (fun a => Z.eqb (key a) (key x)) l = Some x.
Proof.
  induction l as [|y l IH]; simpl; intros HN H; [contradiction|].
  destruct H as [H|H].
  - subst. now rewrite Z.eqb_refl.
  - inversion HN as [|? ? Hnin HN']; subst.
    destruct (Z.eqb (key y) (key x)) eqn:E; [|auto].
    apply Z.eqb_eq in E. exfalso. apply Hnin. rewrite E. now apply in_map.
Qed.

Lemma visit_outcome_later (s : Simulation) (log : list LogEntry) (st : option Simulation)
    (a : Z) (h : nat) (app : Application.t) :
  Application.id app <> a ->
  visit_outcome s log st app ->
  visit_outcome s (LogNoRoom h a :: LogNoPreemption a :: log) st app.
Proof.
  intros Hne (head & rest & task & Ep & Et & Hfit & Hno).
  exists head, rest, task. split; [exact Ep|]. split; [exact Et|]. split.
  - intros Hf. destruct (Hfit Hf) as (node & s' & node' & H1 & H2 & H3 & H4 & H5 & H6).
    exists node, s', node'. split; [exact H1|]. split; [right; right; exact H2|].
    split; [exact H3|]. split; [exact H4|]. split; [exact H5|].
    intros [E|[E|E]]; [inversion E; congruence | discriminate | exact (H6 E)].
  - intros Hn. right. right. exact (Hno Hn).
Qed.

Lemma visit_apps_visits (s : Simulation) (l : list Application.t) :
  NoDup (map Application.id l) ->
  (forall app, In app l -> Application.pending_tasks app <> [] /\
                           get_app s (Application.id app) = Some app) ->
  forall log r, visit_apps s l = Ok (log, r) ->
  exists visited unvisited,
    l = visited ++ unvisited /\
    Forall (visit_outcome s log r) visited /\
    visit_ends log r visited unvisited.
Proof.
  induction l as [|app l IH]; intros HN Hl log r H; simpl in H.
  - inversion H; subst. exists [], []. split; [reflexivity|]. split; [constructor|].
    reflexivity.
  - inversion HN as [|? ? Hnin HN']; subst.
    assert (Hl' : forall app0, In app0 l -> Application.pending_tasks app0 <> [] /\
                                              get_app s (Application.id app0) = Some app0).
    { intros app0 H0. apply Hl. now right. }
    destruct (Hl app (or_introl eq_refl)) as [Hpend Hget].
    destruct (Application.pending_tasks app) as [|head rest] eqn:Ep; [now contradiction Hpend|].
    destruct (get_task s head) as [task|] eqn:Et; simpl in H; [|discriminate].
    destruct (find_best_node s (Task.requirements task)) as [node|] eqn:Ef.
    + destruct (start_head_task (Application.id app) (Node.id node) s) as [s'| |] eqn:Es;
        simpl in H; try discriminate.
      inversion H; subst; clear H.
      exists [app], l. split; [reflexivity|].
      split; [|exists [], app, (LogAllocation head (Application.id app) (Node.id node));
                split; [reflexivity|]; split; [now left | reflexivity]].
      constructor; [|constructor]. exists head, rest, task.
      split; [exact Ep|]. split; [exact Et|]. split.
      * intros _.
        destruct (start_head_task_places (Application.id app) (Node.id node) s s' head app Hget)
          as (node' & H1 & H2); auto.
        { rewrite Ep. reflexivity. }
        exists node, s', node'. split; [now apply find_best_node_some|].
        split; [now left|]. split; [reflexivity|]. split; [exact H1|]. split; [exact H2|].
        intros [E|[]]. discriminate.
      * intros Hno. destruct (find_best_node_some s _ node Ef) as (Hin & Hfit & _).
        rewrite (Hno node Hin) in Hfit. discriminate.
    + pose proof (find_best_node_none s _ Ef) as Hnone.
      assert (Hme : forall log' st,
                 visit_outcome s (LogNoRoom head (Application.id app) :: log') st app).
      { intros log' st. exists head, rest, task. split; [exact Ep|]. split; [exact Et|]. split.
        - intros (n & Hin & Hfit). rewrite (Hnone n Hin) in Hfit. discriminate.
        - intros _. now left. }
      destruct (find_preemption_candidate s app task) as [c| |]; simpl in H; try discriminate.
      assert (Hrest : forall log' r', visit_apps s l = Ok (log', r') ->
                exists visited unvisited,
                  app :: l = visited ++ unvisited /\
                  Forall (visit_outcome s (LogNoRoom head (Application.id app)
                                             :: LogNoPreemption (Application.id app) :: log') r')
                         visited /\
                  visit_ends (LogNoRoom head (Application.id app)
                                :: LogNoPreemption (Application.id app) :: log') r'
                             visited unvisited).
      { intros log' r' Hv. destruct (IH HN' Hl' log' r' Hv) as (vis & unvis & E & F & Hu).
        exists (app :: vis), unvis. split; [simpl; now rewrite E|]. split.
        2:{ destruct r' as [s'|]; simpl in *; [|exact Hu].
            destruct Hu as (before & a' & e & E1 & E2 & E3).
            exists (app :: before), a', e. split; [simpl; now rewrite E1|].
            split; [right; right; exact E2 | exact E3]. }
        constructor; [apply Hme|].
        rewrite Forall_forall in *. intros o Ho. apply visit_outcome_later; [|now apply F].
        intros Eid. apply Hnin. rewrite <- Eid. apply in_map. rewrite E.
        apply in_or_app. now left. }
      destruct c as [[[|first vs] node]|].
      * destruct (visit_apps s l) as [[log' r']| |]; simpl in H; try discriminate.
        inversion H; subst; clear H. apply Hrest. reflexivity.
      * destruct (apply_preemption s (Application.id app) first (first :: vs) node)
          as [[v s']| |]; simpl in H; try discriminate.
        inversion H; subst; clear H.
        exists [app], l. split; [reflexivity|].
        split; [|exists [], app,
                   (LogPreemption (first :: vs) v (Node.id node) head (Application.id app));
                  split; [reflexivity|]; split; [right; now left | reflexivity]].
        constructor; [apply Hme | constructor].
      * destruct (visit_apps s l) as [[log' r']| |]; simpl in H; try discriminate.
        inversion H; subst; clear H. apply Hrest. reflexivity.
Qed.

Lemma has_pending_nonempty (a : Application.t) :
  has_pending a = true -> Application.pending_tasks a <> [].
Proof.
  unfold has_pending. destruct (Application.pending_tasks a); [discriminate|]. discriminate.
Qed.

Lemma pending_apps_known (s : Simulation) (app : Application.t) :
  NoDup (map Application.id (apps s)) ->
  In app (sorted_by Qle_bool Application.s_i (filter has_pending (apps s))) ->
  In app (apps s) /\ Application.pending_tasks app <> [] /\
  get_app s (Application.id app) = Some app.
Proof.
  intros HN Hin.
  apply (Permutation_in _ (sorted_by_perm _ _ Qle_bool Application.s_i _)) in Hin.
  apply filter_In in Hin. destruct Hin as [Hin Hp].
  split; [exact Hin|]. split; [now apply has_pending_nonempty|].
  unfold get_app. now apply find_unique_key.
Qed.

Lemma pending_apps_distinct (s : Simulation) :
  NoDup (map Application.id (apps s)) ->
  NoDup (map Application.id (sorted_by Qle_bool Application.s_i (filter has_pending (apps s)))).
Proof.
  intros HN.
  apply (Permutation_NoDup (l := map Application.id (filter has_pending (apps s)))).
  - apply Permutation_map. symmetry. apply sorted_by_perm.
  - clear -HN. induction (apps s) as [|a l IH]; simpl; [constructor|].
    inversion HN as [|? ? Hnin HN']; subst.
    destruct (has_pending a); simpl; [|auto].
    constructor; [|auto]. intros Hin. apply Hnin.
    apply in_map_iff in Hin. destruct Hin as (x & E & Hx). apply filter_In in Hx.
    rewrite <- E. apply in_map. tauto.
Qed.

(** Starting the head task on a node that fits it does not raise. *)
Lemma start_head_task_total (s : Simulation) (app : Application.t) (node : Node.t)
    (head : nat) (rest : list nat) (task : Task.t) :
  get_app s (Application.id app) = Some app ->
  get_node s (Node.id node) = Some node ->
  Application.pending_tasks app = head :: rest ->
  get_task s head = Some task ->
  Node.can_fit node (Task.requirements task) = true ->
  exists s', start_head_task (Application.id app) (Node.id node) s = Ok s'.
Proof.
  intros Ha En Ep Et Hfit. unfold start_head_task.
  rewrite Ha. simpl. rewrite Ep, Et. simpl. rewrite En. simpl.
  unfold Node.add_task. simpl. rewrite Hfit. simpl. eexists. reflexivity.
Qed.

(** C5.  In a round, the applications with pending tasks are visited in
    ascending order of [s_i], all of them when the round makes no
    allocation and otherwise up to the one that is served.  For each
    visited application: when some node fits its head
    pending task, the task is allocated to the node with the smallest id
    among the nodes that fit it and is then in the running map of that
    node, and the evaluator is not called for it; the line printed before
    a call of the evaluator appears only for a head task that no node
    fits, and appears for every visited head task that no node fits.
    When the head task of the first application in that order fits some
    node, the round does not raise and consists of that allocation. *)
Theorem first_fit_before_preemption (s : Simulation) :
  NoDup (map Application.id (apps s)) ->
  NoDup (map Node.id (nodes s)) ->
  (forall res, scheduling_round s = Ok res ->
     Forall (entry_justified s) (round_log res) /\
     (forall t a n, In (LogAllocation t a n) (round_log res) ->
        exists s' node', round_state res = Some s' /\ get_node s' n = Some node' /\
                         In t (Node.running_tasks node')) /\
     exists visited unvisited,
       sorted_by Qle_bool Application.s_i (filter has_pending (apps s)) = visited ++ unvisited /\
       Forall (visit_outcome s (round_log res) (round_state res)) visited /\
       visit_ends (round_log res) (round_state res) visited unvisited) /\
  (forall app l head rest task,
     sorted_by Qle_bool Application.s_i (filter has_pending (apps s)) = app :: l ->
     Application.pending_tasks app = head :: rest ->
     get_task s head = Some task ->
     fits_somewhere s (Task.requirements task) ->
     exists node s',
       least_fitting_node s (Task.requirements task) node /\
       scheduling_round s
       = Ok (NextRound [LogAllocation head (Application.id app) (Node.id node)] s')).
Proof.
  intros HN HNn. split.
  - intros res H. unfold scheduling_round in H.
    destruct (filter has_pending (apps s)) as [|a0 l0] eqn:Ef.
    + inversion H; subst. split; [constructor|]. split; [intros t a n []|].
      exists [], []. simpl. split; [reflexivity|]. split; [constructor | reflexivity].
    + rewrite <- Ef in H.
      destruct (visit_apps s (sorted_by Qle_bool Application.s_i (filter has_pending (apps s))))
        as [[log r]| |] eqn:Ev; simpl in H; try discriminate.
      assert (Hl : forall app,
                 In app (sorted_by Qle_bool Application.s_i (filter has_pending (apps s))) ->
                 In app (apps s) /\ get_app s (Application.id app) = Some app).
      { intros app Hin. destruct (pending_apps_known s app HN Hin) as (H1 & _ & H3). auto. }
      assert (Hl2 : forall app,
                 In app (sorted_by Qle_bool Application.s_i (filter has_pending (apps s))) ->
                 Application.pending_tasks app <> [] /\
                 get_app s (Application.id app) = Some app).
      { intros app Hin. destruct (pending_apps_known s app HN Hin) as (_ & H2 & H3). auto. }
      destruct (visit_apps_justified s _ Hl log r Ev) as [F1 F2].
      pose proof (visit_apps_visits s _ (pending_apps_distinct s HN) Hl2 log r Ev) as F3.
      rewrite Ef in F3.
      destruct r as [s'|]; inversion H; subst; simpl; auto.
  - intros app l head rest task Es Ep Et (n & Hn & Hfit).
    assert (Hin : In app (sorted_by Qle_bool Application.s_i (filter has_pending (apps s)))).
    { rewrite Es. now left. }
    destruct (pending_apps_known s app HN Hin) as (_ & _ & Hget).
    destruct (find_best_node s (Task.requirements task)) as [node|] eqn:Ef.
    2:{ rewrite (find_best_node_none s _ Ef n Hn) in Hfit. discriminate. }
    destruct (find_best_node_some s _ node Ef) as (Hnin & Hnfit & Hleast).
    assert (En : get_node s (Node.id node) = Some node).
    { unfold get_node. now apply find_unique_key. }
    destruct (start_head_task_total s app node head rest task Hget En Ep Et Hnfit) as [s' Hs].
    exists node, s'. split; [repeat split; assumption|].
    unfold scheduling_round.
    destruct (filter has_pending (apps s)) as [|a0 l0] eqn:Efl; [discriminate Es|].
    rewrite Es. simpl. rewrite Ep, Et. simpl. rewrite Ef, Hs. reflexivity.
Qed.

Lemma first_fit_before_preemption_witness :
  Forall (entry_justified example_round_state) (round_log example_round_result) /\
  exists node s',
    least_fitting_node example_round_state [1; 8] node /\
    scheduling_round example_round_state
    = Ok (NextRound [LogAllocation 0 1 (Node.id node)] s').
Proof.
  pose proof (first_fit_before_preemption example_round_state) as H.
  destruct H as [HA HB].
  - apply distinct_b_ok. vm_compute. reflexivity.
  - apply distinct_b_ok. vm_compute. reflexivity.
  - split.
    + refine (proj1 (HA example_round_result _)). vm_compute. reflexivity.
    + refine (HB (Application.mk 1 [1; 8] 16 [0%nat; 1%nat] [] [0; 0] 0) []
                 0%nat [1%nat] (Task.new 0 1 [1; 8] 16) _ _ _ _).
      * vm_compute. reflexivity.
      * reflexivity.
      * vm_compute. reflexivity.
      * exists (Node.new 1 [8; 16]). split; [now left | vm_compute; reflexivity].
Defined.

(** ** The preemption evaluator *)

Lemma max_by_spec (A : Type) (key : A -> Q) (l : list A) (x : A) :
  max_by key l = Some x -> In x l /\ forall y, In y l -> key y <= key x.
Proof.
  destruct l as [|x0 l]; simpl; [discriminate|]. intros H; inversion H; subst; clear H.
  revert x0. induction l as [|z l IH]; intros x0; simpl.
  - split; auto. intros y [E|[]]. subst. apply Qle_refl.
  - destruct (IH (max_step key x0 z)) as [H1 H2].
    assert (Hs : (max_step key x0 z = x0 \/ max_step key x0 z = z) /\
                 key x0 <= key (max_step key x0 z) /\ key z <= key (max_step key x0 z)).
    { unfold max_step. destruct (Qlt_bool (key x0) (key z)) eqn:E.
      - apply Qlt_bool_iff in E. split; auto. split; [now apply Qlt_le_weak | apply Qle_refl].
      - apply Qlt_bool_false in E. split; auto. split; [apply Qle_refl | exact E]. }
    destruct Hs as (Hc & Hx0 & Hz). split.
    + destruct H1 as [H1|H1]; auto. rewrite <- H1. destruct Hc as [Hc|Hc]; rewrite Hc; auto.
    + intros y [E|[E|Hy]]; subst.
      * eapply Qle_trans; [exact Hx0 | apply H2; now left].
      * eapply Qle_trans; [exact Hz | apply H2; now left].
      * apply H2. now right.
Qed.

Lemma select_victim_app_spec (s : Simulation) (P : Application.t) :
  select_victim_app s = Some P -> is_max_share_app s P.
Proof.
  unfold select_victim_app. intros H. apply max_by_spec in H. destruct H as [H1 H2].
  apply filter_In in H1. destruct H1 as [Hin Hr].
  assert (G : forall a : Application.t,
             negb (Nat.eqb (length (Application.running_tasks a)) 0) = true <->
             Application.running_tasks a <> []).
  { intros a. destruct (Application.running_tasks a); simpl; split; intros; congruence. }
  split; [exact Hin|]. split; [now apply G|].
  intros a Ha Hra. apply H2. apply filter_In. split; auto. now apply G.
Qed.

Lemma firstn_S_cons (A : Type) (x : A) (l : list A) (k : nat) :
  firstn (S k) (x :: l) = x :: firstn k l.
Proof. reflexivity. Qed.

Lemma build_tau_some (node : Node.t) (D_W : ResourceVector) (l : list (Q * Task.t)) :
  forall tau0 F0 c0 tau F c,
  build_tau node D_W l tau0 F0 c0 = Some (tau, F, c) ->
  exists k, (1 <= k <= length l)%nat /\
            tau = tau0 ++ map snd (firstn k l) /\
            F = freed_from F0 (map snd (firstn k l)) /\
            c = fold_left Qplus (map fst (firstn k l)) c0 /\
            fits_after node D_W F = true /\
            forall j, (1 <= j < k)%nat ->
                      fits_after node D_W (freed_from F0 (map snd (firstn j l))) = false.
Proof.
  induction l as [|[c1 t1] l IH]; intros tau0 F0 c0 tau F c H; simpl in H; [discriminate|].
  destruct (vle (vadd (vsub (Node.C_k node) (vadd F0 (Task.requirements t1))) D_W)
                (Node.R_k node)) eqn:E.
  - inversion H; subst; clear H. exists 1%nat. simpl. repeat split; auto; try lia.
  - destruct (IH _ _ _ _ _ _ H) as (k & Hk & Ht & HF & Hc & Hfit & Hmin).
    exists (S k). rewrite firstn_S_cons. simpl. repeat split; auto; try lia.
    + rewrite Ht, <- app_assoc. reflexivity.
    + intros [|j] Hj; [lia|]. rewrite firstn_S_cons. simpl.
      destruct j as [|j]; [exact E|]. apply Hmin. lia.
Qed.

Lemma build_tau_complete (node : Node.t) (D_W : ResourceVector) (l : list (Q * Task.t)) :
  forall k tau0 F0 c0,
  (1 <= k <= length l)%nat ->
  fits_after node D_W (freed_from F0 (map snd (firstn k l))) = true ->
  (forall j, (1 <= j < k)%nat ->
             fits_after node D_W (freed_from F0 (map snd (firstn j l))) = false) ->
  build_tau node D_W l tau0 F0 c0
  = Some (tau0 ++ map snd (firstn k l), freed_from F0 (map snd (firstn k l)),
          fold_left Qplus (map fst (firstn k l)) c0).
Proof.
  induction l as [|[c1 t1] l IH]; intros k tau0 F0 c0 Hk Hfit Hmin; simpl in Hk; [lia|].
  destruct k as [|k]; [lia|]. rewrite firstn_S_cons in *. simpl in *.
  destruct k as [|k].
  - simpl in *. unfold fits_after in Hfit. rewrite Hfit. reflexivity.
  - pose proof (Hmin 1%nat ltac:(lia)) as H1. simpl in H1. unfold fits_after in H1.
    rewrite H1. rewrite (IH (S k)); try lia; auto.
    + rewrite <- app_assoc. reflexivity.
    + intros j Hj. apply (Hmin (S j)). lia.
Qed.

Lemma mapM_ok (A B : Type) (f : A -> outcome B) (l : list A) (bs : list B) :
  mapM f l = Ok bs -> Forall2 (fun a b => f a = Ok b) l bs.
Proof.
  revert bs; induction l as [|a l IH]; intros bs H; simpl in H.
  - inversion H; constructor.
  - destruct (f a) as [b| |] eqn:E; simpl in H; try discriminate.
    destruct (mapM f l) as [bs'| |]; simpl in H; try discriminate.
    inversion H; subst. constructor; auto.
Qed.

Lemma mapM_complete (A B : Type) (f : A -> outcome B) (l : list A) (bs : list B) :
  Forall2 (fun a b => f a = Ok b) l bs -> mapM f l = Ok bs.
Proof.
  induction 1 as [|a b l bs H HF IH]; simpl; auto.
  rewrite H, IH. reflexivity.
Qed.

Lemma StronglySorted_impl (A : Type) (R R' : A -> A -> Prop) (l : list A) :
  (forall x y, R x y -> R' x y) -> StronglySorted R l -> StronglySorted R' l.
Proof.
  intros HR. induction 1 as [|x l HS IH HF]; constructor; auto.
  eapply Forall_impl; [|exact HF]. auto.
Qed.

Lemma deref_all (s : Simulation) (ks : list nat) (xs : list Task.t) :
  mapM (fun k => of_option BadRef (get_task s k)) ks = Ok xs ->
  xs = flat_map (fun k => match get_task s k with Some x => [x] | None => [] end) ks /\
  Forall2 (fun k x => get_task s k = Some x) ks xs.
Proof.
  intros H. apply mapM_ok in H. induction H as [|k x ks xs H HF IH]; simpl.
  - split; auto.
  - apply of_option_ok in H. rewrite H. destruct IH as [IH1 IH2]. simpl. split.
    + now f_equal.
    + constructor; auto.
Qed.

Lemma costed_all (s : Simulation) (ts : list Task.t) (l : list (Q * Task.t)) :
  mapM (fun task => c <- _calculate_task_cost s task ;; Ok (c, task)) ts = Ok l ->
  map snd l = ts /\ Forall (fun x => _calculate_task_cost s (snd x) = Ok (fst x)) l.
Proof.
  intros H. apply mapM_ok in H. induction H as [|t x ts l H HF IH]; simpl.
  - split; auto.
  - destruct (_calculate_task_cost s t) as [c| |] eqn:E; simpl in H; try discriminate.
    inversion H; subst; clear H. simpl. destruct IH as [IH1 IH2]. split.
    + now f_equal.
    + constructor; auto.
Qed.

Lemma Qle_bool_total (a b : Q) : Qle_bool a b = true \/ Qle_bool b a = true.
Proof.
  rewrite !Qle_bool_iff. destruct (Qlt_le_dec a b) as [H|H]; auto.
  left. now apply Qlt_le_weak.
Qed.

Lemma Qle_bool_trans (a b c : Q) :
  Qle_bool a b = true -> Qle_bool b c = true -> Qle_bool a c = true.
Proof. rewrite !Qle_bool_iff. apply Qle_trans. Qed.

Lemma tasks_with_cost_spec (s : Simulation) (P : Application.t) (n : Node.t)
    (l : list (Q * Task.t)) :
  tasks_with_cost s P n = Ok l -> is_cost_ordered s P n l.
Proof.
  unfold tasks_with_cost. intros H.
  destruct (mapM (fun k => of_option BadRef (get_task s k)) (Node.running_tasks n))
    as [on_node| |] eqn:E1; simpl in H; try discriminate.
  destruct (mapM _ (filter _ on_node)) as [costed| |] eqn:E2; simpl in H; try discriminate.
  inversion H; subst; clear H.
  destruct (deref_all s _ _ E1) as [Hon _]. destruct (costed_all s _ _ E2) as [Hc1 Hc2].
  pose proof (sorted_by_perm _ _ Qle_bool (@fst Q Task.t) costed) as HP.
  split; [|split].
  - apply StronglySorted_impl with (R := key_le Qle_bool (@fst Q Task.t)).
    + intros x y Hxy. now apply Qle_bool_iff.
    + apply sorted_by_sorted; [exact Qle_bool_total | exact Qle_bool_trans].
  - unfold victim_tasks_on_node. rewrite <- Hon, <- Hc1. now apply Permutation_map.
  - eapply Permutation_Forall; [symmetry; exact HP | exact Hc2].
Qed.

Lemma node_candidate_some (s : Simulation) (W : Application.t) (D_W : ResourceVector)
    (P : Application.t) (n n' : Node.t) (cost : Q) (tau : list Task.t) :
  node_candidate s W D_W P n = Ok (Some (cost, tau, n')) ->
  n' = n /\ exists l k, is_node_candidate s W D_W P n l k cost tau.
Proof.
  unfold node_candidate. intros H.
  destruct (tasks_with_cost s P n) as [l| |] eqn:El; simpl in H; try discriminate.
  destruct (build_tau n D_W l [] (zeros_like (R_total s)) 0) as [[[tau' F] c]|] eqn:Eb;
    [|discriminate].
  destruct (Qlt_bool _ _) eqn:C1 in H; simpl in H; [|discriminate].
  destruct (Qlt_bool (EPSILON s) _) eqn:C2 in H; simpl in H; [|discriminate].
  destruct (Qlt_bool (c * BETA s) _) eqn:C3 in H; simpl in H; [|discriminate].
  inversion H; subst; clear H. split; [reflexivity|].
  destruct (build_tau_some _ _ _ _ _ _ _ _ _ Eb) as (k & Hk & Ht & HF & Hc & Hfit & Hmin).
  simpl in Ht. exists l, k. unfold is_node_candidate, passes_checks, freed_by.
  rewrite Ht, <- HF. repeat split; auto; try lia.
  - now apply Qlt_bool_iff.
  - now apply Qlt_bool_iff.
  - now apply Qlt_bool_iff.
Qed.

Lemma node_candidate_complete (s : Simulation) (W : Application.t) (D_W : ResourceVector)
    (P : Application.t) (n : Node.t) (l : list (Q * Task.t)) (k : nat)
    (cost : Q) (tau : list Task.t) :
  is_node_candidate s W D_W P n l k cost tau ->
  node_candidate s W D_W P n = Ok (Some (cost, tau, n)).
Proof.
  intros (Hl & Hk & Ht & Hc & Hfit & Hmin & (C1 & C2 & C3)).
  unfold node_candidate. rewrite Hl. simpl.
  rewrite (build_tau_complete n D_W l k [] (zeros_like (R_total s)) 0 Hk).
  - simpl. fold (freed_by s (map snd (firstn k l))). rewrite <- Ht.
    fold (total_cost (map fst (firstn k l))). rewrite <- Hc.
    apply Qlt_bool_iff in C1, C2, C3. rewrite C1, C2, C3. reflexivity.
  - fold (freed_by s (map snd (firstn k l))). now rewrite <- Ht.
  - exact Hmin.
Qed.

Lemma better_spec (best : option Candidate) (cand : Candidate) :
  exists x, better best cand = Some x /\ (x = cand \/ best = Some x) /\
            fst (fst x) <= fst (fst cand) /\
            forall b, best = Some b -> fst (fst x) <= fst (fst b).
Proof.
  unfold better. destruct best as [b|].
  - destruct (Qlt_bool (fst (fst cand)) (fst (fst b))) eqn:E.
    + apply Qlt_bool_iff in E. exists cand. repeat split; auto; try apply Qle_refl.
      intros b' Hb. inversion Hb; subst. now apply Qlt_le_weak.
    + apply Qlt_bool_false in E. exists b. repeat split; auto.
      intros b' Hb. inversion Hb; subst. apply Qle_refl.
  - exists cand. repeat split; auto; try apply Qle_refl. intros b Hb; discriminate.
Qed.

Lemma scan_nodes_spec (s : Simulation) (W : Application.t) (D_W : ResourceVector)
    (P : Application.t) (l : list Node.t) :
  forall best c,
  scan_nodes s W D_W P l best = Ok (Some c) ->
  (best = Some c \/ exists n, In n l /\ node_candidate s W D_W P n = Ok (Some c)) /\
  (forall b, best = Some b -> fst (fst c) <= fst (fst b)) /\
  (forall n c', In n l -> node_candidate s W D_W P n = Ok (Some c') ->
                fst (fst c) <= fst (fst c')).
Proof.
  induction l as [|n l IH]; intros best c H; simpl in H.
  - inversion H; subst. split; [now left|]. split.
    + intros b Hb. inversion Hb; subst. apply Qle_refl.
    + intros n c' [].
  - destruct (node_candidate s W D_W P n) as [c0| |] eqn:En; simpl in H; try discriminate.
    destruct (IH _ _ H) as (H1 & H2 & H3). destruct c0 as [cand|].
    + destruct (better_spec best cand) as (x & Hx & Hxc & Hx1 & Hx2).
      rewrite Hx in *. pose proof (H2 x eq_refl) as Hcx. split; [|split].
      * destruct H1 as [H1|(n' & Hn' & Hc')].
        -- inversion H1; subst. destruct Hxc as [Hxc|Hxc]; auto.
           subst. right. exists n. split; [now left | exact En].
        -- right. exists n'. split; [now right | exact Hc'].
      * intros b Hb. eapply Qle_trans; [exact Hcx | now apply Hx2].
      * intros n' c' [Hn'|Hn'] Hc'.
        -- subst n'. rewrite En in Hc'. inversion Hc'; subst.
           eapply Qle_trans; [exact Hcx | exact Hx1].
        -- eapply H3; eauto.
    + split; [|split]; auto.
      * destruct H1 as [H1|(n' & Hn' & Hc')]; auto.
        right. exists n'. split; [now right | exact Hc'].
      * intros n' c' [Hn'|Hn'] Hc'; [subst; congruence | eapply H3; eauto].
Qed.

Lemma find_preemption_candidate_some (s : Simulation) (W : Application.t) (T : Task.t)
    (victims : list nat) (node : Node.t) :
  find_preemption_candidate s W T = Ok (Some (victims, node)) ->
  exists P cost tau,
    select_victim_app s = Some P /\
    Application.s_i W < Application.s_i P /\
    scan_nodes s W (Task.requirements T) P (nodes s) None = Ok (Some (cost, tau, node)) /\
    victims = map Task.id tau.
Proof.
  unfold find_preemption_candidate. intros H.
  destruct (select_victim_app s) as [P|]; [|discriminate].
  destruct (Qlt_bool (Application.s_i W) (Application.s_i P)) eqn:E; simpl in H;
    [|discriminate].
  destruct (scan_nodes s W (Task.requirements T) P (nodes s) None) as [best| |] eqn:Es;
    simpl in H; try discriminate.
  destruct best as [[[cost tau] node']|]; inversion H; subst; clear H.
  exists P, cost, tau. split; [reflexivity|]. split; [now apply Qlt_bool_iff|].
  split; [exact Es | reflexivity].
Qed.

(** ** Pointwise reading of vector operations *)

Lemma nth_vadd (r : nat) (u v : ResourceVector) :
  (r < length u)%nat -> (r < length v)%nat -> nth r (vadd u v) 0 = nth r u 0 + nth r v 0.
Proof. intros. unfold vadd. now apply nth_map2. Qed.

Lemma nth_vsub (r : nat) (u v : ResourceVector) :
  (r < length u)%nat -> (r < length v)%nat -> nth r (vsub u v) 0 = nth r u 0 - nth r v 0.
Proof. intros. unfold vsub. now apply nth_map2. Qed.

Lemma length_vadd (u v : ResourceVector) :
  length (vadd u v) = Nat.min (length u) (length v).
Proof. apply length_map2. Qed.

Lemma length_vsub (u v : ResourceVector) :
  length (vsub u v) = Nat.min (length u) (length v).
Proof. apply length_map2. Qed.

Lemma length_zeros_like (v : ResourceVector) : length (zeros_like v) = length v.
Proof. apply length_map. Qed.

Lemma nth_zeros_like (r : nat) (v : ResourceVector) : nth r (zeros_like v) 0 = 0.
Proof.
  unfold zeros_like. revert r; induction v as [|x v IH]; intros [|r]; simpl; auto.
Qed.

Lemma vle_nth (u v : ResourceVector) :
  vle u v = true <->
  forall r, (r < length u)%nat -> (r < length v)%nat -> nth r u 0 <= nth r v 0.
Proof.
  unfold vle. revert v; induction u as [|a u IH]; intros [|b v]; simpl.
  - split; auto. intros _ r H; lia.
  - split; auto. intros _ r H; lia.
  - split; auto. intros _ r _ H; lia.
  - rewrite andb_true_iff, IH, Qle_bool_iff. split.
    + intros [H1 H2] [|r] Hr1 Hr2; auto. apply H2; lia.
    + intros H. split.
      * apply (H 0%nat); lia.
      * intros r Hr1 Hr2. apply (H (S r)); lia.
Qed.

Lemma vle_pointwise (u u' v v' : ResourceVector) :
  length u = length u' -> length v = length v' ->
  (forall r, (r < length u)%nat -> nth r u 0 == nth r u' 0) ->
  (forall r, (r < length v)%nat -> nth r v 0 == nth r v' 0) ->
  vle u v = vle u' v'.
Proof.
  intros Lu Lv Hu Hv.
  assert (G : vle u v = true <-> vle u' v' = true).
  { rewrite !vle_nth. split; intros H r Hr1 Hr2.
    - rewrite <- Hu, <- Hv by lia. apply H; lia.
    - rewrite Hu, Hv by lia. apply H; lia. }
  destruct (vle u v), (vle u' v'); auto.
  - symmetry. now apply G.
  - now apply G.
Qed.

Lemma fits_after_nothing (s : Simulation) (n : Node.t) (D_W : ResourceVector) :
  length (Node.C_k n) = length (R_total s) ->
  fits_after n D_W (freed_by s []) = Node.can_fit n D_W.
Proof.
  intros HL. unfold fits_after, Node.can_fit, freed_by, freed_from. simpl.
  apply vle_pointwise; auto.
  - rewrite !length_vadd, length_vsub, length_zeros_like. lia.
  - intros r Hr. rewrite length_vadd, length_vsub, length_zeros_like in Hr.
    rewrite !nth_vadd; try rewrite length_vsub, length_zeros_like; try lia.
    rewrite nth_vsub; try rewrite length_zeros_like; try lia.
    rewrite nth_zeros_like. ring.
  - intros; reflexivity.
Qed.

Lemma victim_tasks_on_node_in (s : Simulation) (P : Application.t) (n : Node.t) (x : Task.t) :
  In x (victim_tasks_on_node s P n) ->
  In (Task.id x) (Node.running_tasks n) /\ get_task s (Task.id x) = Some x /\
  Task.app_id x = Application.id P.
Proof.
  unfold victim_tasks_on_node. intros H. apply filter_In in H. destruct H as [H1 H2].
  apply Z.eqb_eq in H2. apply in_flat_map in H1. destruct H1 as (k & Hk & Hx).
  destruct (get_task s k) as [y|] eqn:E; [|contradiction].
  destruct Hx as [Hx|[]]. subst y.
  destruct (get_task_in s k x E) as [_ Hid]. subst k. auto.
Qed.

(** What a returned victim set is, in full. *)
Lemma find_preemption_candidate_spec (s : Simulation) (W : Application.t) (T : Task.t)
    (victims : list nat) (node : Node.t) :
  find_preemption_candidate s W T = Ok (Some (victims, node)) ->
  exists P l k cost tau,
    select_victim_app s = Some P /\
    Application.s_i W < Application.s_i P /\
    In node (nodes s) /\
    victims = map Task.id tau /\
    is_cost_ordered s P node l /\
    is_node_candidate s W (Task.requirements T) P node l k cost tau /\
    (forall n' l' k' cost' tau',
        In n' (nodes s) ->
        is_node_candidate s W (Task.requirements T) P n' l' k' cost' tau' ->
        cost <= cost').
Proof.
  intros H. destruct (find_preemption_candidate_some _ _ _ _ _ H)
    as (P & cost & tau & HP & HW & Hscan & Hv).
  destruct (scan_nodes_spec _ _ _ _ _ _ _ Hscan) as (H1 & _ & H3).
  destruct H1 as [H1|(n & Hn & Hc)]; [discriminate|].
  destruct (node_candidate_some _ _ _ _ _ _ _ _ Hc) as (En & l & k & Hcand). subst n.
  exists P, l, k, cost, tau.
  split; [exact HP|]. split; [exact HW|]. split; [exact Hn|]. split; [exact Hv|].
  split; [apply tasks_with_cost_spec; apply Hcand|]. split; [exact Hcand|].
  intros n' l' k' cost' tau' Hn' Hc'.
  apply node_candidate_complete in Hc'. apply (H3 n' _ Hn' Hc').
Qed.

Lemma running_ok_b_ok (s : Simulation) : running_ok_b s = true -> running_ok s.
Proof.
  unfold running_ok_b, running_ok. rewrite forallb_forall. intros H n Hn.
  apply NoDup_map_inv with (f := Z.of_nat). apply distinct_b_ok. now apply H.
Qed.

Lemma in_firstn (A : Type) (k : nat) (l : list A) (x : A) : In x (firstn k l) -> In x l.
Proof.
  revert l; induction k as [|k IH]; intros [|y l]; simpl; auto; try contradiction.
  intros H; destruct H as [H|H]; auto.
Qed.

(** C3.  A victim set returned by the preemption evaluator for the winner
    [W] and its task [T] consists of tasks of the application [P] that has
    the greatest dominant share among the applications with a running
    task, all running on the returned node; [s_P > s_W]; and with [F] the
    resources the set frees and [total_cost] the sum of its wasted-work
    costs, the hypothetical shares satisfy [s_P' > s_W'], the gain
    [s_P - s_P'] exceeds epsilon, and [gain * alpha > total_cost * beta]. *)
Theorem preemption_satisfies_predicates (s : Simulation) (W : Application.t) (T : Task.t)
    (victims : list nat) (node : Node.t) :
  find_preemption_candidate s W T = Ok (Some (victims, node)) ->
  exists P tau costs,
    is_max_share_app s P /\
    Application.s_i W < Application.s_i P /\
    victims = map Task.id tau /\ tau <> [] /\
    Forall (fun x => In (Task.id x) (Node.running_tasks node) /\
                     get_task s (Task.id x) = Some x /\
                     Task.app_id x = Application.id P) tau /\
    Forall2 (fun x c => _calculate_task_cost s x = Ok c) tau costs /\
    passes_checks s W (Task.requirements T) P tau (total_cost costs).
Proof.
  intros H. destruct (find_preemption_candidate_spec _ _ _ _ _ H)
    as (P & l & k & cost & tau & HP & HW & Hn & Hv & (Hs & Hperm & Hcost) & Hcand & _).
  destruct Hcand as (_ & Hk & Ht & Hc & _ & _ & Hchecks).
  exists P, tau, (map fst (firstn k l)).
  split; [now apply select_victim_app_spec|]. split; [exact HW|]. split; [exact Hv|].
  split; [|split; [|split]].
  - subst tau. destruct l as [|x l]; simpl in Hk; [lia|].
    destruct k as [|k]; [lia|]. simpl. discriminate.
  - subst tau. apply Forall_forall. intros x Hx.
    apply victim_tasks_on_node_in.
    eapply Permutation_in; [exact Hperm|]. apply in_map_iff in Hx.
    destruct Hx as (y & Ey & Hy). apply in_map_iff. exists y. split; auto.
    eapply in_firstn; eauto.
  - subst tau. assert (G : Forall (fun x => _calculate_task_cost s (snd x) = Ok (fst x))
                                  (firstn k l)).
    { apply Forall_forall. intros x Hx. rewrite Forall_forall in Hcost.
      apply Hcost. eapply in_firstn; eauto. }
    clear - G. induction G; simpl; constructor; auto.
  - rewrite <- Hc. exact Hchecks.
Qed.

Lemma preemption_satisfies_predicates_witness :
  exists P tau costs,
    is_max_share_app example_preempt_state P /\
    Application.s_i example_winner_app < Application.s_i P /\
    [0%nat] = map Task.id tau /\ tau <> [] /\
    Forall (fun x => In (Task.id x) (Node.running_tasks example_victim_node) /\
                     get_task example_preempt_state (Task.id x) = Some x /\
                     Task.app_id x = Application.id P) tau /\
    Forall2 (fun x c => _calculate_task_cost example_preempt_state x = Ok c) tau costs /\
    passes_checks example_preempt_state example_winner_app
      (Task.requirements example_winner_task) P tau (total_cost costs).
Proof.
  apply (preemption_satisfies_predicates example_preempt_state example_winner_app
           example_winner_task [0%nat] example_victim_node).
  vm_compute. reflexivity.
Defined.

(** C4.  When the scheduler consults the evaluator (no node fits the
    winner's task) and a victim set and node are returned, the victim set
    is the shortest prefix of the victim application's tasks on that node,
    taken in ascending order of wasted-work cost, whose freed resources
    [F] make [(C_k - F) + D_W <= R_k] hold componentwise; and the total
    cost of the returned set is the least among the candidates of all
    nodes, a candidate of a node being its shortest sufficient prefix when
    that prefix passes the hierarchy, gain and economic checks. *)
Theorem victim_set_is_cheapest_sufficient_prefix (s : Simulation) (W : Application.t)
    (T : Task.t) (victims : list nat) (node : Node.t) :
  wf_dims s ->
  find_best_node s (Task.requirements T) = None ->
  find_preemption_candidate s W T = Ok (Some (victims, node)) ->
  exists P l k cost,
    select_victim_app s = Some P /\
    In node (nodes s) /\
    is_cost_ordered s P node l /\
    (1 <= k <= length l)%nat /\
    victims = map Task.id (map snd (firstn k l)) /\
    cost = total_cost (map fst (firstn k l)) /\
    fits_after node (Task.requirements T) (freed_by s (map snd (firstn k l))) = true /\
    (forall j, (j < k)%nat ->
       fits_after node (Task.requirements T) (freed_by s (map snd (firstn j l))) = false) /\
    passes_checks s W (Task.requirements T) P (map snd (firstn k l)) cost /\
    (forall n' l' k' cost' tau',
        In n' (nodes s) ->
        is_node_candidate s W (Task.requirements T) P n' l' k' cost' tau' ->
        cost <= cost').
Proof.
  intros Hwf Hnone H. destruct (find_preemption_candidate_spec _ _ _ _ _ H)
    as (P & l & k & cost & tau & HP & HW & Hn & Hv & Hord & Hcand & Hmin).
  destruct Hcand as (Hl & Hk & Ht & Hc & Hfit & Hshort & Hchecks). subst tau.
  exists P, l, k, cost.
  split; [exact HP|]. split; [exact Hn|]. split; [exact Hord|]. split; [exact Hk|].
  split; [exact Hv|]. split; [exact Hc|]. split; [exact Hfit|].
  split; [|split; [exact Hchecks | exact Hmin]].
  intros [|j] Hj; [|apply Hshort; lia].
  simpl. rewrite fits_after_nothing.
  - apply (find_best_node_none s _ Hnone node Hn).
  - destruct Hwf as (D & HR & HN & _). destruct (HN node Hn) as [_ HC].
    rewrite HC. symmetry. apply HR. intros C. rewrite C in Hn. contradiction.
Qed.

Lemma victim_set_is_cheapest_sufficient_prefix_witness :
  exists P l k cost,
    select_victim_app example_preempt_state = Some P /\
    In example_victim_node (nodes example_preempt_state) /\
    is_cost_ordered example_preempt_state P example_victim_node l /\
    (1 <= k <= length l)%nat /\
    [0%nat] = map Task.id (map snd (firstn k l)) /\
    cost = total_cost (map fst (firstn k l)) /\
    fits_after example_victim_node (Task.requirements example_winner_task)
      (freed_by example_preempt_state (map snd (firstn k l))) = true /\
    (forall j, (j < k)%nat ->
       fits_after example_victim_node (Task.requirements example_winner_task)
         (freed_by example_preempt_state (map snd (firstn j l))) = false) /\
    passes_checks example_preempt_state example_winner_app
      (Task.requirements example_winner_task) P (map snd (firstn k l)) cost /\
    (forall n' l' k' cost' tau',
        In n' (nodes example_preempt_state) ->
        is_node_candidate example_preempt_state example_winner_app
          (Task.requirements example_winner_task) P n' l' k' cost' tau' ->
        cost <= cost').
Proof.
  apply (victim_set_is_cheapest_sufficient_prefix example_preempt_state example_winner_app
           example_winner_task [0%nat] example_victim_node).
  - apply wf_dims_b_ok. vm_compute. reflexivity.
  - vm_compute. reflexivity.
  - vm_compute. reflexivity.
Defined.

Lemma dominant_share_is_max_component_witness :
  is_dominant_share [2; 16] (R_total example_preempt_state)
    (_calculate_s_i example_preempt_state [2; 16]).
Proof.
  refine (proj1 (dominant_share_is_max_component example_preempt_state [2; 16]
                   example_winner_app _ _)); reflexivity.
Defined.

(** ** Reading the state after an update *)

Lemma find_update_other (A : Type) (key : A -> Z) (k k' : Z) (f : A -> A) (l : list A) :
  (forall a, key a = k -> key (f a) = k) -> k <> k' ->
  find (fun a => Z.eqb (key a) k') (map (fun a => if Z.eqb (key a) k then f a else a) l)
  = find (fun a => Z.eqb (key a) k') l.
Proof.
  intros Hf Hk. induction l as [|x l IH]; simpl; auto.
  destruct (Z.eqb (key x) k) eqn:E.
  - apply Z.eqb_eq in E. rewrite (Hf x E).
    assert (E1 : Z.eqb k k' = false) by (apply Z.eqb_neq; congruence).
    assert (E' : Z.eqb (key x) k' = false) by (apply Z.eqb_neq; congruence).
    rewrite E1, E'. exact IH.
  - destruct (Z.eqb (key x) k'); auto.
Qed.

Lemma find_update_task (k k' : nat) (f : Task.t -> Task.t) (l : list Task.t) :
  (forall x, Task.id (f x) = Task.id x) ->
  find (fun x => Nat.eqb (Task.id x) k')
       (map (fun x => if Nat.eqb (Task.id x) k then f x else x) l)
  = option_map (fun x => if Nat.eqb (Task.id x) k then f x else x)
               (find (fun x => Nat.eqb (Task.id x) k') l).
Proof.
  intros Hf. induction l as [|x l IH]; simpl; auto.
  destruct (Nat.eqb (Task.id x) k) eqn:E.
  - rewrite Hf. destruct (Nat.eqb (Task.id x) k') eqn:E'; simpl; auto.
    now rewrite E.
  - destruct (Nat.eqb (Task.id x) k') eqn:E'; simpl; auto.
    now rewrite E.
Qed.

Lemma get_node_update_node (s : Simulation) (k : Z) (n n' : Node.t) :
  get_node s k = Some n -> Node.id n' = k ->
  get_node (update_node k (fun _ => n') s) k = Some n'.
Proof.
  intros H Hid. unfold get_node, update_node. simpl.
  eapply find_update_same; eauto.
Qed.

Lemma sum_comp_cons (r : nat) (v : ResourceVector) (vs : list ResourceVector) :
  sum_comp r (v :: vs) = nth r v 0 + sum_comp r vs.
Proof. reflexivity. Qed.

Lemma fold_vsub_nth (D r : nat) (reqs : list ResourceVector) :
  forall C, length C = D -> (forall v, In v reqs -> length v = D) -> (r < D)%nat ->
  length (fold_left vsub reqs C) = D /\
  nth r (fold_left vsub reqs C) 0 == nth r C 0 - sum_comp r reqs.
Proof.
  induction reqs as [|v reqs IH]; intros C HC Hv Hr; simpl.
  - split; auto. ring.
  - assert (Lv : length v = D) by (apply Hv; now left).
    destruct (IH (vsub C v)) as [H1 H2]; auto.
    + rewrite length_vsub. lia.
    + intros w Hw. apply Hv. now right.
    + split; auto. rewrite H2, nth_vsub by lia. ring.
Qed.

Lemma fold_vadd_nth (D r : nat) (reqs : list ResourceVector) :
  forall F, length F = D -> (forall v, In v reqs -> length v = D) -> (r < D)%nat ->
  length (fold_left vadd reqs F) = D /\
  nth r (fold_left vadd reqs F) 0 == nth r F 0 + sum_comp r reqs.
Proof.
  induction reqs as [|v reqs IH]; intros F HF Hv Hr; simpl.
  - split; auto. ring.
  - assert (Lv : length v = D) by (apply Hv; now left).
    destruct (IH (vadd F v)) as [H1 H2]; auto.
    + rewrite length_vadd. lia.
    + intros w Hw. apply Hv. now right.
    + split; auto. rewrite H2, nth_vadd by lia. ring.
Qed.

Lemma freed_from_map (F0 : ResourceVector) (tau : list Task.t) :
  freed_from F0 tau = fold_left vadd (map Task.requirements tau) F0.
Proof.
  unfold freed_from. revert F0; induction tau as [|x tau IH]; intros F0; simpl; auto.
Qed.

(** ** Applying a preemption: the node side *)

Lemma dict_del_in (k v : nat) (d : list nat) : In k (dict_del v d) <-> In k d /\ k <> v.
Proof.
  unfold dict_del. rewrite filter_In, negb_true_iff, Nat.eqb_neq. intuition congruence.
Qed.

Lemma dict_del_NoDup (v : nat) (d : list nat) : NoDup d -> NoDup (dict_del v d).
Proof. apply NoDup_filter. Qed.

(** One victim: what [preempt_one] reads and what it leaves. *)
Lemma preempt_one_inv (vid nid : Z) (s s' : Simulation) (z z' : ResourceVector) (v : nat) :
  preempt_one vid nid (s, z) v = Ok (s', z') ->
  exists t n,
    get_task s v = Some t /\ get_node s nid = Some n /\
    In v (Node.running_tasks n) /\
    z' = vadd z (Task.requirements t) /\
    get_node s' nid = Some (Node.mk (Node.id n) (Node.R_k n)
                              (vsub (Node.C_k n) (Task.requirements t))
                              (dict_del v (Node.running_tasks n))) /\
    (forall k, get_task s' k
               = option_map (fun x => if Nat.eqb (Task.id x) v
                                      then Task.set_run PENDING (-1) (-1) x else x)
                            (get_task s k)) /\
    (forall k, k <> vid -> get_app s' k = get_app s k) /\
    (forall k, k <> nid -> get_node s' k = get_node s k) /\
    R_total s' = R_total s.
Proof.
  intros H. unfold preempt_one in H.
  destruct (get_task s v) as [t|] eqn:Et; simpl in H; [|discriminate].
  destruct (get_node s nid) as [n|] eqn:En; simpl in H; [|discriminate].
  unfold Node.remove_task in H.
  destruct (dict_mem (Task.id t) (Node.running_tasks n)) eqn:Em; simpl in H; [|discriminate].
  destruct (get_app s vid) as [a|] eqn:Ea; simpl in H; [|discriminate].
  destruct (dict_mem v (Application.running_tasks a)) eqn:Em'; simpl in H; [|discriminate].
  inversion H; subst; clear H.
  destruct (get_task_in s v t Et) as [_ Hid]. rewrite Hid in *.
  exists t, n. split; [reflexivity|]. split; [reflexivity|].
  split; [now apply dict_mem_in|]. split; [reflexivity|]. split; [|split; [|split; [|split]]].
  - unfold get_node. simpl. eapply find_update_same; [exact En|].
    simpl. apply (get_node_in s nid n En).
  - intros k. unfold get_task. simpl. now apply find_update_task.
  - intros k Hk. unfold get_app. simpl. apply find_update_other; auto.
  - intros k Hk. unfold get_node. simpl. apply find_update_other; auto.
    intros _ _. simpl. apply (get_node_in s nid n En).
  - reflexivity.
Qed.

Lemma preempt_one_no_ValueError (vid nid : Z) (s : Simulation) (z : ResourceVector)
    (v : nat) (t : Task.t) (n : Node.t) :
  get_task s v = Some t -> get_node s nid = Some n -> In v (Node.running_tasks n) ->
  preempt_one vid nid (s, z) v <> Raise ValueError.
Proof.
  intros Et En Hin. unfold preempt_one. rewrite Et, En. simpl.
  unfold Node.remove_task. destruct (get_task_in s v t Et) as [_ Hid]. rewrite Hid.
  apply dict_mem_in in Hin. rewrite Hin. simpl.
  destruct (get_app s vid) as [a|]; simpl; [|discriminate].
  destruct (dict_mem v (Application.running_tasks a)); simpl; discriminate.
Qed.

Lemma preempt_all_cons (vid nid : Z) (v : nat) (vs : list nat)
    (acc : Simulation * ResourceVector) :
  preempt_all vid nid (v :: vs) acc
  = bind (preempt_one vid nid acc v) (preempt_all vid nid vs).
Proof. reflexivity. Qed.

Lemma preempt_all_node (vid nid : Z) (victims : list nat) :
  forall (s : Simulation) (z : ResourceVector) (n : Node.t),
  get_node s nid = Some n -> NoDup victims ->
  (forall v, In v victims -> In v (Node.running_tasks n) /\ exists t, get_task s v = Some t) ->
  preempt_all vid nid victims (s, z) <> Raise ValueError /\
  forall s' z', preempt_all vid nid victims (s, z) = Ok (s', z') ->
    exists n' reqs,
      get_node s' nid = Some n' /\ Node.R_k n' = Node.R_k n /\ Node.id n' = Node.id n /\
      Forall2 (fun v r => exists t, get_task s v = Some t /\ Task.requirements t = r)
              victims reqs /\
      Node.C_k n' = fold_left vsub reqs (Node.C_k n) /\
      z' = fold_left vadd reqs z /\
      (forall k t, get_task s k = Some t ->
                   exists t', get_task s' k = Some t' /\
                              Task.requirements t' = Task.requirements t) /\
      (forall k, k <> vid -> get_app s' k = get_app s k) /\
      (forall k, k <> nid -> get_node s' k = get_node s k) /\
      R_total s' = R_total s.
Proof.
  induction victims as [|v victims IH]; intros s z n En HN Hv.
  - simpl. split; [discriminate|]. intros s' z' H. inversion H; subst.
    exists n, []. repeat split; auto. intros k t Ht. eauto.
  - destruct (Hv v (or_introl eq_refl)) as [Hin [t Et]].
    rewrite preempt_all_cons.
    destruct (preempt_one vid nid (s, z) v) as [[s1 z1]| |] eqn:E1; unfold bind.
    + destruct (preempt_one_inv _ _ _ _ _ _ _ E1)
        as (t0 & n0 & Et0 & En0 & _ & Hz & En1 & Htasks & Happs & Hnodes & HR).
      rewrite Et in Et0. inversion Et0; subst t0; clear Et0.
      rewrite En in En0. inversion En0; subst n0; clear En0.
      inversion HN as [|? ? Hnin HN']; subst.
      assert (Hstore : forall k x, get_task s k = Some x ->
                 exists x', get_task s1 k = Some x' /\
                            Task.requirements x' = Task.requirements x).
      { intros k x Hx. rewrite Htasks, Hx. simpl.
        destruct (Nat.eqb (Task.id x) v); eexists; split; reflexivity. }
      destruct (IH s1 (vadd z (Task.requirements t)) _ En1 HN') as [IH1 IH2].
      { intros v' Hv'. destruct (Hv v' (or_intror Hv')) as [Hin' [t' Et']].
        split.
        - simpl. apply dict_del_in. split; auto. intros C; subst; contradiction.
        - destruct (Hstore v' t' Et') as (x' & Hx' & _). eauto. }
      split; [exact IH1|]. intros s' z' H.
      destruct (IH2 s' z' H) as (n' & reqs & G1 & G2 & G3 & G4 & G5 & G6 & G7 & G8 & G9 & G10).
      exists n', (Task.requirements t :: reqs). simpl in *.
      split; [exact G1|]. split; [exact G2|]. split; [exact G3|]. split; [|split; [exact G5|]].
      * constructor; [eauto|].
        clear - G4 Htasks. induction G4 as [|v' r vs rs Hh Ht IHf]; constructor; auto.
        destruct Hh as (x' & Hx' & Hr). rewrite Htasks in Hx'.
        destruct (get_task s v') as [x|]; simpl in Hx'; [|discriminate].
        inversion Hx'; subst; clear Hx'. exists x. split; auto.
        destruct (Nat.eqb (Task.id x) v); reflexivity.
      * split; [exact G6|]. split; [|split; [|split]].
        -- intros k x Hx. destruct (Hstore k x Hx) as (x1 & Hx1 & Hr1).
           destruct (G7 k x1 Hx1) as (x2 & Hx2 & Hr2). exists x2. split; auto. congruence.
        -- intros k Hk. rewrite G8, Happs; auto.
        -- intros k Hk. rewrite G9, Hnodes; auto.
        -- congruence.
    + split; [|discriminate]. intros C. inversion C; subst.
      apply (preempt_one_no_ValueError vid nid s z v t n Et En Hin). exact E1.
    + split; discriminate.
Qed.

Lemma NoDup_map_eq (A B : Type) (key : A -> B) (l : list A) (x y : A) :
  NoDup (map key l) -> In x l -> In y l -> key x = key y -> x = y.
Proof.
  induction l as [|z l IH]; simpl; intros HN Hx Hy E; [contradiction|].
  inversion HN as [|? ? Hnin HN']; subst.
  destruct Hx as [Hx|Hx], Hy as [Hy|Hy]; subst; auto.
  - exfalso. apply Hnin. rewrite E. now apply in_map.
  - exfalso. apply Hnin. rewrite <- E. now apply in_map.
Qed.

Lemma NoDup_map_filter (A B : Type) (key : A -> B) (f : A -> bool) (l : list A) :
  NoDup (map key l) -> NoDup (map key (filter f l)).
Proof.
  induction l as [|x l IH]; simpl; intros HN; [constructor|].
  inversion HN as [|? ? Hnin HN']; subst.
  destruct (f x); simpl; auto. constructor; auto.
  intros C. apply Hnin. apply in_map_iff in C. destruct C as (y & Ey & Hy).
  apply filter_In in Hy. apply in_map_iff. exists y. tauto.
Qed.

Lemma NoDup_firstn_prefix (A : Type) (k : nat) (l : list A) : NoDup l -> NoDup (firstn k l).
Proof.
  intros H. rewrite <- (firstn_skipn k l) in H. now apply NoDup_app_remove_r in H.
Qed.

Lemma deref_ids_NoDup (s : Simulation) (ks : list nat) :
  NoDup ks ->
  NoDup (map Task.id
           (flat_map (fun k => match get_task s k with Some x => [x] | None => [] end) ks)).
Proof.
  induction ks as [|k ks IH]; simpl; intros HN; [constructor|].
  inversion HN as [|? ? Hnin HN']; subst.
  destruct (get_task s k) as [x|] eqn:E; simpl; auto.
  constructor; auto. intros C. apply Hnin.
  apply in_map_iff in C. destruct C as (y & Ey & Hy).
  apply in_flat_map in Hy. destruct Hy as (j & Hj & Hyj).
  destruct (get_task s j) as [y'|] eqn:E'; [|contradiction].
  destruct Hyj as [Hyj|[]]. subst y'.
  destruct (get_task_in s j y E') as [_ Hidy]. destruct (get_task_in s k x E) as [_ Hidx].
  congruence.
Qed.

(** The victims returned by the evaluator are distinct tasks of the
    store that run on the returned node. *)
Lemma victims_on_node (s : Simulation) (P : Application.t) (node : Node.t)
    (l : list (Q * Task.t)) (k : nat) :
  NoDup (Node.running_tasks node) ->
  is_cost_ordered s P node l ->
  NoDup (map Task.id (map snd (firstn k l))) /\
  Forall (fun x => In (Task.id x) (Node.running_tasks node) /\
                   get_task s (Task.id x) = Some x /\
                   Task.app_id x = Application.id P) (map snd (firstn k l)).
Proof.
  intros HN (_ & Hperm & _). split.
  - rewrite <- firstn_map, <- firstn_map. apply NoDup_firstn_prefix.
    eapply Permutation_NoDup; [apply Permutation_map; symmetry; exact Hperm|].
    unfold victim_tasks_on_node. apply NoDup_map_filter. now apply deref_ids_NoDup.
  - apply Forall_forall. intros x Hx. apply victim_tasks_on_node_in.
    eapply Permutation_in; [exact Hperm|].
    rewrite <- firstn_map in Hx. eapply in_firstn; eauto.
Qed.

Lemma reqs_of_victims (s : Simulation) (tau : list Task.t) (reqs : list ResourceVector) :
  Forall (fun x => get_task s (Task.id x) = Some x) tau ->
  Forall2 (fun v r => exists t, get_task s v = Some t /\ Task.requirements t = r)
          (map Task.id tau) reqs ->
  reqs = map Task.requirements tau.
Proof.
  revert reqs; induction tau as [|x tau IH]; intros reqs HF H2; simpl in *.
  - inversion H2; reflexivity.
  - inversion H2 as [|? r ? rs Hh Ht]; subst. inversion HF as [|? ? Hx HF']; subst.
    destruct Hh as (t & Et & Er). rewrite Hx in Et. inversion Et; subst t.
    f_equal; auto.
Qed.

(** Removing the victims one by one leaves the room that the evaluator
    computed from the sum of their requirements. *)
Lemma can_fit_after_removal (D : nat) (C R D_W Z0 : ResourceVector)
    (reqs : list ResourceVector) :
  length C = D -> length Z0 = D -> (forall v, In v reqs -> length v = D) ->
  (forall r, nth r Z0 0 == 0) ->
  vle (vadd (fold_left vsub reqs C) D_W) R
  = vle (vadd (vsub C (fold_left vadd reqs Z0)) D_W) R.
Proof.
  intros HC HZ Hv H0.
  assert (L1 : length (fold_left vsub reqs C) = D).
  { destruct D as [|D'].
    - clear - HC Hv. revert C HC. induction reqs as [|v reqs IH]; intros C HC; simpl; auto.
      apply IH; [intros w Hw; apply Hv; now right|]. rewrite length_vsub. lia.
    - apply (fold_vsub_nth (S D') 0 reqs C HC Hv). lia. }
  assert (L2 : length (fold_left vadd reqs Z0) = D).
  { destruct D as [|D'].
    - clear - HZ Hv. revert Z0 HZ. induction reqs as [|v reqs IH]; intros Z0 HZ; simpl; auto.
      apply IH; [intros w Hw; apply Hv; now right|]. rewrite length_vadd. lia.
    - apply (fold_vadd_nth (S D') 0 reqs Z0 HZ Hv). lia. }
  apply vle_pointwise; auto.
  - rewrite !length_vadd, length_vsub. lia.
  - intros r Hr. rewrite length_vadd, L1 in Hr.
    rewrite !nth_vadd; try rewrite length_vsub; try lia.
    rewrite nth_vsub by lia.
    rewrite (proj2 (fold_vsub_nth D r reqs C HC Hv ltac:(lia))).
    rewrite (proj2 (fold_vadd_nth D r reqs Z0 HZ Hv ltac:(lia))).
    rewrite H0. ring.
  - intros; reflexivity.
Qed.

Lemma preemption_room (s : Simulation) (W : Application.t) (T : Task.t)
    (victims : list nat) (node : Node.t) :
  wf_dims s -> keys_ok s -> running_ok s ->
  find_preemption_candidate s W T = Ok (Some (victims, node)) ->
  exists P first_task,
    select_victim_app s = Some P /\ Application.s_i W < Application.s_i P /\
    get_task s (hd 0%nat victims) = Some first_task /\
    Task.app_id first_task = Application.id P /\
    forall vid,
      preempt_all vid (Node.id node) victims (s, zeros_like (R_total s)) <> Raise ValueError /\
      forall s1 z,
        preempt_all vid (Node.id node) victims (s, zeros_like (R_total s)) = Ok (s1, z) ->
        exists node1,
          get_node s1 (Node.id node) = Some node1 /\
          Node.can_fit node1 (Task.requirements T) = true /\
          (forall k t, get_task s k = Some t ->
                       exists t', get_task s1 k = Some t' /\
                                  Task.requirements t' = Task.requirements t) /\
          (forall k, k <> vid -> get_app s1 k = get_app s k).
Proof.
  intros Hwf [Hka Hkn] Hrun H.
  destruct (find_preemption_candidate_spec _ _ _ _ _ H)
    as (P & l & k & cost & tau & HP & HW & Hn & Hv & Hord & Hcand & _).
  destruct Hcand as (_ & Hk & Ht & _ & Hfit & _ & _).
  destruct (victims_on_node s P node l k (Hrun node Hn) Hord) as [HND HF].
  rewrite <- Ht in HND, HF. rewrite <- Hv in HND.
  assert (Hget : get_node s (Node.id node) = Some node).
  { unfold get_node. now apply find_unique_key. }
  assert (Hfirst : exists x, get_task s (hd 0%nat victims) = Some x /\
                             Task.app_id x = Application.id P).
  { subst victims. destruct tau as [|x tau].
    - exfalso. destruct l as [|y l]; simpl in Hk; [lia|].
      destruct k; [lia|]. discriminate.
    - simpl. inversion HF; subst. exists x. tauto. }
  destruct Hfirst as (x & Hx1 & Hx2). exists P, x.
  split; [exact HP|]. split; [exact HW|]. split; [exact Hx1|]. split; [exact Hx2|].
  intros vid.
  destruct (preempt_all_node vid (Node.id node) victims s (zeros_like (R_total s)) node
              Hget HND) as [G1 G2].
  { intros v Hin. subst victims. apply in_map_iff in Hin. destruct Hin as (y & Ey & Hy).
    rewrite Forall_forall in HF. destruct (HF y Hy) as (F1 & F2 & _). subst v. eauto. }
  split; [exact G1|]. intros s1 z Hs1.
  destruct (G2 s1 z Hs1) as (n' & reqs & E1 & E2 & E3 & E4 & E5 & E6 & E7 & E8 & _).
  exists n'. split; [exact E1|]. split; [|split; [exact E7 | exact E8]].
  assert (Hreqs : reqs = map Task.requirements tau).
  { apply (reqs_of_victims s); [|now rewrite <- Hv].
    eapply Forall_impl; [|exact HF]. simpl. tauto. }
  unfold Node.can_fit. rewrite E5, E2.
  unfold fits_after, freed_by in Hfit. rewrite freed_from_map, <- Hreqs in Hfit.
  rewrite <- Hfit.
  destruct Hwf as (D & HR & HNd & _ & HTd).
  apply can_fit_after_removal with (D := D).
  - apply (HNd node Hn).
  - rewrite length_zeros_like. apply HR. intros C. rewrite C in Hn. contradiction.
  - intros v Hin. subst reqs. apply in_map_iff in Hin. destruct Hin as (y & Ey & Hy).
    rewrite Forall_forall in HF. destruct (HF y Hy) as (_ & F2 & _). subst v.
    apply HTd. apply (get_task_in s _ _ F2).
  - intros r. rewrite nth_zeros_like. reflexivity.
Qed.

Lemma start_head_task_fits (a n : Z) (s : Simulation) (W : Application.t) (tid : nat)
    (T' : Task.t) (node1 : Node.t) :
  get_app s a = Some W -> hd_error (Application.pending_tasks W) = Some tid ->
  get_task s tid = Some T' -> get_node s n = Some node1 ->
  Node.can_fit node1 (Task.requirements T') = true ->
  exists s', start_head_task a n s = Ok s'.
Proof.
  intros Ha Hh Ht Hn Hfit. unfold start_head_task. rewrite Ha. cbn [bind of_option].
  destruct (Application.pending_tasks W) as [|h tl]; [discriminate|].
  simpl in Hh. inversion Hh; subst h. rewrite Ht, Hn. cbn [bind of_option].
  unfold Node.add_task. cbn [Task.requirements Task.set_run]. rewrite Hfit.
  cbn [negb bind]. eauto.
Qed.

(** With exact sums and differences: when the evaluator returns a victim
    set and a host node and the scheduler applies the preemption at once,
    every victim is removed from the node without error, the node then
    fits the winner's task ([can_fit] holds), and [apply_preemption] does
    not end in the [ValueError] that [Node.add_task] raises for a task
    that does not fit.  The evaluator subtracts the sum of the victims'
    requirements and the loop that applies the preemption subtracts them
    one by one; the two results are equal here, and need not be in
    binary64, as the run of [F64.rounding_sim] shows. *)
Theorem preemption_makes_room (s : Simulation) (W : Application.t) (T : Task.t)
    (first : nat) (rest : list nat) (node : Node.t) :
  wf_dims s -> keys_ok s -> running_ok s ->
  In W (apps s) ->
  hd_error (Application.pending_tasks W) = Some (Task.id T) ->
  get_task s (Task.id T) = Some T ->
  find_preemption_candidate s W T = Ok (Some (first :: rest, node)) ->
  (forall vid s1 z,
     preempt_all vid (Node.id node) (first :: rest) (s, zeros_like (R_total s)) = Ok (s1, z) ->
     exists node1, get_node s1 (Node.id node) = Some node1 /\
                   Node.can_fit node1 (Task.requirements T) = true) /\
  apply_preemption s (Application.id W) first (first :: rest) node <> Raise ValueError.
Proof.
  intros Hwf Hkeys Hrun HW Hhead HT H.
  destruct (preemption_room s W T (first :: rest) node Hwf Hkeys Hrun H)
    as (P & x & HP & HsW & Hx & Hxa & Hall).
  split.
  - intros vid s1 z Hs1. destruct (Hall vid) as [_ G].
    destruct (G s1 z Hs1) as (n1 & G1 & G2 & _). eauto.
  - simpl in Hx. unfold apply_preemption. rewrite Hx. cbn [bind of_option].
    destruct (get_app s (Task.app_id x)) as [Pa|] eqn:EP; cbn [bind of_option];
      [|discriminate].
    destruct (Hall (Task.app_id x)) as [G0 G].
    destruct (preempt_all (Task.app_id x) (Node.id node) (first :: rest)
                (s, zeros_like (R_total s))) as [[s1 z]| |] eqn:E1; cbn [bind].
    + destruct (G s1 z eq_refl) as (n1 & G1 & G2 & G3 & G4).
      assert (Hne : Application.id W <> Task.app_id x).
      { rewrite Hxa. intros C.
        assert (HPin : In P (apps s)) by (apply (select_victim_app_spec s P HP)).
        assert (E : W = P) by (apply (NoDup_map_eq _ _ Application.id (apps s) W P
                                        (proj1 Hkeys) HW HPin C)).
        subst P. apply (Qlt_irrefl _ HsW). }
      assert (HgW : get_app s (Application.id W) = Some W).
      { unfold get_app. apply find_unique_key; [apply Hkeys | exact HW]. }
      destruct (G3 _ _ HT) as (T' & HT' & HrT).
      match goal with
      | |- context [start_head_task _ _ ?s2] =>
          destruct (start_head_task_fits (Application.id W) (Node.id node) s2 W
                      (Task.id T) T' n1) as [s3 Hs3]
      end.
      * unfold get_app at 1, update_app. simpl.
        rewrite find_update_other; [|intros ? Hk0; exact Hk0 | congruence].
        fold (get_app s1 (Application.id W)). rewrite G4; auto.
      * exact Hhead.
      * exact HT'.
      * exact G1.
      * rewrite HrT. exact G2.
      * rewrite Hs3. cbn [bind]. discriminate.
    + intros C. apply G0. inversion C. reflexivity.
    + discriminate.
Qed.

Lemma preemption_makes_room_witness :
  apply_preemption example_preempt_state (Application.id example_winner_app) 0 [0%nat]
    example_victim_node <> Raise ValueError.
Proof.
  refine (proj2 (preemption_makes_room example_preempt_state example_winner_app
                   example_winner_task 0 [] example_victim_node _ _ _ _ _ _ _)).
  - apply wf_dims_b_ok. vm_compute. reflexivity.
  - apply keys_ok_b_ok. vm_compute. reflexivity.
  - apply running_ok_b_ok. vm_compute. reflexivity.
  - vm_compute. right. left. reflexivity.
  - vm_compute. reflexivity.
  - vm_compute. reflexivity.
  - vm_compute. reflexivity.
Defined.

(** ** Conservation of resources *)

Lemma nth_vadd_all (u v : ResourceVector) (r : nat) :
  length u = length v -> nth r (vadd u v) 0 == nth r u 0 + nth r v 0.
Proof.
  intros HL. destruct (Nat.lt_ge_cases r (length u)) as [H|H].
  - rewrite nth_vadd by lia. reflexivity.
  - rewrite !nth_overflow; try rewrite length_vadd; try lia. ring.
Qed.

Lemma nth_vsub_all (u v : ResourceVector) (r : nat) :
  length u = length v -> nth r (vsub u v) 0 == nth r u 0 - nth r v 0.
Proof.
  intros HL. destruct (Nat.lt_ge_cases r (length u)) as [H|H].
  - rewrite nth_vsub by lia. reflexivity.
  - rewrite !nth_overflow; try rewrite length_vsub; try lia. ring.
Qed.

Section UpdateByKey.
Variables (A : Type) (key : A -> Z) (k : Z) (f : A -> A).
Hypothesis f_key : forall a, key a = k -> key (f a) = k.

Let upd (a : A) : A := if Z.eqb (key a) k then f a else a.

Lemma map_key_update (l : list A) : map key (map upd l) = map key l.
Proof.
  induction l as [|x l IH]; simpl; auto. f_equal; auto.
  unfold upd. destruct (Z.eqb (key x) k) eqn:E; auto.
  apply Z.eqb_eq in E. rewrite f_key; auto.
Qed.

Lemma map_update_absent (l : list A) :
  (forall a, In a l -> key a <> k) -> map upd l = l.
Proof.
  induction l as [|x l IH]; simpl; intros H; auto. f_equal.
  - unfold upd. destruct (Z.eqb (key x) k) eqn:E; auto.
    apply Z.eqb_eq in E. exfalso. apply (H x); auto.
  - apply IH. intros a Ha. apply H. now right.
Qed.

Lemma in_update (l : list A) (y : A) :
  In y (map upd l) -> In y l \/ exists x, In x l /\ key x = k /\ y = f x.
Proof.
  intros H. apply in_map_iff in H. destruct H as (x & E & Hx). unfold upd in E.
  destruct (Z.eqb (key x) k) eqn:Ek.
  - right. exists x. apply Z.eqb_eq in Ek. auto.
  - left. now subst.
Qed.

Lemma sum_comp_update (g : A -> ResourceVector) (l : list A) (x : A) (r : nat) :
  NoDup (map key l) -> find (fun a => Z.eqb (key a) k) l = Some x ->
  sum_comp r (map g (map upd l))
  == sum_comp r (map g l) - nth r (g x) 0 + nth r (g (f x)) 0.
Proof.
  induction l as [|y l IH]; intros HN H; [discriminate|].
  cbn [map find] in *. inversion HN as [|? ? Hnin HN']; subst.
  destruct (Z.eqb (key y) k) eqn:E.
  - inversion H; subst y. unfold upd at 1. rewrite E.
    rewrite map_update_absent.
    + rewrite !sum_comp_cons. ring.
    + intros a Ha C. apply Z.eqb_eq in E. apply Hnin. rewrite E, <- C. now apply in_map.
  - unfold upd at 1. rewrite E. rewrite !sum_comp_cons, (IH HN' H). ring.
Qed.

Lemma sum_comp_untouched (g : A -> ResourceVector) (l : list A) (r : nat) :
  (forall a, g (f a) = g a) -> sum_comp r (map g (map upd l)) = sum_comp r (map g l).
Proof.
  intros Hg. induction l as [|y l IH]; simpl; auto. unfold sum_comp in *. simpl.
  rewrite IH. f_equal. unfold upd. destruct (Z.eqb (key y) k); auto. now rewrite Hg.
Qed.
End UpdateByKey.

Lemma nodes_nonempty_update (k : Z) (f : Node.t -> Node.t) (s : Simulation) :
  nodes (update_node k f s) <> [] -> nodes s <> [].
Proof. simpl. destruct (nodes s); simpl; auto. intros _; discriminate. Qed.

(** A node changes its usage by [dC] and an application its holding by
    [dU], while the amount owed goes from [z] to [z']. *)
Lemma owed_node_app (D : nat) (s : Simulation) (z z' : ResourceVector) (nid aid : Z)
    (n n' : Node.t) (a : Application.t) (fA : Application.t -> Application.t)
    (dC dU : nat -> Q) :
  owed_inv D z s ->
  get_node s nid = Some n -> get_app s aid = Some a ->
  Node.id n' = nid -> Node.R_k n' = Node.R_k n -> length (Node.C_k n') = D ->
  (forall r, nth r (Node.C_k n') 0 == nth r (Node.C_k n) 0 + dC r) ->
  (forall x, Application.id (fA x) = Application.id x) ->
  (forall x, Application.proto_requirements (fA x) = Application.proto_requirements x) ->
  (forall x, length (Application.U_i x) = D -> length (Application.U_i (fA x)) = D) ->
  (forall r, nth r (Application.U_i (fA a)) 0 == nth r (Application.U_i a) 0 + dU r) ->
  (forall r, dU r + nth r z 0 == dC r + nth r z' 0) ->
  owed_inv D z' (update_app aid fA (update_node nid (fun _ => n') s)).
Proof.
  intros ((Hka & Hkn) & (HR & HNd & HAd & HTd) & Hcons)
         En Ea Hid HRk HCk HC HfA1 HfA2 HfA3 HU Hd.
  split; [|split].
  - split; simpl.
    + rewrite map_key_update; auto. intros x Hx. rewrite HfA1. exact Hx.
    + rewrite map_key_update; auto.
  - split; [|split; [|split]]; simpl.
    + intros Hne. apply HR. destruct (nodes s); simpl in *; auto. discriminate.
    + intros y Hy. apply in_update in Hy. destruct Hy as [Hy|(x & Hx & Hk & Ey)]; auto.
      subst y. rewrite HRk. split; auto.
      apply (HNd n). apply (get_node_in s nid n En).
    + intros y Hy. apply in_update in Hy. destruct Hy as [Hy|(x & Hx & Hk & Ey)]; auto.
      subst y. rewrite HfA2. destruct (HAd x Hx) as [H1 H2]. split; auto.
    + exact HTd.
  - intros r. unfold sum_U, sum_C. simpl.
    rewrite (sum_comp_update _ Application.id aid fA Application.U_i (apps s) a r Hka Ea).
    rewrite (sum_comp_update _ Node.id nid (fun _ => n') Node.C_k (nodes s) n r Hkn En).
    rewrite HU, HC. specialize (Hcons r). unfold sum_U, sum_C in Hcons.
    specialize (Hd r). rewrite Hcons. lra.
Qed.

Lemma accounting_owed (D : nat) (s : Simulation) : accounting_inv D s <-> owed_inv D [] s.
Proof.
  unfold accounting_inv, owed_inv, conservation, owed.
  assert (G : forall r : nat, nth r (@nil Q) 0 == 0) by (intros [|r]; reflexivity).
  split; intros (H1 & H2 & H3); (split; [exact H1|split; [exact H2|]]); intros r;
    specialize (H3 r); specialize (G r); lra.
Qed.

Lemma owed_ext (D : nat) (z z' : ResourceVector) (s : Simulation) :
  (forall r, nth r z 0 == nth r z' 0) -> owed_inv D z s -> owed_inv D z' s.
Proof.
  intros Hz (H1 & H2 & H3). split; [exact H1|split; [exact H2|]].
  intros r. specialize (H3 r). specialize (Hz r). lra.
Qed.

(** A task object changes but keeps the dimension of its requirements. *)
Lemma owed_update_task (D : nat) (z : ResourceVector) (s : Simulation) (k : nat)
    (g : Task.t -> Task.t) :
  (forall x, In x (task_objs s) -> length (Task.requirements (g x)) = D) ->
  owed_inv D z s -> owed_inv D z (update_task k g s).
Proof.
  intros Hg (H1 & (HR & HNd & HAd & HTd) & H3).
  split; [exact H1|split; [|exact H3]].
  split; [exact HR|split; [exact HNd|split; [exact HAd|]]].
  simpl. intros y Hy. apply in_map_iff in Hy. destruct Hy as (x & E & Hx).
  destruct (Nat.eqb (Task.id x) k); subst y; auto.
Qed.

(** Only an application changes. *)
Lemma owed_app_only (D : nat) (s : Simulation) (z z' : ResourceVector) (aid : Z)
    (a : Application.t) (fA : Application.t -> Application.t) (dU : nat -> Q) :
  owed_inv D z s -> get_app s aid = Some a ->
  (forall x, Application.id (fA x) = Application.id x) ->
  (forall x, Application.proto_requirements (fA x) = Application.proto_requirements x) ->
  (forall x, In x (apps s) -> length (Application.U_i (fA x)) = D) ->
  (forall r, nth r (Application.U_i (fA a)) 0 == nth r (Application.U_i a) 0 + dU r) ->
  (forall r, dU r + nth r z 0 == nth r z' 0) ->
  owed_inv D z' (update_app aid fA s).
Proof.
  intros ((Hka & Hkn) & (HR & HNd & HAd & HTd) & Hcons) Ea HfA1 HfA2 HfA3 HU Hd.
  split; [|split].
  - split; simpl; auto.
    rewrite map_key_update; auto. intros x Hx. rewrite HfA1. exact Hx.
  - split; [exact HR|split; [exact HNd|split; [|exact HTd]]]. simpl.
    intros y Hy. apply in_update in Hy. destruct Hy as [Hy|(x & Hx & Hk & Ey)]; auto.
    subst y. rewrite HfA2. destruct (HAd x Hx) as [H1 H2]. split; auto.
  - intros r. unfold sum_U, sum_C. simpl.
    rewrite (sum_comp_update _ Application.id aid fA Application.U_i (apps s) a r Hka Ea).
    rewrite HU. specialize (Hcons r). unfold sum_U, sum_C in Hcons.
    specialize (Hd r). rewrite Hcons. lra.
Qed.

Lemma owed_new_task (D : nat) (z : ResourceVector) (s : Simulation) (x : Task.t) :
  length (Task.requirements x) = D ->
  owed_inv D z s -> owed_inv D z (set_task_objs (task_objs s ++ [x]) s).
Proof.
  intros Hx (H1 & (HR & HNd & HAd & HTd) & H3).
  split; [exact H1|split; [|exact H3]].
  split; [exact HR|split; [exact HNd|split; [exact HAd|]]].
  simpl. intros y Hy. apply in_app_or in Hy. destruct Hy as [Hy|[Hy|[]]]; subst; auto.
Qed.

Section AccountingHandlers.
Variable D : nat.

Lemma accounting_submit_one (app_id : Z) (s s' : Simulation) :
  accounting_inv D s -> submit_one app_id s = Ok s' -> accounting_inv D s'.
Proof.
  intros HI H. unfold submit_one in H.
  destruct (get_app s app_id) as [a|] eqn:Ea; simpl in H; [|discriminate].
  inversion H; subst; clear H. apply accounting_owed. apply accounting_owed in HI.
  assert (Hlen : length (Application.proto_requirements a) = D).
  { destruct HI as (_ & (_ & _ & HAd & _) & _). apply (HAd a).
    apply (get_app_in s app_id a Ea). }
  apply (owed_app_only D
           (set_task_objs (task_objs s ++ [Task.new (task_id_counter s) app_id
                                             (Application.proto_requirements a)
                                             (Application.proto_duration a)])
                          (set_task_id_counter (S (task_id_counter s)) s))
           [] [] app_id a _ (fun _ => 0)); auto.
  - apply (owed_new_task D [] (set_task_id_counter (S (task_id_counter s)) s)); auto.
  - intros x Hx. simpl. destruct HI as (_ & (_ & _ & HAd & _) & _). apply (HAd x Hx).
  - intros r. simpl. ring.
  - intros r. ring.
Qed.

Lemma accounting_repeatM (f : Simulation -> outcome Simulation) (n : nat) :
  (forall s s', accounting_inv D s -> f s = Ok s' -> accounting_inv D s') ->
  forall s s', accounting_inv D s -> repeatM n f s = Ok s' -> accounting_inv D s'.
Proof.
  intros Hf. induction n as [|n IH]; intros s s' HI H; simpl in H.
  - inversion H; subst; auto.
  - destruct (f s) as [s1| |] eqn:E; simpl in H; try discriminate.
    apply (IH s1 s'); [eapply Hf; eauto | exact H].
Qed.

Lemma accounting_handle_submit_event (app_id num_tasks : Z) (s s' : Simulation) :
  accounting_inv D s -> handle_submit_event s app_id num_tasks = Ok s' ->
  accounting_inv D s'.
Proof.
  intros HI H. unfold handle_submit_event in H.
  destruct (of_option KeyError (get_app s app_id)); simpl in H; try discriminate.
  eapply accounting_repeatM; [|exact HI|exact H].
  intros; eapply accounting_submit_one; eauto.
Qed.

Lemma accounting_handle_task_finish_event (task_id : nat) (app_id node_id : Z)
    (s s' : Simulation) :
  accounting_inv D s -> handle_task_finish_event s task_id app_id node_id = Ok s' ->
  accounting_inv D s'.
Proof.
  intros HI H. unfold handle_task_finish_event in H.
  destruct (negb (dict_mem task_id (all_tasks s))); [inversion H; subst; exact HI|].
  destruct (get_task s task_id) as [t|] eqn:Et; simpl in H; [|discriminate].
  destruct (get_node s node_id) as [n|] eqn:En; simpl in H; [|discriminate].
  destruct (get_app s app_id) as [a|] eqn:Ea; simpl in H; [|discriminate].
  unfold Node.remove_task in H.
  destruct (negb (dict_mem (Task.id t) (Node.running_tasks n))); simpl in H;
    [inversion H; subst; exact HI|].
  destruct (negb (dict_mem task_id (Application.running_tasks a))); [discriminate|].
  inversion H; subst; clear H. apply accounting_owed. apply accounting_owed in HI.
  pose proof HI as (_ & (_ & HNd & HAd & HTd) & _).
  assert (Lt : length (Task.requirements t) = D)
    by (apply HTd; apply (get_task_in s task_id t Et)).
  assert (Ln : length (Node.C_k n) = D)
    by (apply (HNd n); apply (get_node_in s node_id n En)).
  assert (La : length (Application.U_i a) = D)
    by (apply (HAd a); apply (get_app_in s app_id a Ea)).
  apply (owed_update_task D []
           (update_app app_id _ (update_node node_id (fun _ => _) s))).
  { simpl. intros x Hx. apply HTd. exact Hx. }
  apply (owed_node_app D s [] [] node_id app_id n _ a _
           (fun r => - nth r (Task.requirements t) 0)
           (fun r => - nth r (Task.requirements t) 0)); auto.
  - simpl. apply (get_node_in s node_id n En).
  - simpl. rewrite length_vsub. lia.
  - intros r. simpl. rewrite nth_vsub_all by lia. ring.
  - intros x Hx. simpl. rewrite length_vsub. lia.
  - intros r. simpl. rewrite nth_vsub_all by lia. ring.
  - intros r. ring.
Qed.

Lemma accounting_start_head_task (app_id node_id : Z) (s s' : Simulation) :
  accounting_inv D s -> start_head_task app_id node_id s = Ok s' -> accounting_inv D s'.
Proof.
  intros HI H. unfold start_head_task in H.
  destruct (get_app s app_id) as [a|] eqn:Ea; simpl in H; [|discriminate].
  destruct (Application.pending_tasks a) as [|tid rest]; [discriminate|].
  destruct (get_task s tid) as [t|] eqn:Et; simpl in H; [|discriminate].
  destruct (get_node s node_id) as [n|] eqn:En; simpl in H; [|discriminate].
  unfold Node.add_task in H. destruct (negb _); simpl in H; [discriminate|].
  inversion H; subst; clear H. apply accounting_owed. apply accounting_owed in HI.
  pose proof HI as (_ & (_ & HNd & HAd & HTd) & _).
  assert (Lt : length (Task.requirements t) = D)
    by (apply HTd; apply (get_task_in s tid t Et)).
  assert (Ln : length (Node.C_k n) = D)
    by (apply (HNd n); apply (get_node_in s node_id n En)).
  assert (La : length (Application.U_i a) = D)
    by (apply (HAd a); apply (get_app_in s app_id a Ea)).
  apply (owed_node_app D
           (update_task tid (fun _ => Task.set_run RUNNING (current_time s) node_id t) s)
           [] [] node_id app_id n _ a _
           (fun r => nth r (Task.requirements t) 0)
           (fun r => nth r (Task.requirements t) 0)); auto.
  - apply owed_update_task; auto.
  - simpl. apply (get_node_in s node_id n En).
  - simpl. rewrite length_vadd. lia.
  - intros r. simpl. rewrite nth_vadd_all by lia. ring.
  - intros x Hx. simpl. rewrite length_vadd. lia.
  - intros r. simpl. rewrite nth_vadd_all by lia. ring.
  - intros r. ring.
Qed.
End AccountingHandlers.

Section AccountingCycle.
Variable D : nat.

Lemma owed_preempt_one (vid nid : Z) (s s' : Simulation) (z z' : ResourceVector)
    (v : nat) :
  owed_inv D z s -> length z = D ->
  preempt_one vid nid (s, z) v = Ok (s', z') ->
  owed_inv D z' s' /\ length z' = D /\
  (forall a, get_app s vid = Some a -> exists a', get_app s' vid = Some a').
Proof.
  intros HI Hz H. unfold preempt_one in H.
  destruct (get_task s v) as [t|] eqn:Et; simpl in H; [|discriminate].
  destruct (get_node s nid) as [n|] eqn:En; simpl in H; [|discriminate].
  unfold Node.remove_task in H.
  destruct (negb (dict_mem (Task.id t) (Node.running_tasks n))); simpl in H;
    [discriminate|].
  destruct (get_app s vid) as [a|] eqn:Ea; simpl in H; [|discriminate].
  destruct (negb (dict_mem v (Application.running_tasks a))); [discriminate|].
  inversion H; clear H; subst s' z'.
  pose proof HI as (_ & (_ & HNd & HAd & HTd) & _).
  assert (Lt : length (Task.requirements t) = D)
    by (apply HTd; apply (get_task_in s v t Et)).
  assert (Ln : length (Node.C_k n) = D)
    by (apply (HNd n); apply (get_node_in s nid n En)).
  split; [|split].
  - apply (owed_update_task D _
             (update_app vid _ (update_node nid (fun _ => _) s))).
    { simpl. intros x Hx. apply HTd. exact Hx. }
    apply (owed_node_app D s z _ nid vid n _ a _
             (fun r => - nth r (Task.requirements t) 0) (fun _ => 0)); auto.
    + simpl. apply (get_node_in s nid n En).
    + simpl. rewrite length_vsub. lia.
    + intros r. simpl. rewrite nth_vsub_all by lia. ring.
    + intros r. simpl. ring.
    + intros r. rewrite nth_vadd_all by lia. ring.
  - rewrite length_vadd. lia.
  - intros a0 _. eexists. unfold get_app. simpl.
    eapply find_update_fun; [exact Ea|]. simpl. apply (get_app_in s vid a Ea).
Qed.

Lemma owed_preempt_all (vid nid : Z) (victims : list nat) :
  forall (s s' : Simulation) (z z' : ResourceVector),
  owed_inv D z s -> length z = D ->
  preempt_all vid nid victims (s, z) = Ok (s', z') ->
  owed_inv D z' s' /\ length z' = D /\
  (forall a, get_app s vid = Some a -> exists a', get_app s' vid = Some a').
Proof.
  induction victims as [|v victims IH]; intros s s' z z' HI Hz H.
  - simpl in H. inversion H; clear H; subst s' z'.
    split; [exact HI|]. split; [exact Hz|]. eauto.
  - rewrite preempt_all_cons in H.
    destruct (preempt_one vid nid (s, z) v) as [[s1 z1]| |] eqn:E1; cbn [bind] in H;
      try discriminate.
    destruct (owed_preempt_one _ _ _ _ _ _ _ HI Hz E1) as (H1 & H2 & H3).
    destruct (IH _ _ _ _ H1 H2 H) as (G1 & G2 & G3).
    split; [exact G1|]. split; [exact G2|].
    intros a Ha. destruct (H3 a Ha) as [a1 Ha1]. apply (G3 a1 Ha1).
Qed.

Lemma accounting_apply_preemption (app_id : Z) (first : nat) (l : list nat)
    (node : Node.t) (s s' : Simulation) (vid : Z) :
  accounting_inv D s -> nodes s <> [] ->
  apply_preemption s app_id first l node = Ok (vid, s') -> accounting_inv D s'.
Proof.
  intros HI Hne H. unfold apply_preemption in H.
  destruct (get_task s first) as [ft|]; cbn [bind of_option] in H; [|discriminate].
  destruct (get_app s (Task.app_id ft)) as [a|] eqn:Ea; cbn [bind of_option] in H;
    [|discriminate].
  destruct (preempt_all (Task.app_id ft) (Node.id node) l (s, zeros_like (R_total s)))
    as [[s1 z]| |] eqn:E1; cbn [bind] in H; try discriminate.
  match type of H with
  | bind (start_head_task _ _ ?s2) _ = _ =>
      destruct (start_head_task app_id (Node.id node) s2) as [s3| |] eqn:E3;
        cbn [bind] in H; try discriminate
  end.
  inversion H; clear H; subst vid s'.
  apply (accounting_start_head_task D _ _ _ _) in E3; [exact E3|].
  assert (HI0 : owed_inv D (zeros_like (R_total s)) s).
  { apply owed_ext with (z := []); [|now apply accounting_owed].
    intros r. rewrite nth_zeros_like. destruct r; reflexivity. }
  assert (Hz0 : length (zeros_like (R_total s)) = D).
  { rewrite length_zeros_like. destruct HI as (_ & (HR & _) & _). now apply HR. }
  destruct (owed_preempt_all _ _ _ _ _ _ _ HI0 Hz0 E1) as (G1 & G2 & G3).
  destruct (G3 a Ea) as [a1 Ha1].
  pose proof G1 as (_ & (_ & _ & HAd & _) & _).
  assert (La : length (Application.U_i a1) = D)
    by (apply (HAd a1); apply (get_app_in s1 _ a1 Ha1)).
  apply accounting_owed.
  apply (owed_app_only D s1 z [] (Task.app_id ft) a1 _ (fun r => - nth r z 0)); auto.
  - intros x Hx. simpl. rewrite length_vsub. destruct (HAd x Hx) as [Hx1 _]. lia.
  - intros r. simpl. rewrite nth_vsub_all by lia. ring.
  - intros r. destruct r; simpl; ring.
Qed.

Lemma accounting_visit_apps (l : list Application.t) :
  forall (s s' : Simulation) (log : list LogEntry),
  accounting_inv D s -> visit_apps s l = Ok (log, Some s') -> accounting_inv D s'.
Proof.
  induction l as [|a l IH]; intros s s' log HI H; simpl in H.
  - inversion H.
  - destruct (Application.pending_tasks a) as [|head rest]; [eapply IH; eauto|].
    destruct (of_option BadRef (get_task s head)) as [task| |]; simpl in H; try discriminate.
    destruct (find_best_node s (Task.requirements task)) as [node|].
    + inv_ok H. eapply accounting_start_head_task; eauto.
    + destruct (find_preemption_candidate s a task) as [r| |] eqn:Ef; simpl in H;
        try discriminate.
      destruct r as [[[|first vs] node]|].
      * inv_ok H. eapply IH; eauto.
      * inv_ok H. eapply accounting_apply_preemption; eauto.
        destruct (find_preemption_candidate_spec _ _ _ _ _ Ef)
          as (_ & _ & _ & _ & _ & _ & _ & Hn & _).
        intros C. rewrite C in Hn. contradiction.
      * inv_ok H. eapply IH; eauto.
Qed.

Lemma accounting_scheduling_round (s s' : Simulation) (log : list LogEntry) :
  accounting_inv D s -> scheduling_round s = Ok (NextRound log s') -> accounting_inv D s'.
Proof.
  intros HI H. unfold scheduling_round in H.
  destruct (filter has_pending (apps s)) as [|a l]; [discriminate|].
  inv_ok H. eapply accounting_visit_apps; eauto.
Qed.

Lemma accounting_run_scheduler_cycle (fuel : nat) :
  forall (s s' : Simulation) (logs : list (list LogEntry)),
  accounting_inv D s -> run_scheduler_cycle fuel s = Ok (s', logs) -> accounting_inv D s'.
Proof.
  induction fuel as [|fuel IH]; intros s s' logs HI H; simpl in H; [discriminate|].
  destruct (scheduling_round s) as [r| |] eqn:E; simpl in H; try discriminate.
  destruct r as [|log|log s1].
  - inversion H; subst; auto.
  - inversion H; subst; auto.
  - inv_ok H. eapply IH; [|eassumption]. eapply accounting_scheduling_round; eauto.
Qed.

Lemma accounting_dispatch (fuel : nat) (e : SimEvent.t) (s s' : Simulation)
    (logs : list (list LogEntry)) :
  accounting_inv D s -> dispatch fuel e s = Ok (s', logs) -> accounting_inv D s'.
Proof.
  intros HI H. unfold dispatch in H. destruct (SimEvent.payload e).
  - inv_ok H. eapply accounting_handle_submit_event; eauto.
  - inv_ok H. eapply accounting_handle_task_finish_event; eauto.
  - eapply accounting_run_scheduler_cycle; eauto.
Qed.

Lemma accounting_after_dispatch (e : SimEvent.t) (s : Simulation) :
  accounting_inv D s -> accounting_inv D (after_dispatch e s).
Proof.
  intros HI. unfold after_dispatch, trigger_scheduler_run.
  destruct (SimEvent.payload e) as [| |[|]]; auto;
    destruct (negb _); auto; destruct (negb _); auto.
Qed.

Lemma accounting_step (fuel : nat) (s s' : Simulation) (e : SimEvent.t)
    (logs : list (list LogEntry)) :
  accounting_inv D s -> step fuel s = Some (e, Ok (logs, s')) -> accounting_inv D s'.
Proof.
  intros HI H. unfold step in H.
  destruct (heappop (event_queue s)) as [[m q]|]; [|discriminate].
  inversion H; subst; clear H.
  match goal with
  | H : bind ?d _ = Ok _ |- _ => destruct d as [[s2 logs2]| |] eqn:Ed; simpl in H;
                                 try discriminate; inversion H; subst; clear H
  end.
  apply accounting_after_dispatch.
  eapply accounting_dispatch; [|exact Ed]. exact HI.
Qed.

Lemma accounting_run_loop (cf fuel : nat) :
  forall s, accounting_inv D s ->
  Forall (fun entry => match snd entry with
                       | Ok (_, s') => accounting_inv D s'
                       | _ => True
                       end) (run_loop fuel cf s).
Proof.
  induction fuel as [|fuel IH]; intros s HI; simpl; [constructor|].
  destruct (step cf s) as [[e r]|] eqn:E; [|constructor].
  destruct r as [[logs s']| |]; constructor; simpl; auto.
  - eapply accounting_step; eauto.
  - apply IH. eapply accounting_step; eauto.
Qed.
End AccountingCycle.

(** ** The initial state *)

Lemma dict_put_keys (A : Type) (key : A -> Z) (x : A) (d : list A) :
  map key (dict_put key x d)
  = if existsb (Z.eqb (key x)) (map key d) then map key d else map key d ++ [key x].
Proof.
  induction d as [|y d IH]; [reflexivity|].
  cbn [dict_put map existsb].
  destruct (Z.eqb (key y) (key x)) eqn:E; cbn [map].
  - apply Z.eqb_eq in E. rewrite E, Z.eqb_refl. reflexivity.
  - rewrite (Z.eqb_sym (key x) (key y)), E. cbn [orb]. rewrite IH.
    destruct (existsb (Z.eqb (key x)) (map key d)); reflexivity.
Qed.

Lemma dict_of_values_NoDup (A : Type) (key : A -> Z) (l : list A) :
  NoDup (map key (dict_of_values key l)).
Proof.
  unfold dict_of_values.
  assert (G : forall d, NoDup (map key d) ->
                        NoDup (map key (fold_left (fun d x => dict_put key x d) l d))).
  { induction l as [|x l IH]; simpl; intros d Hd; auto.
    apply IH. rewrite dict_put_keys.
    destruct (existsb (Z.eqb (key x)) (map key d)) eqn:E; auto.
    apply Permutation_NoDup with (l := key x :: map key d).
    - apply Permutation_cons_append.
    - constructor; auto. intros C.
      assert (E' : existsb (Z.eqb (key x)) (map key d) = true).
      { apply existsb_exists. exists (key x). split; auto. apply Z.eqb_refl. }
      congruence. }
  apply G. constructor.
Qed.

Lemma init_fields (nodes0 : list Node.t) (apps0 : list Application.t)
    (subs : list (Q * Z * Z)) (al be ep : Q) (c0 : nat) :
  nodes (init nodes0 apps0 subs al be ep c0) = dict_of_values Node.id nodes0 /\
  R_total (init nodes0 apps0 subs al be ep c0) = np_sum_axis0 (map Node.R_k nodes0).
Proof.
  unfold init.
  match goal with |- nodes (fold_left ?f _ ?s0) = _ /\ _ =>
    assert (G : forall l s, nodes (fold_left f l s) = nodes s /\
                            R_total (fold_left f l s) = R_total s)
  end.
  { induction l as [|[[t a] n] l IH]; simpl; intros s; auto.
    destruct (IH (push_event t (SubmitEvent a n) s)) as [H1 H2]. rewrite H1, H2. auto. }
  apply G.
Qed.

Lemma fold_vadd_length (D : nat) (vs : list ResourceVector) :
  forall v, length v = D -> (forall w, In w vs -> length w = D) ->
  length (fold_left vadd vs v) = D.
Proof.
  induction vs as [|w vs IH]; intros v Hv Hw; simpl; auto.
  apply IH.
  - rewrite length_vadd, Hv, (Hw w (or_introl eq_refl)). lia.
  - intros w' Hw'. apply Hw. now right.
Qed.

Lemma sum_comp_zero (r : nat) (vs : list ResourceVector) :
  (forall v, In v vs -> nth r v 0 == 0) -> sum_comp r vs == 0.
Proof.
  induction vs as [|v vs IH]; intros H; [reflexivity|].
  rewrite sum_comp_cons, (H v (or_introl eq_refl)), IH; [ring|].
  intros w Hw. apply H. now right.
Qed.

Lemma init_accounting (nspec : list (Z * ResourceVector))
    (aspec : list (Z * ResourceVector * Q)) (subs : list (Q * Z * Z))
    (al be ep : Q) (c0 D : nat) :
  (forall i r, In (i, r) nspec -> length r = D) ->
  (forall i r d, In (i, r, d) aspec -> length r = D) ->
  accounting_inv D
    (trigger_scheduler_run false
       (init (fresh_nodes nspec) (fresh_apps aspec) subs al be ep c0)).
Proof.
  intros Hn Ha.
  assert (G : accounting_inv D (init (fresh_nodes nspec) (fresh_apps aspec) subs al be ep c0)).
  { destruct (init_fields (fresh_nodes nspec) (fresh_apps aspec) subs al be ep c0) as [E1 E2].
    destruct (init_apps (fresh_nodes nspec) (fresh_apps aspec) subs al be ep c0) as [E3 E4].
    assert (HN : forall n, In n (dict_of_values Node.id (fresh_nodes nspec)) ->
                 exists i r, n = Node.new i r /\ length r = D).
    { intros n Hin. apply dict_of_values_incl in Hin. unfold fresh_nodes in Hin.
      apply in_map_iff in Hin. destruct Hin as ([i r] & E & Hin).
      exists i, r. split; [now subst | apply (Hn i r Hin)]. }
    assert (HA : forall a, In a (dict_of_values Application.id (fresh_apps aspec)) ->
                 exists i r d, a = Application.new i r d /\ length r = D).
    { intros a Hin. apply dict_of_values_incl in Hin. unfold fresh_apps in Hin.
      apply in_map_iff in Hin. destruct Hin as ([[i r] d] & E & Hin).
      exists i, r, d. split; [now subst | apply (Ha i r d Hin)]. }
    split; [|split].
    - split; [rewrite E3 | rewrite E1]; apply dict_of_values_NoDup.
    - split; [|split; [|split]].
      + rewrite E1, E2. intros Hne. destruct nspec as [|[i r] nspec]; [contradiction|].
        simpl. apply fold_vadd_length.
        * simpl. apply (Hn i r). now left.
        * intros w Hw. apply in_map_iff in Hw. destruct Hw as (n & En & Hin).
          unfold fresh_nodes in Hin. apply in_map_iff in Hin.
          destruct Hin as ([i' r'] & E & Hin). subst. simpl. apply (Hn i' r'). now right.
      + rewrite E1. intros n Hin. destruct (HN n Hin) as (i & r & E & L). subst n. simpl.
        rewrite length_zeros_like. auto.
      + rewrite E3. intros a Hin. destruct (HA a Hin) as (i & r & d & E & L). subst a. simpl.
        rewrite length_zeros_like. auto.
      + rewrite E4. intros x [].
    - intros r. unfold sum_U, sum_C. rewrite E1, E3. rewrite !sum_comp_zero; [reflexivity| |].
      + intros v Hv. apply in_map_iff in Hv. destruct Hv as (n & E & Hin).
        destruct (HN n Hin) as (i & r' & En & _). subst. simpl. now rewrite nth_zeros_like.
      + intros v Hv. apply in_map_iff in Hv. destruct Hv as (a & E & Hin).
        destruct (HA a Hin) as (i & r' & d & Ea & _). subst. simpl. now rewrite nth_zeros_like. }
  unfold trigger_scheduler_run. destruct (negb _); exact G.
Qed.

(** C6, amended.  When the additions and subtractions of resource amounts
    are exact (the real numbers of the specification; no rounding), then
    in a run from fresh nodes and applications of one dimension, in
    every component the sum of [U_i] over the applications equals the sum
    of [C_k] over the nodes after every event dispatch; and each of the
    submission handler, the finish handler, a direct placement and the
    application of a preemption takes a well-formed state in which the
    sums agree to another such state. *)
Theorem resources_conserved (nspec : list (Z * ResourceVector))
    (aspec : list (Z * ResourceVector * Q)) (subs : list (Q * Z * Z))
    (al be ep : Q) (c0 fuel D : nat) :
  (forall i r, In (i, r) nspec -> length r = D) ->
  (forall i r d, In (i, r, d) aspec -> length r = D) ->
  Forall (fun entry => match snd entry with
                       | Ok (_, s') => conservation s'
                       | _ => True
                       end)
         (run fuel (init (fresh_nodes nspec) (fresh_apps aspec) subs al be ep c0)) /\
  (forall s, accounting_inv D s ->
     (forall a n s', handle_submit_event s a n = Ok s' -> accounting_inv D s') /\
     (forall t a n s', handle_task_finish_event s t a n = Ok s' -> accounting_inv D s') /\
     (forall a n s', start_head_task a n s = Ok s' -> accounting_inv D s') /\
     (forall a first l node v s',
         nodes s <> [] -> apply_preemption s a first l node = Ok (v, s') ->
         accounting_inv D s')).
Proof.
  intros Hn Ha. split.
  - pose proof (init_accounting nspec aspec subs al be ep c0 D Hn Ha) as HI.
    unfold run. eapply Forall_impl; [|apply (accounting_run_loop D fuel fuel _ HI)].
    intros [e [[logs s']| |]]; simpl; auto. intros H. apply H.
  - intros s HI. split; [|split; [|split]].
    + intros a n s'. now apply accounting_handle_submit_event.
    + intros t a n s'. now apply accounting_handle_task_finish_event.
    + intros a n s'. now apply accounting_start_head_task.
    + intros a first l node v s' Hne. now apply accounting_apply_preemption.
Qed.

Lemma resources_conserved_witness :
  Forall (fun entry => match snd entry with
                       | Ok (_, s') => conservation s'
                       | _ => True
                       end) (run 40 example_sim).
Proof.
  refine (proj1 (resources_conserved [(1%Z, [8; 16])]
                   [(1%Z, [1; 8], 16); (2%Z, [2; 2], 5)]
                   example_submissions 2 1 (1 # 1000) 0 40 2 _ _)).
  - intros i r [H|[]]. inversion H. reflexivity.
  - intros i r d [H|[H|[]]]; inversion H; reflexivity.
Defined.

(** ** A finish event that outlives a preemption *)

Lemma finish_event_of_unknown_task_ignored (s : Simulation) (task_id : nat)
    (app_id node_id : Z) :
  dict_mem task_id (all_tasks s) = false ->
  handle_task_finish_event s task_id app_id node_id = Ok s.
Proof. intros H. unfold handle_task_finish_event. now rewrite H. Qed.

(** A preemption does not take its victims out of the global task map. *)
Lemma preempt_all_keeps_all_tasks (vid nid : Z) (victims : list nat) :
  forall s s' z z', preempt_all vid nid victims (s, z) = Ok (s', z') ->
                    all_tasks s' = all_tasks s.
Proof.
  induction victims as [|v victims IH]; intros s s' z z' H.
  - simpl in H. inversion H; reflexivity.
  - rewrite preempt_all_cons in H.
    destruct (preempt_one vid nid (s, z) v) as [[s1 z1]| |] eqn:E1; cbn [bind] in H;
      try discriminate.
    rewrite (IH _ _ _ _ H). unfold preempt_one in E1. inv_ok E1. reflexivity.
Qed.

(** C1 (the code at the failing input).  In [example_sim] task 0 is
    preempted at time 1 and started again on node 1 at time 6, so it is
    due to finish at time 22.  The finish event enqueued when it was first
    started (counter 3, time 16) is the seventh event dispatched.  Its
    handler finds task 0 in the global map and in the running map of
    node 1 and finishes it: [C_k] of node 1 goes from [2, 16] to [1, 8],
    [U_i] of application 1 likewise, and task 0 leaves the running maps
    and the global map six time units early. *)
Theorem stale_finish_event_finishes_restarted_task :
  decisions_at 3 example_sim
  = Some (1, [[LogNoRoom 2 2; LogPreemption [0%nat] 1 1 2 2];
              [LogNoRoom 0 1; LogNoPreemption 1]]) /\
  decisions_at 5 example_sim = Some (6, [[LogAllocation 0 1 1]; []]) /\
  nth_error (map fst (run 40 example_sim)) 6
  = Some (SimEvent.mk 16 3 (TaskFinishEvent 0 1 1)) /\
  In (SimEvent.mk 22 8 (TaskFinishEvent 0 1 1)) (event_queue stale_state) /\
  map Node.C_k (nodes stale_state) = [[2; 16]] /\
  map Node.running_tasks (nodes stale_state) = [[1%nat; 0%nat]] /\
  all_tasks stale_state = [0%nat; 1%nat] /\
  exists s',
    handle_task_finish_event stale_state 0 1 1 = Ok s' /\
    map Node.C_k (nodes s') = [[1; 8]] /\
    map Node.running_tasks (nodes s') = [[1%nat]] /\
    map Application.U_i (apps s') = [[1; 8]; [0; 0]] /\
    all_tasks s' = [1%nat] /\
    s' <> stale_state.
Proof.
  split; [vm_compute; reflexivity|]. split; [vm_compute; reflexivity|].
  split; [vm_compute; reflexivity|]. split; [vm_compute; right; left; reflexivity|].
  split; [vm_compute; reflexivity|]. split; [vm_compute; reflexivity|].
  split; [vm_compute; reflexivity|].
  eexists. split; [vm_compute; reflexivity|].
  split; [vm_compute; reflexivity|]. split; [vm_compute; reflexivity|].
  split; [vm_compute; reflexivity|]. split; [vm_compute; reflexivity|].
  intros C. apply (f_equal all_tasks) in C. vm_compute in C. discriminate.
Qed.

(** ** Rounds and pending tasks *)
















(** ** Only the fuel of the cycle can run out *)
















Lemma run_scheduler_cycle_S (fuel : nat) (s : Simulation) :
  run_scheduler_cycle (S fuel) s
  = bind (scheduling_round s)
         (fun r => match r with
                   | BreakNoPending => Ok (s, [[]])
                   | BreakNoAllocation log => Ok (s, [log])
                   | NextRound log s1 =>
                       bind (run_scheduler_cycle fuel s1)
                            (fun x => let (s2, logs) := x in Ok (s2, log :: logs))
                   end).
Proof. reflexivity. Qed.




(** ** Independence of the global event counter *)

Lemma lt_shift (d : nat) (a b : SimEvent.t) :
  SimEvent.lt (shift_event d a) (shift_event d b) = SimEvent.lt a b.
Proof.
  unfold SimEvent.lt, shift_event, SimEvent.priority. simpl.
  destruct (negb (Qeq_bool _ _)); auto. destruct (negb (Nat.eqb _ _)); auto.
  destruct (Nat.ltb_spec (SimEvent.counter a) (SimEvent.counter b)) as [H|H];
    [apply Nat.ltb_lt | apply Nat.ltb_ge]; lia.
Qed.

Lemma heappop_shift (d : nat) (q : list SimEvent.t) :
  heappop (map (shift_event d) q)
  = option_map (fun x => (shift_event d (fst x), map (shift_event d) (snd x))) (heappop q).
Proof.
  induction q as [|e q IH]; [reflexivity|].
  cbn [map heappop]. rewrite IH. destruct (heappop q) as [[m r]|]; cbn [option_map fst snd].
  - rewrite lt_shift. destruct (SimEvent.lt m e); reflexivity.
  - reflexivity.
Qed.

Lemma push_event_shift (d : nat) (t : Q) (p : Payload) (s : Simulation) :
  push_event t p (shift d s) = shift d (push_event t p s).
Proof.
  unfold push_event, shift, heappush. simpl. rewrite map_app. reflexivity.
Qed.

Lemma trigger_scheduler_run_shift (d : nat) (b : bool) (s : Simulation) :
  trigger_scheduler_run b (shift d s) = shift d (trigger_scheduler_run b s).
Proof.
  unfold trigger_scheduler_run.
  assert (E : existsb (fun e => SimEvent.is_scheduler_run e
                                && Qeq_bool (SimEvent.time e) (current_time (shift d s)))
                      (event_queue (shift d s))
              = existsb (fun e => SimEvent.is_scheduler_run e
                                  && Qeq_bool (SimEvent.time e) (current_time s))
                        (event_queue s)).
  { simpl. induction (event_queue s) as [|e q IH]; simpl; auto. now rewrite IH. }
  rewrite E. destruct (negb _); [|reflexivity]. apply push_event_shift.
Qed.

Lemma start_head_task_shift (d : nat) (a n : Z) (s : Simulation) :
  start_head_task a n (shift d s) = outcome_map (shift d) (start_head_task a n s).
Proof.
  unfold start_head_task.
  change (get_app (shift d s) a) with (get_app s a).
  destruct (get_app s a) as [app|]; [|reflexivity]. cbn [bind of_option].
  destruct (Application.pending_tasks app) as [|tid rest]; [reflexivity|].
  change (get_task (shift d s) tid) with (get_task s tid).
  destruct (get_task s tid) as [t|]; [|reflexivity]. cbn [bind of_option].
  change (get_node (shift d s) n) with (get_node s n).
  destruct (get_node s n) as [nd|]; [|reflexivity]. cbn [bind of_option].
  destruct (Node.add_task nd _) as [nd'| |]; [|reflexivity..]. cbn [bind outcome_map].
  f_equal. apply (push_event_shift d _ _ (update_app a _ (update_node n _ (update_task tid _ s)))).
Qed.

Lemma submit_one_shift (d : nat) (a : Z) (s : Simulation) :
  submit_one a (shift d s) = outcome_map (shift d) (submit_one a s).
Proof.
  unfold submit_one. change (get_app (shift d s) a) with (get_app s a).
  destruct (get_app s a) as [app|]; reflexivity.
Qed.

Lemma repeatM_shift (d n : nat) (f : Simulation -> outcome Simulation) :
  (forall s, f (shift d s) = outcome_map (shift d) (f s)) ->
  forall s, repeatM n f (shift d s) = outcome_map (shift d) (repeatM n f s).
Proof.
  intros Hf. induction n as [|n IH]; intros s; [reflexivity|].
  cbn [repeatM]. rewrite Hf. destruct (f s) as [s1| |]; cbn [bind outcome_map]; auto.
Qed.

Lemma handle_submit_event_shift (d : nat) (s : Simulation) (a n : Z) :
  handle_submit_event (shift d s) a n = outcome_map (shift d) (handle_submit_event s a n).
Proof.
  unfold handle_submit_event. change (get_app (shift d s) a) with (get_app s a).
  destruct (get_app s a) as [app|]; [|reflexivity]. cbn [bind of_option].
  apply repeatM_shift. intros s0. apply submit_one_shift.
Qed.

Lemma handle_task_finish_event_shift (d : nat) (s : Simulation) (t : nat) (a n : Z) :
  handle_task_finish_event (shift d s) t a n
  = outcome_map (shift d) (handle_task_finish_event s t a n).
Proof.
  unfold handle_task_finish_event.
  change (all_tasks (shift d s)) with (all_tasks s).
  destruct (negb (dict_mem t (all_tasks s))); [reflexivity|].
  change (get_task (shift d s) t) with (get_task s t).
  destruct (get_task s t) as [task|]; [|reflexivity]. cbn [bind of_option].
  change (get_node (shift d s) n) with (get_node s n).
  destruct (get_node s n) as [nd|]; [|reflexivity]. cbn [bind of_option].
  change (get_app (shift d s) a) with (get_app s a).
  destruct (get_app s a) as [app|]; [|reflexivity]. cbn [bind of_option].
  destruct (Node.remove_task nd task) as [nd'|[]|]; try reflexivity.
  destruct (negb _); reflexivity.
Qed.

Lemma preempt_one_shift (d : nat) (vid nid : Z) (s : Simulation) (z : ResourceVector)
    (v : nat) :
  preempt_one vid nid (shift d s, z) v
  = outcome_map (shift_fst d) (preempt_one vid nid (s, z) v).
Proof.
  unfold preempt_one.
  change (get_task (shift d s) v) with (get_task s v).
  destruct (get_task s v) as [task|]; [|reflexivity]. cbn [bind of_option].
  change (get_node (shift d s) nid) with (get_node s nid).
  destruct (get_node s nid) as [nd|]; [|reflexivity]. cbn [bind of_option].
  destruct (Node.remove_task nd task) as [nd'| |]; try reflexivity. cbn [bind].
  change (get_app (shift d s) vid) with (get_app s vid).
  destruct (get_app s vid) as [app|]; [|reflexivity]. cbn [bind of_option].
  destruct (negb _); reflexivity.
Qed.

Lemma preempt_all_shift (d : nat) (vid nid : Z) (l : list nat) :
  forall s z,
  preempt_all vid nid l (shift d s, z)
  = outcome_map (shift_fst d) (preempt_all vid nid l (s, z)).
Proof.
  induction l as [|v l IH]; intros s z; [reflexivity|].
  rewrite !preempt_all_cons, preempt_one_shift.
  destruct (preempt_one vid nid (s, z) v) as [[s1 z1]| |]; cbn [bind outcome_map]; auto.
  apply IH.
Qed.

Lemma apply_preemption_shift (d : nat) (s : Simulation) (a : Z) (first : nat)
    (l : list nat) (node : Node.t) :
  apply_preemption (shift d s) a first l node
  = outcome_map (fun x : Z * Simulation => (fst x, shift d (snd x)))
                (apply_preemption s a first l node).
Proof.
  unfold apply_preemption.
  change (get_task (shift d s) first) with (get_task s first).
  destruct (get_task s first) as [ft|]; [|reflexivity]. cbn [bind of_option].
  change (get_app (shift d s) (Task.app_id ft)) with (get_app s (Task.app_id ft)).
  destruct (get_app s (Task.app_id ft)) as [app|]; [|reflexivity]. cbn [bind of_option].
  change (R_total (shift d s)) with (R_total s).
  rewrite preempt_all_shift.
  destruct (preempt_all (Task.app_id ft) (Node.id node) l (s, zeros_like (R_total s)))
    as [[s1 z]| |]; cbn [bind outcome_map shift_fst fst snd]; try reflexivity.
  match goal with
  | |- bind (start_head_task a ?n (update_app ?k ?g (shift d s1))) _ = _ =>
      change (update_app k g (shift d s1)) with (shift d (update_app k g s1))
  end.
  rewrite start_head_task_shift.
  destruct (start_head_task a (Node.id node) _) as [s3| |]; reflexivity.
Qed.

Lemma find_best_node_shift (d : nat) (s : Simulation) (req : ResourceVector) :
  find_best_node (shift d s) req = find_best_node s req.
Proof. reflexivity. Qed.

Lemma node_candidate_shift (d : nat) (s : Simulation) (W : Application.t)
    (D_W : ResourceVector) (P : Application.t) (n : Node.t) :
  node_candidate (shift d s) W D_W P n = node_candidate s W D_W P n.
Proof. reflexivity. Qed.

Lemma scan_nodes_shift (d : nat) (s : Simulation) (W : Application.t)
    (D_W : ResourceVector) (P : Application.t) (l : list Node.t) :
  forall best, scan_nodes (shift d s) W D_W P l best = scan_nodes s W D_W P l best.
Proof.
  induction l as [|n l IH]; intros best; [reflexivity|].
  cbn [scan_nodes]. rewrite node_candidate_shift.
  destruct (node_candidate s W D_W P n) as [c| |]; cbn [bind]; auto.
Qed.

Lemma find_preemption_candidate_shift (d : nat) (s : Simulation) (W : Application.t)
    (T : Task.t) :
  find_preemption_candidate (shift d s) W T = find_preemption_candidate s W T.
Proof.
  unfold find_preemption_candidate.
  change (select_victim_app (shift d s)) with (select_victim_app s).
  destruct (select_victim_app s) as [P|]; [|reflexivity].
  destruct (negb _); [reflexivity|].
  change (nodes (shift d s)) with (nodes s). now rewrite scan_nodes_shift.
Qed.

Lemma visit_apps_shift (d : nat) (l : list Application.t) (s : Simulation) :
  visit_apps (shift d s) l = outcome_map (shift_visit d) (visit_apps s l).
Proof.
  induction l as [|a l IH]; [reflexivity|]. cbn [visit_apps].
  destruct (Application.pending_tasks a) as [|head rest]; [exact IH|].
  change (get_task (shift d s) head) with (get_task s head).
  destruct (get_task s head) as [task|]; [|reflexivity]. cbn [bind of_option].
  rewrite find_best_node_shift.
  destruct (find_best_node s (Task.requirements task)) as [node|].
  - rewrite start_head_task_shift.
    destruct (start_head_task _ _ s) as [s'| |]; reflexivity.
  - rewrite find_preemption_candidate_shift.
    destruct (find_preemption_candidate s a task) as [[[[|first vs] node]|]| |];
      cbn [bind outcome_map]; try reflexivity.
    + rewrite IH. destruct (visit_apps s l) as [[log r]| |]; reflexivity.
    + rewrite apply_preemption_shift.
      destruct (apply_preemption s _ _ _ _) as [[v s']| |]; reflexivity.
    + rewrite IH. destruct (visit_apps s l) as [[log r]| |]; reflexivity.
Qed.

Lemma scheduling_round_shift (d : nat) (s : Simulation) :
  scheduling_round (shift d s) = outcome_map (shift_round d) (scheduling_round s).
Proof.
  unfold scheduling_round. change (apps (shift d s)) with (apps s).
  destruct (filter has_pending (apps s)) as [|a l] eqn:E; [reflexivity|].
  rewrite visit_apps_shift.
  destruct (visit_apps s _) as [[log [s'|]]| |]; reflexivity.
Qed.

Lemma run_scheduler_cycle_shift (d fuel : nat) :
  forall s, run_scheduler_cycle fuel (shift d s)
            = outcome_map (shift_fst d) (run_scheduler_cycle fuel s).
Proof.
  induction fuel as [|fuel IH]; intros s; [reflexivity|].
  rewrite !run_scheduler_cycle_S, scheduling_round_shift.
  destruct (scheduling_round s) as [[|log|log s1]| |]; cbn [bind outcome_map shift_round];
    try reflexivity.
  rewrite IH. destruct (run_scheduler_cycle fuel s1) as [[s2 logs]| |]; reflexivity.
Qed.

Lemma existsb_shift (d : nat) (f : SimEvent.t -> bool) (q : list SimEvent.t) :
  (forall e, f (shift_event d e) = f e) ->
  existsb f (map (shift_event d) q) = existsb f q.
Proof.
  intros Hf. induction q as [|e q IH]; simpl; auto. now rewrite Hf, IH.
Qed.

Lemma dispatch_shift (d fuel : nat) (e : SimEvent.t) (s : Simulation) :
  dispatch fuel (shift_event d e) (shift d s)
  = outcome_map (shift_fst d) (dispatch fuel e s).
Proof.
  unfold dispatch. cbn [shift_event SimEvent.payload].
  destruct (SimEvent.payload e) as [a n|t a n|b].
  - rewrite handle_submit_event_shift.
    destruct (handle_submit_event s a n); reflexivity.
  - rewrite handle_task_finish_event_shift.
    destruct (handle_task_finish_event s t a n); reflexivity.
  - apply run_scheduler_cycle_shift.
Qed.

Lemma after_dispatch_shift (d : nat) (e : SimEvent.t) (s : Simulation) :
  after_dispatch (shift_event d e) (shift d s) = shift d (after_dispatch e s).
Proof.
  unfold after_dispatch. cbn [shift_event SimEvent.payload].
  assert (E : existsb SimEvent.is_scheduler_run (event_queue (shift d s))
              = existsb SimEvent.is_scheduler_run (event_queue s)).
  { simpl. apply existsb_shift. reflexivity. }
  destruct (SimEvent.payload e) as [a n|t a n|[|]]; try reflexivity;
    rewrite E; destruct (negb _); try reflexivity; apply trigger_scheduler_run_shift.
Qed.

Lemma step_shift (d fuel : nat) (s : Simulation) :
  step fuel (shift d s) = option_map (shift_entry d) (step fuel s).
Proof.
  unfold step. change (event_queue (shift d s)) with (map (shift_event d) (event_queue s)).
  rewrite heappop_shift.
  destruct (heappop (event_queue s)) as [[m r]|]; [|reflexivity].
  cbn [option_map fst snd shift_entry]. f_equal. f_equal.
  change (set_current_time (SimEvent.time (shift_event d m))
            (set_event_queue (map (shift_event d) r) (shift d s)))
    with (shift d (set_current_time (SimEvent.time m) (set_event_queue r s))).
  rewrite dispatch_shift.
  destruct (dispatch fuel m _) as [[s2 logs]| |]; cbn [bind outcome_map shift_fst fst snd];
    try reflexivity.
  now rewrite after_dispatch_shift.
Qed.

Lemma run_loop_shift (d cf fuel : nat) :
  forall s, run_loop fuel cf (shift d s) = map (shift_entry d) (run_loop fuel cf s).
Proof.
  induction fuel as [|fuel IH]; intros s; [reflexivity|].
  cbn [run_loop]. rewrite step_shift.
  destruct (step cf s) as [[e r]|]; [|reflexivity].
  cbn [option_map shift_entry fst snd map]. f_equal.
  destruct r as [[logs s']| |]; cbn [outcome_map fst snd]; auto.
Qed.

Lemma init_shift (d : nat) (nodes0 : list Node.t) (apps0 : list Application.t)
    (subs : list (Q * Z * Z)) (al be ep : Q) (c0 : nat) :
  init nodes0 apps0 subs al be ep (c0 + d) = shift d (init nodes0 apps0 subs al be ep c0).
Proof.
  unfold init.
  match goal with
  | |- fold_left ?f subs ?s1 = shift d (fold_left ?f subs ?s0) =>
      change s1 with (shift d s0); generalize s0
  end.
  induction subs as [|[[t a] n] subs IH]; intros s0; [reflexivity|].
  cbn [fold_left]. rewrite push_event_shift. apply IH.
Qed.

Lemma observe_entry_shift (d : nat)
    (x : SimEvent.t * outcome (list (list LogEntry) * Simulation)) :
  observe_entry (shift_entry d x) = observe_entry x.
Proof.
  destruct x as [e [[logs s]| |]]; unfold observe_entry, shift_entry; simpl; try reflexivity.
  unfold observe_state. simpl. rewrite map_map. reflexivity.
Qed.

Lemma run_shift (d fuel : nat) (nodes0 : list Node.t) (apps0 : list Application.t)
    (subs : list (Q * Z * Z)) (al be ep : Q) (c0 : nat) :
  map observe_entry (run fuel (init nodes0 apps0 subs al be ep (c0 + d)))
  = map observe_entry (run fuel (init nodes0 apps0 subs al be ep c0)).
Proof.
  unfold run. rewrite init_shift, trigger_scheduler_run_shift, run_loop_shift, map_map.
  apply map_ext. intros x. apply observe_entry_shift.
Qed.

(** C9.  Two runs from the same nodes, applications, submission schedule
    and parameters dispatch the same events in the same order, make the
    same allocations and preemptions and pass through the same states,
    up to the last one, whatever value the process-wide event counter had
    when each was constructed; the counter values themselves are the only
    difference. *)
Theorem run_is_deterministic (nodes0 : list Node.t) (apps0 : list Application.t)
    (subs : list (Q * Z * Z)) (al be ep : Q) (c1 c2 fuel : nat) :
  map observe_entry (run fuel (init nodes0 apps0 subs al be ep c1))
  = map observe_entry (run fuel (init nodes0 apps0 subs al be ep c2)).
Proof.
  destruct (Nat.le_ge_cases c1 c2) as [H|H].
  - replace c2 with (c1 + (c2 - c1))%nat by lia. symmetry. apply run_shift.
  - replace c1 with (c2 + (c1 - c2))%nat by lia. apply run_shift.
Qed.

(** * The program in binary64 on concrete inputs *)

Section Binary64Runs.
Local Open Scope float_scope.

Lemma Forall_at (A : Type) (P : A -> Prop) (l : list A) (i : nat) (x : A) :
  Forall P l -> nth_error l i = Some x -> P x.
Proof.
  intros H E. rewrite Forall_forall in H. apply H. eapply nth_error_In; eauto.
Qed.

(** C6 (counterexample).  In [F64.drift_sim] the two tasks are placed at
    time 0, so that [C_k] of the node is 0.1 + 0.2.  When the task of
    application 1 finishes at time 1, [C_k] becomes (0.1 + 0.2) - 0.1,
    which is not the binary64 number 0.2, while the [U_i] are 0.1 - 0.1
    and 0.2: after this dispatch the two sums differ. *)
Lemma conservation_fails_in_binary64 :
  ~ F64.conserved_after_every_dispatch (F64.run 30 F64.drift_sim).
Proof.
  intros H.
  assert (E : exists x, nth_error (F64.run 30 F64.drift_sim) 3 = Some x /\
                        exists logs s', snd x = Ok (logs, s') /\
                                        F64.conservation_b s' = false).
  { eexists. split; [vm_compute; reflexivity|]. eexists. eexists.
    split; [reflexivity | vm_compute; reflexivity]. }
  destruct E as (x & E & logs & s' & Ex & Ec).
  pose proof (Forall_at _ _ _ _ _ H E) as G. simpl in G. rewrite Ex in G. congruence.
Qed.

(** C7 (counterexample).  In [F64.absorb_sim] the task submitted at time
    1e16 is started by the cycle of that time; its finish time
    1e16 + 1 is 1e16 in binary64.  The finish event, of priority 1, is
    dispatched after the [SchedulerRunEvent] of the same time, of
    priority 2, that enqueued it. *)
Lemma dispatch_order_fails_in_binary64 :
  ~ F64.dispatched_in_order (F64.run 30 F64.absorb_sim).
Proof.
  intros H. unfold F64.dispatched_in_order in H.
  assert (E : exists a b, nth_error (map fst (F64.run 30 F64.absorb_sim)) 2 = Some a /\
                          nth_error (map fst (F64.run 30 F64.absorb_sim)) 3 = Some b /\
                          F64.SimEvent.lt a b = false).
  { eexists. eexists. split; [vm_compute; reflexivity|].
    split; [vm_compute; reflexivity | vm_compute; reflexivity]. }
  destruct E as (a & b & Ea & Eb & Elt).
  pose proof (StronglySorted_nth_error _ _ _ H 2%nat 3%nat a b ltac:(lia) Ea Eb) as G.
  simpl in G. congruence.
Qed.

(** C10 (the code at the failing input).  In [F64.rounding_state] no node
    fits task 5 of application 2.  The evaluator returns tasks 0 and 1 of
    application 1 on node 1: its test (C_k - F) + D_W <= R_k, with the
    two victims' 0.1 + 0.1 subtracted from 0.5 in one step, gives
    0.3 + 0.4 <= 0.7.  The loop over the victims subtracts 0.1 twice,
    which leaves 0.30000000000000004, and [can_fit] fails on
    0.30000000000000004 + 0.4 <= 0.7: [Node.add_task] raises
    [ValueError], which ends the run. *)
Theorem preemption_leaves_no_room_in_binary64 :
  hd_error (F64.Application.pending_tasks F64.rounding_winner_app) = Some 5%nat /\
  F64.find_best_node F64.rounding_state (F64.Task.requirements F64.rounding_winner_task)
  = None /\
  F64.find_preemption_candidate F64.rounding_state F64.rounding_winner_app
    F64.rounding_winner_task
  = Ok (Some ([0%nat; 1%nat], F64.rounding_victim_node)) /\
  F64.vle (F64.vadd (F64.vsub (F64.Node.C_k F64.rounding_victim_node)
                       (F64.vadd (F64.vadd [0; 0] [0.1; 10]) [0.1; 10]))
             (F64.Task.requirements F64.rounding_winner_task))
          (F64.Node.R_k F64.rounding_victim_node) = true /\
  (exists s1 z node1,
     F64.preempt_all 1 1 [0%nat; 1%nat]
       (F64.rounding_state, F64.zeros_like (F64.R_total F64.rounding_state)) = Ok (s1, z) /\
     F64.get_node s1 1 = Some node1 /\
     F64.Node.C_k node1 = [((0.5 - 0.1) - 0.1); 30] /\
     F64.Node.can_fit node1 (F64.Task.requirements F64.rounding_winner_task) = false) /\
  F64.apply_preemption F64.rounding_state 2 0 [0%nat; 1%nat] F64.rounding_victim_node
  = Raise ValueError /\
  nth_error (map snd (F64.run 30 F64.rounding_sim)) 3 = Some (Raise ValueError).
Proof.
  split; [vm_compute; reflexivity|]. split; [vm_compute; reflexivity|].
  split; [vm_compute; reflexivity|]. split; [vm_compute; reflexivity|].
  split.
  { eexists. eexists. eexists. split; [vm_compute; reflexivity|].
    split; [vm_compute; reflexivity|]. split; vm_compute; reflexivity. }
  split; vm_compute; reflexivity.
Qed.

End Binary64Runs.
